(** * Roblox bio / connections fetcher ([index.js]): model and verification

    The development follows the source file top to bottom:

    - JavaScript strings as sequences of UTF-16 code units;
    - the fragment of ECMAScript regular expressions that the five
      pattern literals of the file use, with the backtracking matcher of
      the language definition (continuation-passing, greedy quantifiers);
    - [SOCIAL_PATTERNS], [URL_RE], [extractConnectionsFromBio],
      [parseRolimonsTarget];
    - the helpers that talk to the upstream services and the two
      [/check] route handlers, in a small exception-and-trace monad.

    Definitions come first, the theorems about them follow. *)

From Stdlib Require Import List NArith Arith Bool Lia.
From Stdlib Require String Ascii.
Import ListNotations.
Import String.StringSyntax Ascii.AsciiSyntax.

Set Implicit Arguments.

(* ================================================================== *)
(** * Part I: definitions *)
(* ================================================================== *)

(** ** Strings

    A JavaScript string is a finite sequence of 16-bit code units.  Code
    units are kept as [N]; nothing below depends on the 16-bit bound. *)

Definition cu := N.
Bind Scope N_scope with cu.
Definition str := list cu.

(** ASCII literals, for writing patterns and examples. *)
Bind Scope string_scope with String.string.
Definition js (s : String.string) : str :=
  map Ascii.N_of_ascii (String.list_ascii_of_string s).

Fixpoint str_eqb (a b : str) : bool :=
  match a, b with
  | [], [] => true
  | x :: a', y :: b' => N.eqb x y && str_eqb a' b'
  | _, _ => false
  end.

Definition in_range (lo hi c : cu) : bool := N.leb lo c && N.leb c hi.

Definition is_upper (c : cu) : bool := in_range 65 90 c.
Definition is_lower (c : cu) : bool := in_range 97 122 c.
Definition is_digit (c : cu) : bool := in_range 48 57 c.

Definition ascii_upper (c : cu) : cu := if is_lower c then (c - 32)%N else c.
Definition ascii_lower (c : cu) : cu := if is_upper c then (c + 32)%N else c.

(** [IsWordChar] of the language definition for a pattern without the
    [u] flag: the basic word characters [A-Za-z0-9_]. *)
Definition is_word (c : cu) : bool :=
  is_lower c || is_upper c || is_digit c || N.eqb c 95%N.

(** The characters matched by [\s]: WhiteSpace and LineTerminator. *)
Definition is_space (c : cu) : bool :=
  in_range 9 13 c || N.eqb c 32%N || N.eqb c 160%N || N.eqb c 5760%N
  || in_range 8192 8202 c || N.eqb c 8232%N || N.eqb c 8233%N
  || N.eqb c 8239%N || N.eqb c 8287%N || N.eqb c 12288%N || N.eqb c 65279%N.

(** ** Regular expressions *)

Module Regex.

(** Members of a character class [[...]]. *)
Inductive item : Type :=
| One (c : cu)                 (* a single character *)
| Range (lo hi : cu)           (* lo-hi *)
| Space                        (* \s *)
| Digit.                       (* \d *)

(** Terms that consume exactly one character. *)
Inductive atom : Type :=
| Chr (c : cu)                 (* pattern character *)
| Any (items : list item)      (* [...] *)
| Nope (items : list item).    (* [^...] *)

(** The pattern fragment used by [index.js].  Every quantifier of the
    file ([*], [+], [?], [{m,n}]) is greedy and applied to a
    one-character term, which is what [Rep] offers.  The patterns have at
    most one capturing group, [Group]. *)
Inductive regex : Type :=
| Empty
| Atom (a : atom)
| Seq (r1 r2 : regex)
| Alt (r1 r2 : regex)                          (* r1|r2 *)
| Rep (a : atom) (min : nat) (max : option nat) (* a{min,max}, None = no bound *)
| Group (r : regex)                            (* ( r ) *)
| WordB                                        (* \b *)
| EndInput.                                    (* $ (no m flag) *)

Definition item_has (i : item) (c : cu) : bool :=
  match i with
  | One x => N.eqb c x
  | Range lo hi => in_range lo hi c
  | Space => is_space c
  | Digit => is_digit c
  end.

Definition class_has (items : list item) (c : cu) : bool :=
  existsb (fun i => item_has i c) items.

(** [Canonicalize] for the [i] flag without [u]: a code unit is compared
    through its upper-case form.  Only the ASCII letters are mapped here.
    This is exact for the patterns of this file: an ASCII code unit
    changes only if it is a lower-case letter, the language definition
    forbids canonicalizing a code unit above 127 to one below 128, and
    the only non-ASCII members of the classes used are white space, which
    has no case. *)
Definition canonicalize (c : cu) : cu := ascii_upper c.

(** With the [i] flag a class matches [c] when it has a member with the
    canonical form of [c]; the candidates are [c] and its two ASCII case
    variants. *)
Definition class_has_i (items : list item) (c : cu) : bool :=
  class_has items c || class_has items (ascii_upper c)
  || class_has items (ascii_lower c).

(** All pattern literals of the file carry the [i] flag. *)
Definition atom_match (a : atom) (c : cu) : bool :=
  match a with
  | Chr p => N.eqb (canonicalize c) (canonicalize p)
  | Any items => class_has_i items c
  | Nope items => negb (class_has_i items c)
  end.

(** Matcher state: the input split at the current position ([before]
    holds the consumed part, most recent character first) and the value
    of capture group 1. *)
Record mstate : Type := MState {
  before : str;
  after : str;
  cap1 : option str
}.

(** The [n] most recently consumed characters, in text order. *)
Definition last_consumed (n : nat) (b : str) : str := rev (firstn n b).

Definition consumed_since (s0 s1 : mstate) : str :=
  last_consumed (length (before s1) - length (before s0)) (before s1).

Definition word_before (s : mstate) : bool :=
  match before s with c :: _ => is_word c | [] => false end.

Definition word_after (s : mstate) : bool :=
  match after s with c :: _ => is_word c | [] => false end.

Definition at_word_boundary (s : mstate) : bool :=
  xorb (word_before s) (word_after s).

Section Matcher.

(** Result type of continuations. *)
Variable R : Type.

Definition orelse (x y : option R) : option R :=
  match x with Some r => Some r | None => y end.

(** Greedy repetition of a one-character test ([RepeatMatcher]): one
    more iteration is tried first; when that fails and the lower bound
    is met, the continuation is called at the current position. *)
Fixpoint rep (p : cu -> bool) (min : nat) (max : option nat)
    (b a : str) (k : str -> str -> option R) : option R :=
  let stop := if Nat.eqb min 0 then k b a else None in
  match max with
  | Some 0 => k b a
  | _ =>
      match a with
      | c :: a' =>
          if p c
          then orelse (rep p (Nat.pred min) (option_map Nat.pred max)
                         (c :: b) a' k)
                      stop
          else stop
      | [] => stop
      end
  end.

(** The matcher of a pattern, applied to a state and a continuation. *)
Fixpoint run (r : regex) (s : mstate) (k : mstate -> option R)
    : option R :=
  match r with
  | Empty => k s
  | Atom a =>
      match after s with
      | c :: a' =>
          if atom_match a c
          then k (MState (c :: before s) a' (cap1 s))
          else None
      | [] => None
      end
  | Seq r1 r2 => run r1 s (fun s' => run r2 s' k)
  | Alt r1 r2 => orelse (run r1 s k) (run r2 s k)
  | Rep a min max =>
      rep (atom_match a) min max (before s) (after s)
          (fun b' a' => k (MState b' a' (cap1 s)))
  | Group r1 =>
      run r1 s (fun s' =>
        k (MState (before s') (after s') (Some (consumed_since s s'))))
  | WordB => if at_word_boundary s then k s else None
  | EndInput => match after s with [] => k s | _ :: _ => None end
  end.

End Matcher.

(** A successful match: [m.index], [m[0]] and [m[1]]. *)
Record match_result : Type := MatchResult {
  index : nat;
  whole : str;
  group1 : option str
}.

(** One attempt at the position between [b] (reversed) and [a]. *)
Definition match_at (r : regex) (b a : str) : option match_result :=
  match run r (MState b a None) (fun s => Some s) with
  | Some s' =>
      Some (MatchResult (length b)
              (last_consumed (length (before s') - length b) (before s'))
              (cap1 s'))
  | None => None
  end.

(** [RegExpBuiltinExec] for a pattern without [g] or [y]: start
    positions are tried from the left, the end of the text included. *)
Fixpoint exec_from (r : regex) (b a : str) : option match_result :=
  match match_at r b a with
  | Some m => Some m
  | None =>
      match a with
      | [] => None
      | c :: a' => exec_from r (c :: b) a'
      end
  end.

(** [text.match(re)] for a pattern without the [g] flag. *)
Definition match_ (text : str) (r : regex) : option match_result :=
  exec_from r [] text.

(** [text.matchAll(re)] for a pattern with the [g] flag: the successive
    [exec] results.  After a match the search resumes at its end, or one
    code unit further when the match is empty; [skip] counts the
    positions that remain covered by the previous match. *)
Fixpoint matchAll_from (r : regex) (skip : nat) (b a : str)
    : list match_result :=
  match skip with
  | S skip' =>
      match a with
      | [] => []
      | c :: a' => matchAll_from r skip' (c :: b) a'
      end
  | O =>
      match match_at r b a with
      | Some m =>
          m :: match a with
               | [] => []
               | c :: a' =>
                   matchAll_from r (Nat.pred (length (whole m))) (c :: b) a'
               end
      | None =>
          match a with
          | [] => []
          | c :: a' => matchAll_from r 0 (c :: b) a'
          end
      end
  end.

Definition matchAll (text : str) (r : regex) : list match_result :=
  matchAll_from r 0 [] text.

(** Pattern-building shorthands. *)
Fixpoint lit (w : str) : regex :=
  match w with
  | [] => Empty
  | [c] => Atom (Chr c)
  | c :: w' => Seq (Atom (Chr c)) (lit w')
  end.

Fixpoint alts (ws : list str) : regex :=
  match ws with
  | [] => Empty
  | [w] => lit w
  | w :: ws' => Alt (lit w) (alts ws')
  end.

Definition star (a : atom) : regex := Rep a 0 None.
Definition plus (a : atom) : regex := Rep a 1 None.
Definition opt (a : atom) : regex := Rep a 0 (Some 1).
Definition between (a : atom) (lo hi : nat) : regex := Rep a lo (Some hi).

End Regex.

Import Regex.

Declare Scope regex_scope.
Delimit Scope regex_scope with re.
Bind Scope regex_scope with regex.
Infix ">>" := Seq (at level 61, right associativity) : regex_scope.

Bind Scope char_scope with Ascii.ascii.
Definition ch (a : Ascii.ascii) : cu := Ascii.N_of_ascii a.

Arguments ch : simpl never.
Arguments js : simpl never.

(** ** Social parsing *)

Record social_pattern : Type := SocialPattern {
  name : str;
  re : regex
}.

(** [\s], [[:\-]] and [@], the pieces shared by the seven patterns. *)
Definition ws : atom := Any [Space].
Definition colon_dash : atom := Any [One (ch ":"); One (ch "-")].
Definition at_sign : atom := Chr (ch "@").

(** [[a-z0-9._]] *)
Definition handle_chars : list item :=
  [Range (ch "a") (ch "z"); Range (ch "0") (ch "9"); One (ch "."); One (ch "_")].

Definition SOCIAL_PATTERNS : list social_pattern := [
  (* /\b(?:ig|insta|instagram)\s*[:\-]?\s*@?([a-z0-9._]{2,30})\b/i *)
  SocialPattern (js "Instagram")
    (WordB >> alts [js "ig"; js "insta"; js "instagram"] >>
     star ws >> opt colon_dash >> star ws >> opt at_sign >>
     Group (between (Any handle_chars) 2 30) >> WordB);
  (* /\b(?:x|twitter|tweet)\s*[:\-]?\s*@?([a-z0-9._]{2,30})\b/i *)
  SocialPattern (js "Twitter")
    (WordB >> alts [js "x"; js "twitter"; js "tweet"] >>
     star ws >> opt colon_dash >> star ws >> opt at_sign >>
     Group (between (Any handle_chars) 2 30) >> WordB);
  (* /\b(?:discord|dc)\s*[:\-]?\s*([a-z0-9._#]{2,37})\b/i *)
  SocialPattern (js "Discord")
    (WordB >> alts [js "discord"; js "dc"] >>
     star ws >> opt colon_dash >> star ws >>
     Group (between (Any (handle_chars ++ [One (ch "#")])) 2 37) >> WordB);
  (* /\b(?:yt|youtube)\s*[:\-]?\s*@?([a-z0-9._-]{2,60})\b/i *)
  SocialPattern (js "YouTube")
    (WordB >> alts [js "yt"; js "youtube"] >>
     star ws >> opt colon_dash >> star ws >> opt at_sign >>
     Group (between (Any (handle_chars ++ [One (ch "-")])) 2 60) >> WordB);
  (* /\b(?:tt|tiktok)\s*[:\-]?\s*@?([a-z0-9._]{2,30})\b/i *)
  SocialPattern (js "TikTok")
    (WordB >> alts [js "tt"; js "tiktok"] >>
     star ws >> opt colon_dash >> star ws >> opt at_sign >>
     Group (between (Any handle_chars) 2 30) >> WordB);
  (* /\b(?:fb|facebook)\s*[:\-]?\s*@?([a-z0-9._]{2,50})\b/i *)
  SocialPattern (js "Facebook")
    (WordB >> alts [js "fb"; js "facebook"] >>
     star ws >> opt colon_dash >> star ws >> opt at_sign >>
     Group (between (Any handle_chars) 2 50) >> WordB);
  (* /\b(?:tg|telegram)\s*[:\-]?\s*@?([a-z0-9._]{2,50})\b/i *)
  SocialPattern (js "Telegram")
    (WordB >> alts [js "tg"; js "telegram"] >>
     star ws >> opt colon_dash >> star ws >> opt at_sign >>
     Group (between (Any handle_chars) 2 50) >> WordB)
]%re.

(** [/\bhttps?:\/\/[^\s)]+/gi] *)
Definition URL_RE : regex :=
  (WordB >> lit (js "http") >> opt (Chr (ch "s")) >> lit (js "://") >>
   plus (Nope [Space; One (ch ")")]))%re.

(** One element of [found]: [{ type: name, handle: m[1] }].  A capture
    that did not take part in the match is [undefined], here [None]. *)
Record found_entry : Type := FoundEntry {
  type : str;
  handle : option str
}.

(** The loop over [SOCIAL_PATTERNS]: [push] appends at the end. *)
Definition push_match (text : str) (found : list found_entry)
    (p : social_pattern) : list found_entry :=
  match match_ text (re p) with
  | Some m => found ++ [FoundEntry (name p) (group1 m)]
  | None => found
  end.

Definition find_socials (text : str) : list found_entry :=
  fold_left (push_match text) SOCIAL_PATTERNS [].

(** [[...text.matchAll(URL_RE)].map(m => m[0])] *)
Definition find_urls (text : str) : list str :=
  map whole (matchAll text URL_RE).

(** A [Set] of strings, as far as [has] and [add] go. *)
Definition Set_has (seen : list str) (k : str) : bool :=
  existsb (str_eqb k) seen.

Definition Set_add (seen : list str) (k : str) : list str :=
  if Set_has seen k then seen else seen ++ [k].

(** ** Identity from a Rolimons URL *)

(** [/\/player\/(\d+)(?:\/|$)/i] *)
Definition PLAYER_ID_RE : regex :=
  (lit (js "/player/") >> Group (plus (Any [Digit])) >>
   Alt (Atom (Chr (ch "/"))) EndInput)%re.

(** [/\/player\/([A-Za-z0-9_]+)(?:\/|$)/i] *)
Definition PLAYER_NAME_RE : regex :=
  (lit (js "/player/") >>
   Group (plus (Any [Range (ch "A") (ch "Z"); Range (ch "a") (ch "z");
                     Range (ch "0") (ch "9"); One (ch "_")])) >>
   Alt (Atom (Chr (ch "/"))) EndInput)%re.

(** The object returned by [parseRolimonsTarget]; an absent property is
    [None]. *)
Record target : Type := Target {
  userId : option str;
  username : option str
}.

Definition parseRolimonsTarget (s : str) : target :=
  match match_ s PLAYER_ID_RE with
  | Some idMatch => Target (group1 idMatch) None
  | None =>
      match match_ s PLAYER_NAME_RE with
      | Some nameMatch => Target None (group1 nameMatch)
      | None => Target None None
      end
  end.

(** ** The language runtime

    Built-in operations whose definition lies in the language runtime
    and not in [index.js]: the Number type (IEEE doubles) with the three
    operations the program applies to it, and
    [String.prototype.toLowerCase] (the Unicode default case conversion).
    The program is modelled for an arbitrary runtime. *)

Class JsRuntime : Type := {
  number : Type;
  number_of_N : N -> number;              (* an integer literal or a length *)
  number_truthy : number -> bool;         (* ToBoolean *)
  number_toString : number -> str;        (* Number::toString *)
  toLowerCase : str -> str
}.

(** Decimal digits of a natural number, for the concrete runtime below;
    [n + 1] rounds are more than the number of digits of [n]. *)
Fixpoint digits_of (fuel n : nat) (acc : str) : str :=
  match fuel with
  | O => acc
  | S fuel' =>
      let acc' := N.of_nat (48 + n mod 10) :: acc in
      if Nat.ltb n 10 then acc' else digits_of fuel' (n / 10) acc'
  end.

Definition decimal (n : nat) : str := digits_of (S n) n [].

(** A runtime for concrete runs: numbers are the natural numbers, and
    [toLowerCase] is as on texts of ASCII code units, where it maps [A-Z]
    to [a-z] and leaves everything else alone. *)
Definition ascii_runtime : JsRuntime := {|
  number := N;
  number_of_N := fun n => n;
  number_truthy := fun n => negb (N.eqb n 0);
  number_toString := fun n => decimal (N.to_nat n);
  toLowerCase := map ascii_lower
|}.

Section Program.

Context {RT : JsRuntime}.

(** *** [extractConnectionsFromBio] *)

(** [urls.filter(u => ...)] with the [seen] set threaded through the
    calls of the predicate. *)
Fixpoint dedup_filter (seen : list str) (urls : list str) : list str :=
  match urls with
  | [] => []
  | u :: rest =>
      let k := toLowerCase u in
      if Set_has seen k then dedup_filter seen rest
      else u :: dedup_filter (Set_add seen k) rest
  end.

(** The returned object [{ found, urls: dedup }]. *)
Record parsed_bio : Type := ParsedBio {
  found : list found_entry;
  urls : list str
}.

Definition extractConnectionsFromBio (text : str) : parsed_bio :=
  let found := find_socials text in
  let urls := find_urls text in
  let dedup := dedup_filter [] urls in
  ParsedBio found dedup.

(** *** Values

    Request parameters and upstream response bodies are JSON-shaped
    values; [JUndefined] stands for an absent property. *)
#[warnings="-register-all"]
Inductive json : Type :=
| JUndefined
| JNull
| JBool (b : bool)
| JNum (n : number)
| JStr (s : str)
| JArr (items : list json)
| JObj (props : list (str * json)).

(** Exceptions carry what the handlers read from them: [e.message] and,
    for a failed HTTP exchange, [e.response.status] and
    [e.response.data]. *)
Record exn : Type := Exn {
  message : str;
  response : option (number * json)
}.

Definition TypeError (msg : String.string) : exn := Exn (js msg) None.

Inductive result (A : Type) : Type :=
| Ok (a : A)
| Throw (e : exn).
Arguments Ok {A} a.
Arguments Throw {A} e.

Definition rbind {A B} (r : result A) (f : A -> result B) : result B :=
  match r with
  | Ok a => f a
  | Throw e => Throw e
  end.

(** ToBoolean *)
Definition truthy (v : json) : bool :=
  match v with
  | JUndefined | JNull => false
  | JBool b => b
  | JNum n => number_truthy n
  | JStr s => negb (str_eqb s [])
  | JArr _ | JObj _ => true
  end.

(** [a || b] *)
Definition or_ (a b : json) : json := if truthy a then a else b.

Fixpoint lookup (props : list (str * json)) (key : str) : json :=
  match props with
  | [] => JUndefined
  | (k, v) :: rest => if str_eqb k key then v else lookup rest key
  end.

(** [v?.key] for the property names the program reads ([username],
    [userId], [rolimonsUrl], [data], [id], [description], [name],
    [type], [platform], [url]): an own property of an object, and
    [undefined] on every other value. *)
Definition get (v : json) (key : String.string) : json :=
  match v with
  | JObj props => lookup props (js key)
  | _ => JUndefined
  end.

(** [v.key] without the [?.]: reading a property of [null] or
    [undefined] throws. *)
Definition get_strict (v : json) (key : String.string) : result json :=
  match v with
  | JUndefined =>
      Throw (Exn (js "Cannot read properties of undefined (reading '"
                     ++ js key ++ js "')") None)
  | JNull =>
      Throw (Exn (js "Cannot read properties of null (reading '"
                     ++ js key ++ js "')") None)
  | _ => Ok (get v key)
  end.

(** [v?.[0]] *)
Definition get0 (v : json) : json :=
  match v with
  | JArr (x :: _) => x
  | JStr (c :: _) => JStr [c]
  | JObj props => lookup props (js "0")
  | _ => JUndefined
  end.

Fixpoint join (sep : str) (l : list str) : str :=
  match l with
  | [] => []
  | [x] => x
  | x :: rest => x ++ sep ++ join sep rest
  end.

(** [String(v)] and template interpolation [`${v}`]: ToString.  An
    object converts through [Object.prototype.toString] unless it has an
    own [toString] property, which for JSON data is never callable and
    makes the conversion throw.  Arrays convert by [join(",")], with
    [null] and [undefined] elements shown as empty. *)
Fixpoint ToString (v : json) : result str :=
  match v with
  | JUndefined => Ok (js "undefined")
  | JNull => Ok (js "null")
  | JBool true => Ok (js "true")
  | JBool false => Ok (js "false")
  | JNum n => Ok (number_toString n)
  | JStr s => Ok s
  | JArr items =>
      rbind
        ((fix each (l : list json) : result (list str) :=
            match l with
            | [] => Ok []
            | x :: rest =>
                rbind (match x with
                       | JUndefined | JNull => Ok []
                       | _ => ToString x
                       end)
                  (fun sx => rbind (each rest) (fun srest => Ok (sx :: srest)))
            end) items)
        (fun parts => Ok (join (js ",") parts))
  | JObj props =>
      match lookup props (js "toString") with
      | JUndefined => Ok (js "[object Object]")
      | _ => Throw (TypeError "Cannot convert object to primitive value")
      end
  end.

(** *** Effects

    The process environment and the outside world, as one request sees
    them.  Each upstream endpoint is called at most once per request, so
    its behaviour is given by the outcome for each argument. *)
Inductive outcome : Type :=
| Resolved (data : json)     (* the promise resolves with [{ data }] *)
| Rejected (e : exn).        (* non-2xx status, time-out, network error *)

Record env : Type := Env {
  WEBHOOK_URL : str;
  ROBLOX_COOKIE : str;
  (* POST https://users.roblox.com/v1/usernames/users, by user name *)
  usernames_api : str -> outcome;
  (* GET https://users.roblox.com/v1/users/${userId} *)
  users_api : str -> outcome;
  (* GET https://accountinformation.roblox.com/v1/users/${userId}/social-links *)
  social_links_api : str -> outcome;
  (* POST WEBHOOK_URL, by request body *)
  webhook : json -> outcome;
  (* new Date().toISOString() *)
  now : str
}.

(** Outbound calls, in the order they are made. *)
Inductive event : Type :=
| CallUsernames (username : str)
| CallUsers (userId : str)
| CallSocialLinks (userId : str)
| CallWebhook (payload : json).

(** Computations that may throw and that record their outbound calls:
    the outcome together with the calls made.  Console output is not
    recorded; the interpolations inside log lines are kept where they
    can throw. *)
Definition M (A : Type) : Type := (result A * list event)%type.

Definition ret {A} (a : A) : M A := (Ok a, []).

Definition bind {A B} (m : M A) (f : A -> M B) : M B :=
  match m with
  | (Ok a, tr) => let (r, tr') := f a in (r, tr ++ tr')
  | (Throw e, tr) => (Throw e, tr)
  end.

Definition throw {A} (e : exn) : M A := (Throw e, []).

Definition lift {A} (r : result A) : M A := (r, []).

(** [try { m } catch (e) { h e }] *)
Definition try_catch {A} (m : M A) (h : exn -> M A) : M A :=
  match m with
  | (Ok a, tr) => (Ok a, tr)
  | (Throw e, tr) => let (r, tr') := h e in (r, tr ++ tr')
  end.

(** [await axios.get(...)] / [await axios.post(...)] *)
Definition await (ev : event) (o : outcome) : M json :=
  (match o with Resolved data => Ok data | Rejected e => Throw e end, [ev]).

End Program.

Arguments Ok {RT A} a.
Arguments Throw {RT A} e.

Notation "x <- m ;; k" := (bind m (fun x => k))
  (at level 62, m at next level, right associativity).

(** ** Helpers and routes *)

Section Service.

Context {RT : JsRuntime}.
Variable E : env.

(** What [res.status(n).json(body)] sends; [res.json] alone sends 200. *)
Record http_response : Type := HttpResponse {
  status : nat;
  body : json
}.

Definition usernameToId (username : str) : M json :=
  data <- await (CallUsernames username) (usernames_api E username) ;;
  (* data?.data?.[0]?.id *)
  let id := get (get0 (get data "data")) "id" in
  if negb (truthy id)
  then throw (Exn (js "Username not found: " ++ username) None)
  else
    _ <- lift (ToString id) ;;        (* `Resolved userId: ${id}` *)
    ret id.

Definition getUserInfo (userId : str) : M json :=
  await (CallUsers userId) (users_api E userId).

Definition isArray (v : json) : bool :=
  match v with JArr _ => true | _ => false end.

Definition getConnections (userId : str) : M json :=
  if str_eqb (ROBLOX_COOKIE E) [] then ret (JArr [])
  else
    try_catch
      (data <- await (CallSocialLinks userId) (social_links_api E userId) ;;
       if negb (isArray data) then ret (JArr []) else ret data)
      (fun err => ret (JArr [])).

Fixpoint map_result {A B} (f : A -> result B) (l : list A)
    : result (list B) :=
  match l with
  | [] => Ok []
  | x :: rest =>
      rbind (f x) (fun y =>
      rbind (map_result f rest) (fun ys => Ok (y :: ys)))
  end.

(** U+2022 BULLET and U+2192 RIGHTWARDS ARROW *)
Definition bullet : cu := 8226%N.
Definition arrow : cu := 8594%N.

(** [`• **${f.type}**: ${f.handle}`] *)
Definition show_found (f : found_entry) : str :=
  [bullet] ++ js " **" ++ type f ++ js "**: "
  ++ match handle f with Some h => h | None => js "undefined" end.

(** [`• **${c.type || c.platform || 'Unknown'}** → ${c.url || 'N/A'}`] *)
Definition show_connection (c : json) : result str :=
  rbind (get_strict c "type") (fun t =>
  rbind (ToString (or_ (or_ t (get c "platform")) (JStr (js "Unknown"))))
    (fun label =>
  rbind (ToString (or_ (get c "url") (JStr (js "N/A")))) (fun url =>
  Ok ([bullet] ++ js " **" ++ label ++ js "** " ++ [arrow] ++ js " " ++ url)))).

Definition embed_field (name : String.string) (value : str) (inline : bool)
    : json :=
  JObj ([(js "name", JStr (js name)); (js "value", JStr value)]
        ++ if inline then [(js "inline", JBool true)] else []).

Definition newline : str := [10%N].

Definition sendDiscordEmbed (username userId : json) (bio : str)
    (parsedBio : parsed_bio) (connections : json) : M unit :=
  if str_eqb (WEBHOOK_URL E) [] then ret tt
  else
    u <- lift (ToString username) ;;
    i <- lift (ToString userId) ;;
    let fields :=
      [embed_field "User" (u ++ js " (" ++ i ++ js ")") true;
       embed_field "Bio length"
         (number_toString (number_of_N (N.of_nat (length bio)))) true] in
    let fields :=
      match found parsedBio with
      | [] => fields
      | _ :: _ =>
          fields ++
          [embed_field "Parsed Handles (Bio)"
             (firstn 1024 (join newline (map show_found (found parsedBio))))
             false]
      end in
    let fields :=
      match urls parsedBio with
      | [] => fields
      | _ :: _ =>
          fields ++
          [embed_field "URLs in Bio"
             (firstn 1024 (join newline (firstn 10 (urls parsedBio))))
             false]
      end in
    fields <-
      match connections with
      | JArr (c :: cs) =>
          pretty <- lift (map_result show_connection (c :: cs)) ;;
          ret (fields ++
               [embed_field "Roblox Connections (API)"
                  (firstn 1024 (join newline pretty)) false])
      | _ =>
          ret (fields ++
               [embed_field "Roblox Connections (API)"
                  (js "None or not visible to this account.") false])
      end ;;
    let embed :=
      JObj [(js "title", JStr (js "Roblox Profile Scan"));
            (js "color", JNum (number_of_N 44678%N));   (* 0x00AE86 *)
            (js "fields", JArr fields);
            (js "timestamp", JStr (now E))] in
    let payload := JObj [(js "embeds", JArr [embed])] in
    try_catch
      (_ <- await (CallWebhook payload) (webhook E payload) ;; ret tt)
      (fun e => ret tt).

(** The fields of [parseRolimonsTarget]'s result as values. *)
Definition parsed_userId (parsed : target) : json :=
  match userId parsed with Some s => JStr s | None => JUndefined end.

Definition parsed_username (parsed : target) : json :=
  match username parsed with Some s => JStr s | None => JUndefined end.

Definition found_json (f : found_entry) : json :=
  JObj [(js "type", JStr (type f));
        (js "handle",
         match handle f with Some h => JStr h | None => JUndefined end)].

Definition parsed_json (parsedBio : parsed_bio) : json :=
  JObj [(js "found", JArr (map found_json (found parsedBio)));
        (js "urls", JArr (map JStr (urls parsedBio)))].

Definition error_body (msg : str) : json := JObj [(js "error", JStr msg)].

(** The body shared by [app.get('/check')] and [app.post('/check')];
    the two differ in where the parameters come from and in the text of
    the 400 answer. *)
Definition check (hint : String.string) (params : json) : M http_response :=
  try_catch
    (let username := get params "username" in
     let userId := get params "userId" in
     let rolimonsUrl := get params "rolimonsUrl" in
     ids <-
       (if truthy rolimonsUrl then
          s <- lift (ToString rolimonsUrl) ;;
          let parsed := parseRolimonsTarget s in
          let userId :=
            if truthy (parsed_userId parsed) then parsed_userId parsed
            else userId in
          let username :=
            if truthy (parsed_username parsed) && negb (truthy username)
            then parsed_username parsed else username in
          ret (username, userId)
        else ret (username, userId)) ;;
     let username := fst ids in
     let userId := snd ids in
     if negb (truthy userId) && negb (truthy username)
     then ret (HttpResponse 400 (error_body (js hint)))
     else
       userId <-
         (if negb (truthy userId)
          then (u <- lift (ToString username) ;; usernameToId u)
          else ret userId) ;;
       uid <- lift (ToString userId) ;;
       info <- getUserInfo uid ;;
       let bio := or_ (get info "description") (JStr []) in
       let resolvedName :=
         or_ (or_ (get info "name") username) (JStr (js "Unknown")) in
       match bio with
       | JStr text =>
           let parsedBio := extractConnectionsFromBio text in
           uid <- lift (ToString userId) ;;
           connections <- getConnections uid ;;
           _ <- sendDiscordEmbed resolvedName userId text parsedBio
                  connections ;;
           _ <- lift (ToString userId) ;;   (* `... for userId=${userId}` *)
           ret (HttpResponse 200
                  (JObj [(js "userId", userId);
                         (js "username", resolvedName);
                         (js "bio", bio);
                         (js "parsed", parsed_json parsedBio);
                         (js "connections", connections)]))
       | _ =>
           (* a value that is not a string has no [match] method *)
           throw (TypeError "text.match is not a function")
       end)
    (fun e => ret (HttpResponse 500 (error_body (message e)))).

(** [app.get('/check', ...)]: the parameters are [req.query]. *)
Definition get_check (query : json) : M http_response :=
  check "Provide ?username=NAME or ?userId=ID or ?rolimonsUrl=" query.

(** [app.post('/check', ...)]: the parameters are [req.body || {}],
    where [req.body] is what [express.json()] has parsed; a body it
    cannot parse is answered by the middleware and never reaches the
    handler. *)
Definition post_check (body : json) : M http_response :=
  check "Provide username, userId, or rolimonsUrl" (or_ body (JObj [])).

End Service.

(** ** Notions used by the statements *)

(** [l1] is [l2] with some elements left out, order kept. *)
Inductive subseq {A : Type} : list A -> list A -> Prop :=
| subseq_nil : subseq [] []
| subseq_skip x l1 l2 : subseq l1 l2 -> subseq l1 (x :: l2)
| subseq_keep x l1 l2 : subseq l1 l2 -> subseq (x :: l1) (x :: l2).

(** The labels of [SOCIAL_PATTERNS], in the order of the array. *)
Definition PLATFORM_ORDER : list str :=
  [js "Instagram"; js "Twitter"; js "Discord"; js "YouTube"; js "TikTok";
   js "Facebook"; js "Telegram"].

(** The entries of a match list that carry a given label. *)
Definition entries_of (label : str) (l : list found_entry)
    : list found_entry :=
  filter (fun e => str_eqb (type e) label) l.

(** What one pattern contributes to [found]. *)
Definition contribution (text : str) (p : social_pattern)
    : list found_entry :=
  match match_ text (re p) with
  | Some m => [FoundEntry (name p) (group1 m)]
  | None => []
  end.

(** One attempt of a pattern at position [j] of a text. *)
Definition match_pos (r : regex) (text : str) (j : nat)
    : option match_result :=
  match_at r (rev (firstn j text)) (skipn j text).

(** [m] is the match of [r] that starts leftmost in [text]. *)
Definition leftmost (r : regex) (text : str) (m : match_result) : Prop :=
  match_pos r text (index m) = Some m /\
  forall j, j < index m -> match_pos r text j = None.

(** Deduplication as the specification words it: an occurrence stays
    when no earlier occurrence has the same key. *)
Fixpoint first_occurrences (key : str -> str) (earlier urls : list str)
    : list str :=
  match urls with
  | [] => []
  | u :: rest =>
      if existsb (fun v => str_eqb (key v) (key u)) earlier
      then first_occurrences key (earlier ++ [u]) rest
      else u :: first_occurrences key (earlier ++ [u]) rest
  end.

(** [w], a pattern literal under the [i] flag, stands at the start of
    [t]. *)
Fixpoint prefix_ci (w t : str) : bool :=
  match w, t with
  | [], _ => true
  | c :: w', d :: t' =>
      N.eqb (canonicalize d) (canonicalize c) && prefix_ci w' t'
  | _ :: _, [] => false
  end.

(** Position of the first occurrence of [w], letter case ignored. *)
Fixpoint find_ci (w t : str) : option nat :=
  if prefix_ci w t then Some 0
  else match t with
       | [] => None
       | _ :: t' => option_map S (find_ci w t')
       end.

(** Number of positions at which [w] occurs, letter case ignored. *)
Fixpoint count_ci (w t : str) : nat :=
  (if prefix_ci w t then 1 else 0)
  + match t with [] => 0 | _ :: t' => count_ci w t' end.

(** [w] occurs in [t] exactly as written. *)
Fixpoint prefix_exact (w t : str) : bool :=
  match w, t with
  | [], _ => true
  | c :: w', d :: t' => N.eqb d c && prefix_exact w' t'
  | _ :: _, [] => false
  end.

Fixpoint contains (w t : str) : bool :=
  prefix_exact w t
  || match t with [] => false | _ :: t' => contains w t' end.

(** The path marker of the two Rolimons patterns. *)
Definition MARKER : str := js "/player/".

Fixpoint until_slash (t : str) : str :=
  match t with
  | [] => []
  | c :: t' => if N.eqb c (ch "/") then [] else c :: until_slash t'
  end.

(** The segment after the first marker of [s]: the characters between
    the marker and the next [/], or the end of [s]. *)
Definition segment_after_marker (s : str) : option str :=
  match find_ci MARKER s with
  | Some i => Some (until_slash (skipn (i + length MARKER) s))
  | None => None
  end.

Definition numeric (seg : str) : bool :=
  negb (str_eqb seg []) && forallb is_digit seg.

Definition word_like (seg : str) : bool :=
  negb (str_eqb seg []) && forallb is_word seg.

(** The state after [n] more characters have been consumed. *)
Definition advance (n : nat) (s : mstate) : mstate :=
  MState (rev (firstn n (after s)) ++ before s) (skipn n (after s)) (cap1 s).

(** The common shape of the two Rolimons patterns:
    [/\/player\/(C+)(?:\/|$)/i] for a character class [C]. *)
Definition player_re (cls : list item) : regex :=
  (lit MARKER >> Group (plus (Any cls)) >>
   Alt (Atom (Chr (ch "/"))) EndInput)%re.

(** Class members that are ASCII. *)
Definition ascii_item (i : item) : bool :=
  match i with
  | One x => N.ltb x 128
  | Range _ hi => N.ltb hi 128
  | Digit => true
  | Space => false
  end.

(** *** Keyword mentions

    The seven patterns share one shape; [PLATFORMS] is the table of
    [SOCIAL_PATTERNS] read column by column. *)
Record platform : Type := Platform {
  label : str;
  keywords : list str;          (* the alternatives of [(?:...)] *)
  takes_at : bool;              (* whether the pattern has [@?] *)
  handle_class : list item;     (* the class of the capture *)
  handle_max : nat              (* its upper length bound *)
}.

Definition PLATFORMS : list platform := [
  Platform (js "Instagram") [js "ig"; js "insta"; js "instagram"] true
    handle_chars 30;
  Platform (js "Twitter") [js "x"; js "twitter"; js "tweet"] true
    handle_chars 30;
  Platform (js "Discord") [js "discord"; js "dc"] false
    (handle_chars ++ [One (ch "#")]) 37;
  Platform (js "YouTube") [js "yt"; js "youtube"] true
    (handle_chars ++ [One (ch "-")]) 60;
  Platform (js "TikTok") [js "tt"; js "tiktok"] true handle_chars 30;
  Platform (js "Facebook") [js "fb"; js "facebook"] true handle_chars 50;
  Platform (js "Telegram") [js "tg"; js "telegram"] true handle_chars 50
].

Definition capture_re (p : platform) : regex :=
  (Group (between (Any (handle_class p)) 2 (handle_max p)) >> WordB)%re.

Definition platform_re (p : platform) : regex :=
  (WordB >> alts (keywords p) >> star ws >> opt colon_dash >> star ws >>
   (if takes_at p then opt at_sign >> capture_re p else capture_re p))%re.

Definition platform_pattern (p : platform) : social_pattern :=
  SocialPattern (label p) (platform_re p).

(** Equality of texts up to letter case, as the [i] flag sees it. *)
Definition ci_eq (a b : str) : bool :=
  str_eqb (map canonicalize a) (map canonicalize b).

(** [w] and [kw] differ at a position that both have. *)
Fixpoint clashes (w kw : str) : bool :=
  match w, kw with
  | c :: w', d :: kw' =>
      if N.eqb (canonicalize c) (canonicalize d) then clashes w' kw'
      else true
  | _, _ => false
  end.

(** The alternatives before [kw] in [ws] all clash with it, so that the
    alternation settles on [kw]. *)
Fixpoint selects (ws : list str) (kw : str) : bool :=
  match ws with
  | [] => false
  | w :: ws' => str_eqb w kw || (clashes w kw && selects ws' kw)
  end.

(** A separator between keyword and handle: white space, then
    optionally [:] or [-] with more white space, then optionally [@]. *)
Record separator : Type := Separator {
  spaces : str;
  punct : option (cu * str);
  with_at : bool
}.

Definition punct_text (sep : separator) : str :=
  match punct sep with
  | Some (c, more) => c :: more
  | None => []
  end.

Definition at_text (sep : separator) : str :=
  if with_at sep then [ch "@"] else [].

Definition separator_text (sep : separator) : str :=
  spaces sep ++ punct_text sep ++ at_text sep.

Definition separator_ok (p : platform) (sep : separator) : bool :=
  forallb is_space (spaces sep)
  && match punct sep with
     | Some (c, more) =>
         (N.eqb c (ch ":") || N.eqb c (ch "-")) && forallb is_space more
     | None => true
     end
  && implb (with_at sep) (takes_at p).

(** A handle the pattern of [p] captures whole: between 2 and the
    bound characters of the class, not starting with [-], ending in a
    word character. *)
Definition handle_ok (p : platform) (h : str) : bool :=
  Nat.leb 2 (length h) && Nat.leb (length h) (handle_max p)
  && forallb (class_has_i (handle_class p)) h
  && negb (N.eqb (hd 0%N h) (ch "-"))
  && is_word (last h 0%N).

(** What may follow the handle: nothing, or a character outside the
    class. *)
Definition ends_handle (p : platform) (rest : str) : bool :=
  match rest with
  | [] => true
  | c :: _ => negb (class_has_i (handle_class p) c)
  end.

(** The checks on a class that the mention theorem relies on, over the
    ASCII range. *)
Definition class_check (cls : list item) (c : cu) : bool :=
  implb (class_has_i cls c)
    (negb (is_space c) && negb (atom_match at_sign c)
     && (N.eqb c (ch "-") || negb (atom_match colon_dash c)))
  && implb (is_word c) (class_has_i cls c).

(** *** Words of a pattern

    The texts a pattern can consume, assertions aside; used to say what
    a match looks like. *)
Inductive lang : regex -> str -> Prop :=
| lang_empty : lang Empty []
| lang_atom a c : atom_match a c = true -> lang (Atom a) [c]
| lang_seq r1 r2 w1 w2 :
    lang r1 w1 -> lang r2 w2 -> lang (Seq r1 r2) (w1 ++ w2)
| lang_alt_l r1 r2 w : lang r1 w -> lang (Alt r1 r2) w
| lang_alt_r r1 r2 w : lang r2 w -> lang (Alt r1 r2) w
| lang_rep a min max w :
    forallb (atom_match a) w = true -> min <= length w ->
    match max with Some n => length w <= n | None => True end ->
    lang (Rep a min max) w
| lang_group r w : lang r w -> lang (Group r) w
| lang_wordb : lang WordB []
| lang_end : lang EndInput [].

(** Quantifier bounds are in order, as the pattern syntax demands. *)
Fixpoint bounds_ok (r : regex) : bool :=
  match r with
  | Rep _ min (Some n) => Nat.leb min n
  | Seq r1 r2 | Alt r1 r2 => bounds_ok r1 && bounds_ok r2
  | Group r1 => bounds_ok r1
  | _ => true
  end.

(** [h] stands somewhere in [text]. *)
Definition occurs_in (h text : str) : Prop :=
  exists pre post, text = pre ++ h ++ post.

(** A character that may stand in a URL match: neither white space
    nor [)]. *)
Definition url_char (c : cu) : bool :=
  negb (is_space c) && negb (N.eqb c (ch ")")).

(** The segment after position [j] of [s], taken as the place of a
    marker, and the test that a marker stands at [j] with a segment that
    passes [ok]. *)
Definition segment_at (s : str) (j : nat) : str :=
  until_slash (skipn (j + length MARKER) s).

Definition marked (ok : str -> bool) (s : str) (j : nat) : bool :=
  prefix_ci MARKER (skipn j s) && ok (segment_at s j).

(** *** Requests and responses *)

Section ServiceNotions.

Context {RT : JsRuntime}.

(** The same world with another behaviour of the webhook. *)
Definition with_webhook (E : env) (w : json -> outcome) : env :=
  Env (WEBHOOK_URL E) (ROBLOX_COOKIE E) (usernames_api E) (users_api E)
      (social_links_api E) w (now E).

(** The same world in which a session cookie is set and the
    social-links endpoint answers every request with an empty array. *)
Definition with_no_connections (E : env) : env :=
  Env (WEBHOOK_URL E) (js "cookie") (usernames_api E) (users_api E)
      (fun _ => Resolved (JArr [])) (webhook E) (now E).

(** The private-connections fetch for [userId] fails: there is no
    cookie, or the exchange is rejected (HTTP error status, time-out), or
    the body is not an array. *)
Definition fetch_fails (E : env) (userId : str) : Prop :=
  ROBLOX_COOKIE E = [] \/
  (exists e, social_links_api E userId = Rejected e) \/
  (exists data, social_links_api E userId = Resolved data /\
                isArray data = false).

(** The private-connections fetch fails for every user whose profile
    the request asks for: the fetch of the request itself fails,
    whatever the endpoint does for other users. *)
Definition own_fetch_fails (E : env) (calls : list event) : Prop :=
  forall userId, In (CallUsers userId) calls -> fetch_fails E userId.

(** An error object [{ error: msg }]. *)
Definition error_object (v : json) : Prop :=
  exists msg, v = error_body msg.

(** The success object: exactly the five properties [userId],
    [username], [bio], [parsed] and [connections], none of them
    [undefined], with [parsed] of the shape [{ found, urls }]. *)
Definition success_object (v : json) : Prop :=
  exists userId username text parsedBio connections,
    v = JObj [(js "userId", userId);
              (js "username", username);
              (js "bio", JStr text);
              (js "parsed", parsed_json parsedBio);
              (js "connections", JArr connections)] /\
    truthy userId = true /\ truthy username = true.

Definition success_response (r : http_response) : Prop :=
  status r = 200 /\ success_object (body r).

Definition error_response (r : http_response) : Prop :=
  (status r = 400 \/ status r = 500) /\ error_object (body r).

(** The request supplies none of the three parameters. *)
Definition none_supplied (params : json) : Prop :=
  get params "username" = JUndefined /\
  get params "userId" = JUndefined /\
  get params "rolimonsUrl" = JUndefined.

(** The three ways in which the handler answers.  The 400 answer is
    given before any outbound call; the 200 answer carries the value the
    connections step returned. *)
Definition answered (E : env) (hint : String.string) (r : http_response)
    (calls : list event) : Prop :=
  (status r = 400 /\ body r = error_body (js hint) /\ calls = []) \/
  (status r = 500 /\ error_object (body r)) \/
  (status r = 200 /\
   exists userId username text connections uid,
     body r = JObj [(js "userId", userId);
                    (js "username", username);
                    (js "bio", JStr text);
                    (js "parsed", parsed_json (extractConnectionsFromBio text));
                    (js "connections", connections)] /\
     truthy userId = true /\ truthy username = true /\
     fst (getConnections E uid) = Ok connections).

(** The profile of the request was fetched: the users endpoint was
    called and answered. *)
Definition profile_resolved (E : env) (calls : list event) : Prop :=
  exists userId info,
    In (CallUsers userId) calls /\ users_api E userId = Resolved info.

(** Outcome of a computation against a postcondition for each way of
    ending. *)
Definition wp {A} (m : M A) (Q : A -> list event -> Prop)
    (Qe : exn -> list event -> Prop) : Prop :=
  match m with
  | (Ok a, tr) => Q a tr
  | (Throw e, tr) => Qe e tr
  end.

End ServiceNotions.

(** *** The outbound calls of a request *)

Section CallNotions.

Context {RT : JsRuntime}.

(** Position of an endpoint in the order of the calls. *)
Definition call_rank (ev : event) : nat :=
  match ev with
  | CallUsernames _ => 0
  | CallUsers _ => 1
  | CallSocialLinks _ => 2
  | CallWebhook _ => 3
  end.

(** The calls of the connections step and of the notification step. *)
Definition connection_calls (E : env) (userId : str) : list event :=
  if str_eqb (ROBLOX_COOKIE E) [] then [] else [CallSocialLinks userId].

Definition webhook_calls (E : env) (payload : json) : list event :=
  if str_eqb (WEBHOOK_URL E) [] then [] else [CallWebhook payload].

(** The calls of the identity step: none, or one user-name lookup. *)
Definition identity_calls (calls : list event) : Prop :=
  calls = [] \/ exists username, calls = [CallUsernames username].

(** How far a request gets, with the answer and the calls made. *)
Inductive check_run (E : env) : http_response -> list event -> Prop :=
| run_refused r :
    status r = 400 -> check_run E r []
| run_no_identity r pre :
    status r = 500 -> identity_calls pre -> check_run E r pre
| run_no_profile r pre uid :
    status r = 500 -> identity_calls pre ->
    check_run E r (pre ++ [CallUsers uid])
| run_no_notification r pre uid :
    status r = 500 -> identity_calls pre -> WEBHOOK_URL E <> [] ->
    check_run E r (pre ++ [CallUsers uid] ++ connection_calls E uid)
| run_done r pre userId fallback uid info text connections payload :
    status r = 200 -> identity_calls pre ->
    body r = JObj [(js "userId", userId);
                   (js "username",
                    or_ (or_ (get info "name") fallback)
                        (JStr (js "Unknown")));
                   (js "bio", JStr text);
                   (js "parsed",
                    parsed_json (extractConnectionsFromBio text));
                   (js "connections", connections)] ->
    ToString userId = Ok uid ->
    users_api E uid = Resolved info ->
    or_ (get info "description") (JStr []) = JStr text ->
    fst (getConnections E uid) = Ok connections ->
    check_run E r
      (pre ++ [CallUsers uid] ++ connection_calls E uid
           ++ webhook_calls E payload).

(** The user a request asks for: [fallback] is the user name sent along
    or found in the [rolimonsUrl]; [userId] is the id sent along, or the
    one found in the [rolimonsUrl], or the one the user-name lookup of
    this request returned. *)
Definition requested (E : env) (params : json) (calls : list event)
    (userId fallback : json) : Prop :=
  (fallback = get params "username" \/
   exists s, ToString (get params "rolimonsUrl") = Ok s /\
             fallback = parsed_username (parseRolimonsTarget s)) /\
  (userId = get params "userId" \/
   (exists s, ToString (get params "rolimonsUrl") = Ok s /\
              userId = parsed_userId (parseRolimonsTarget s)) \/
   exists name, In (CallUsernames name) calls /\
                fst (usernameToId E name) = Ok userId).

(** The answer once the profile [info] of [userId] is there: the 200
    object, unless one of the later steps throws (parsing a bio that is
    not a text, building the notification), which gives the 500 error
    object with the message of what was thrown. *)
Definition after_profile (E : env) (userId fallback info : json) (uid : str)
    (r : http_response) : Prop :=
  let resolvedName :=
    or_ (or_ (get info "name") fallback) (JStr (js "Unknown")) in
  match or_ (get info "description") (JStr []) with
  | JStr text =>
      exists connections,
        fst (getConnections E uid) = Ok connections /\
        match fst (sendDiscordEmbed E resolvedName userId text
                     (extractConnectionsFromBio text) connections) with
        | Ok _ =>
            r = HttpResponse 200
                  (JObj [(js "userId", userId);
                         (js "username", resolvedName);
                         (js "bio", JStr text);
                         (js "parsed",
                          parsed_json (extractConnectionsFromBio text));
                         (js "connections", connections)])
        | Throw e => r = HttpResponse 500 (error_body (message e))
        end
  | _ =>
      r = HttpResponse 500 (error_body (js "text.match is not a function"))
  end.

(** The parameters of a request that names the user directly, with no
    [rolimonsUrl]. *)
Definition plain_request (username userId : json) : json :=
  JObj [(js "username", username); (js "userId", userId)].

(** The value of an embed field, when it is a string. *)
Definition field_value (field : json) : option str :=
  match get field "value" with JStr v => Some v | _ => None end.

(** What Discord accepts of the posted payload, as far as the program
    takes care of it: one embed whose fields after the first two are
    cut to 1024 code units. *)
Definition within_limits (E : env) (payload : json) : Prop :=
  exists fields,
    payload
    = JObj [(js "embeds",
             JArr [JObj [(js "title", JStr (js "Roblox Profile Scan"));
                         (js "color", JNum (number_of_N 44678%N));
                         (js "fields", JArr fields);
                         (js "timestamp", JStr (now E))]])] /\
    3 <= length fields <= 5 /\
    get (last fields JNull) "name" = JStr (js "Roblox Connections (API)") /\
    forall field, In field (skipn 2 fields) ->
      exists value, field_value field = Some value /\ length value <= 1024.

End CallNotions.

(** *** Concrete worlds, for the runs at the end *)

Section Worlds.

#[local] Existing Instance ascii_runtime.
#[local] Open Scope string_scope.

Definition obj (props : list (String.string * json)) : json :=
  JObj (map (fun kv => (js (fst kv), snd kv)) props).

(** A profile with a bio that mentions a handle and one URL in two
    letter cases. *)
Definition sample_profile : json :=
  obj [("id", JNum 1%N); ("name", JStr (js "builderman"));
       ("description",
        JStr (js "ig: builder_man http://Example.com/A http://example.com/a"))].

(** The session cookie is rejected (401) and the webhook is down. *)
Definition world_unauthorized : env :=
  Env (js "https://discord.test/api/webhooks/1")
      (js "expired")
      (fun _ => Resolved (obj [("data", JArr [obj [("id", JNum 1%N)]])]))
      (fun _ => Resolved sample_profile)
      (fun _ => Rejected (Exn (js "Request failed with status code 401")
                              (Some (401%N, JNull))))
      (fun _ => Rejected (Exn (js "connect ECONNREFUSED") None))
      (js "2024-01-01T00:00:00.000Z").

(** The social-links endpoint answers with an array that holds [null]. *)
Definition world_null_entry : env :=
  Env (js "https://discord.test/api/webhooks/1")
      (js "valid")
      (fun _ => Resolved (obj [("data", JArr [obj [("id", JNum 1%N)]])]))
      (fun _ => Resolved sample_profile)
      (fun _ => Resolved (JArr [JNull]))
      (fun _ => Resolved JNull)
      (js "2024-01-01T00:00:00.000Z").

(** The user-name lookup knows nobody. *)
Definition world_no_such_user : env :=
  Env []
      []
      (fun _ => Resolved (obj [("data", JArr [])]))
      (fun _ => Resolved sample_profile)
      (fun _ => Resolved (JArr []))
      (fun _ => Resolved JNull)
      (js "2024-01-01T00:00:00.000Z").

(** The profile endpoint answers 404. *)
Definition world_profile_down : env :=
  Env (js "https://discord.test/api/webhooks/1")
      (js "valid")
      (fun _ => Resolved (obj [("data", JArr [obj [("id", JNum 1%N)]])]))
      (fun _ => Rejected (Exn (js "Request failed with status code 404")
                              (Some (404%N, JNull))))
      (fun _ => Resolved (JArr []))
      (fun _ => Resolved JNull)
      (js "2024-01-01T00:00:00.000Z").

(** The social links of user 1 are private (403); those of every
    other user are served. *)
Definition world_private_user : env :=
  Env (js "https://discord.test/api/webhooks/1")
      (js "valid")
      (fun _ => Resolved (obj [("data", JArr [obj [("id", JNum 1%N)]])]))
      (fun _ => Resolved sample_profile)
      (fun userId =>
         if str_eqb userId (js "1")
         then Rejected (Exn (js "Request failed with status code 403")
                            (Some (403%N, JNull)))
         else Resolved (JArr [obj [("type", JStr (js "Twitter"));
                                   ("url", JStr (js "https://x.com/a"))]]))
      (fun _ => Resolved JNull)
      (js "2024-01-01T00:00:00.000Z").

End Worlds.

(* ================================================================== *)
(** * Part II: properties *)
(* ================================================================== *)

(** ** Strings and lists *)

Lemma str_eqb_eq (a b : str) : str_eqb a b = true <-> a = b.
Proof.
  revert b; induction a as [|x a IH]; intros [|y b]; simpl;
    try (split; [discriminate | discriminate]); try tauto.
  rewrite andb_true_iff, N.eqb_eq, IH.
  split; [intros [-> ->]; reflexivity | intros [= -> ->]; auto].
Qed.

Lemma str_eqb_refl (a : str) : str_eqb a a = true.
Proof. apply str_eqb_eq; reflexivity. Qed.

Lemma str_eqb_neq (a b : str) : str_eqb a b = false <-> a <> b.
Proof.
  rewrite <- str_eqb_eq. destruct (str_eqb a b); split; congruence.
Qed.

Lemma subseq_refl {A} (l : list A) : subseq l l.
Proof. induction l; constructor; assumption. Qed.

Lemma subseq_nil_l {A} (l : list A) : subseq [] l.
Proof. induction l; constructor; assumption. Qed.

Lemma subseq_length {A} (l1 l2 : list A) :
  subseq l1 l2 -> length l1 <= length l2.
Proof. induction 1; simpl; lia. Qed.

Lemma subseq_In {A} (l1 l2 : list A) x : subseq l1 l2 -> In x l1 -> In x l2.
Proof.
  induction 1; simpl; intros Hin; auto.
  destruct Hin; auto.
Qed.

Lemma subseq_NoDup {A} (l1 l2 : list A) :
  subseq l1 l2 -> NoDup l2 -> NoDup l1.
Proof.
  induction 1; intros Hnd; auto.
  - inversion Hnd; auto.
  - inversion Hnd; subst. constructor; auto.
    intros Hin. eapply subseq_In in Hin; eauto.
Qed.

Lemma subseq_app {A} (a1 a2 b1 b2 : list A) :
  subseq a1 a2 -> subseq b1 b2 -> subseq (a1 ++ b1) (a2 ++ b2).
Proof.
  induction 1; simpl; intros Hb; auto.
  - apply subseq_skip; auto.
  - apply subseq_keep; auto.
Qed.

(** ** The loop over [SOCIAL_PATTERNS] *)

Lemma fold_push_match text ps acc :
  fold_left (push_match text) ps acc
  = acc ++ flat_map (contribution text) ps.
Proof.
  revert acc; induction ps as [|p ps IH]; intros acc; simpl.
  - now rewrite app_nil_r.
  - rewrite IH. unfold push_match, contribution.
    destruct (match_ text (re p)); simpl; [now rewrite <- app_assoc|reflexivity].
Qed.

Lemma find_socials_flat_map text :
  find_socials text = flat_map (contribution text) SOCIAL_PATTERNS.
Proof. unfold find_socials. now rewrite fold_push_match. Qed.

Lemma contribution_labels text ps :
  subseq (map type (flat_map (contribution text) ps)) (map name ps).
Proof.
  induction ps as [|p ps IH]; simpl; [constructor|].
  rewrite map_app. unfold contribution at 1.
  destruct (match_ text (re p)); simpl; constructor; assumption.
Qed.

Lemma platform_order_names : map name SOCIAL_PATTERNS = PLATFORM_ORDER.
Proof. reflexivity. Qed.

Lemma platform_order_NoDup : NoDup PLATFORM_ORDER.
Proof.
  unfold PLATFORM_ORDER.
  repeat (constructor; [simpl; intuition discriminate|]).
  constructor.
Qed.

Lemma entries_of_app label l1 l2 :
  entries_of label (l1 ++ l2) = entries_of label l1 ++ entries_of label l2.
Proof. apply filter_app. Qed.

Lemma entries_of_other text label ps :
  ~ In label (map name ps) ->
  entries_of label (flat_map (contribution text) ps) = [].
Proof.
  induction ps as [|q ps IH]; simpl; intros Hnin; [reflexivity|].
  rewrite entries_of_app, IH by tauto.
  unfold contribution. destruct (match_ text (re q)); simpl; [|reflexivity].
  destruct (str_eqb (name q) label) eqn:Heq; [|reflexivity].
  apply str_eqb_eq in Heq. tauto.
Qed.

Lemma entries_of_own text p :
  entries_of (name p) (contribution text p) = contribution text p.
Proof.
  unfold contribution. destruct (match_ text (re p)); simpl; [|reflexivity].
  now rewrite str_eqb_refl.
Qed.

Lemma entries_of_contribution text p ps :
  NoDup (map name ps) -> In p ps ->
  entries_of (name p) (flat_map (contribution text) ps) = contribution text p.
Proof.
  induction ps as [|q ps IH]; simpl; intros Hnd Hin; [contradiction|].
  inversion Hnd as [|? ? Hq Hnd']; subst.
  rewrite entries_of_app. destruct Hin as [->|Hin].
  - rewrite entries_of_own, entries_of_other by assumption.
    apply app_nil_r.
  - rewrite IH by assumption.
    assert (Hne : name q <> name p).
    { intros Heq. apply Hq. rewrite Heq. now apply in_map. }
    unfold contribution at 1. destruct (match_ text (re q)); simpl; auto.
    apply str_eqb_neq in Hne. now rewrite Hne.
Qed.

(** ** Leftmost search *)

Lemma match_at_index r b a m : match_at r b a = Some m -> index m = length b.
Proof.
  unfold match_at. destruct (run r _ _); intros [= <-]; reflexivity.
Qed.

Lemma exec_from_some r a : forall b m,
  exec_from r b a = Some m ->
  exists j, j <= length a /\
    match_at r (rev (firstn j a) ++ b) (skipn j a) = Some m /\
    forall i, i < j -> match_at r (rev (firstn i a) ++ b) (skipn i a) = None.
Proof.
  induction a as [|c a IH]; intros b m; simpl.
  - destruct (match_at r b []) eqn:H0; [|discriminate].
    intros [= ->]. exists 0. repeat split; auto. intros i Hi; lia.
  - destruct (match_at r b (c :: a)) eqn:H0.
    + intros [= ->]. exists 0. repeat split; auto; [lia|]. intros i Hi; lia.
    + intros Hex. apply IH in Hex as (j & Hj & Hm & Hbefore).
      exists (S j). simpl. rewrite <- app_assoc. simpl.
      repeat split; auto; [lia|].
      intros [|i] Hi; simpl; [assumption|].
      rewrite <- app_assoc. simpl. apply Hbefore. lia.
Qed.

Lemma exec_from_none r a : forall b,
  exec_from r b a = None ->
  forall i, match_at r (rev (firstn i a) ++ b) (skipn i a) = None.
Proof.
  induction a as [|c a IH]; intros b; simpl.
  - destruct (match_at r b []) eqn:H0; [discriminate|].
    intros _ [|i]; assumption.
  - destruct (match_at r b (c :: a)) eqn:H0; [discriminate|].
    intros Hex [|i]; simpl; [assumption|].
    rewrite <- app_assoc. simpl. now apply IH.
Qed.

Lemma match_leftmost text r m : match_ text r = Some m -> leftmost r text m.
Proof.
  unfold match_, leftmost, match_pos. intros Hex.
  apply exec_from_some in Hex as (j & Hj & Hm & Hbefore).
  rewrite app_nil_r in Hm.
  assert (Hidx : index m = j).
  { rewrite (match_at_index _ _ _ Hm), length_rev, length_firstn. lia. }
  rewrite Hidx. split; [assumption|].
  intros i Hi. specialize (Hbefore i Hi). now rewrite app_nil_r in Hbefore.
Qed.

Lemma match_none text r j : match_ text r = None -> match_pos r text j = None.
Proof.
  unfold match_, match_pos. intros Hex.
  pose proof (exec_from_none _ _ _ Hex j) as H. now rewrite app_nil_r in H.
Qed.

(** ** [extractConnectionsFromBio]: the match list *)

Section Found.

Context {RT : JsRuntime}.

Lemma found_flat_map text :
  found (extractConnectionsFromBio text)
  = flat_map (contribution text) SOCIAL_PATTERNS.
Proof. apply find_socials_flat_map. Qed.

(** C3: for the empty text the result has no matches and no URLs. *)
Theorem extract_empty :
  extractConnectionsFromBio [] = ParsedBio [] [].
Proof. reflexivity. Qed.

(** C9: the labels of the match list are a subsequence of the fixed
    platform order Instagram, Twitter, Discord, YouTube, TikTok,
    Facebook, Telegram, wherever the mentions stand in the text; hence
    the list has at most seven entries and no label twice. *)
Theorem found_in_platform_order (text : str) :
  let labels := map type (found (extractConnectionsFromBio text)) in
  subseq labels PLATFORM_ORDER /\
  length (found (extractConnectionsFromBio text)) <= 7 /\
  NoDup labels.
Proof.
  intros labels.
  assert (Hsub : subseq labels PLATFORM_ORDER).
  { subst labels. rewrite found_flat_map, <- platform_order_names.
    apply contribution_labels. }
  split; [assumption|]. split.
  - apply subseq_length in Hsub. subst labels.
    rewrite length_map in Hsub. exact Hsub.
  - eapply subseq_NoDup; [exact Hsub|apply platform_order_NoDup].
Qed.

(** C4: for every text and platform, the match list has at most one
    entry with the platform's label; that entry carries the handle of
    the leftmost match of the platform's pattern, and a text in which
    the pattern matches somewhere always yields an entry. *)
Theorem first_match_per_platform (text : str) (p : social_pattern) :
  In p SOCIAL_PATTERNS ->
  let found := found (extractConnectionsFromBio text) in
  length (entries_of (name p) found) <= 1 /\
  (forall e, In e (entries_of (name p) found) ->
     exists m, leftmost (re p) text m /\ e = FoundEntry (name p) (group1 m)) /\
  ((exists j, match_pos (re p) text j <> None) ->
     exists h, entries_of (name p) found = [FoundEntry (name p) h]).
Proof.
  intros Hin found0. subst found0.
  rewrite found_flat_map, entries_of_contribution; auto.
  2:{ rewrite platform_order_names. apply platform_order_NoDup. }
  unfold contribution. destruct (match_ text (re p)) as [m|] eqn:Hm.
  - split; [simpl; lia|]. split.
    + intros e [<-|[]]. exists m. split; [now apply match_leftmost|reflexivity].
    + intros _. eauto.
  - split; [simpl; lia|]. split.
    + intros e [].
    + intros [j Hj]. exfalso. apply Hj. now apply match_none.
Qed.

End Found.

(** ** [extractConnectionsFromBio]: the URL list *)

Lemma Set_has_In seen k : Set_has seen k = true <-> In k seen.
Proof.
  unfold Set_has. rewrite existsb_exists. split.
  - intros (x & Hin & Heq). apply str_eqb_eq in Heq. now subst.
  - intros Hin. exists k. split; [assumption|apply str_eqb_refl].
Qed.

Lemma Set_add_In seen k x : In x (Set_add seen k) <-> In x seen \/ x = k.
Proof.
  unfold Set_add. destruct (Set_has seen k) eqn:Hhas.
  - apply Set_has_In in Hhas. split; [tauto|]. intros [H| ->]; assumption.
  - rewrite in_app_iff. simpl. intuition congruence.
Qed.

Lemma seen_earlier (key : str -> str) earlier u :
  existsb (fun v => str_eqb (key v) (key u)) earlier = true
  <-> In (key u) (map key earlier).
Proof.
  rewrite existsb_exists, in_map_iff. split.
  - intros (v & Hin & Heq). apply str_eqb_eq in Heq. eauto.
  - intros (v & Heq & Hin). exists v. split; [assumption|].
    rewrite Heq. apply str_eqb_refl.
Qed.

Section Urls.

Context {RT : JsRuntime}.

(** The [seen] set holds exactly the keys of the occurrences met so
    far, so the filter keeps the first occurrences. *)
Lemma dedup_filter_first_occurrences l : forall seen earlier,
  (forall k, In k seen <-> In k (map toLowerCase earlier)) ->
  dedup_filter seen l = first_occurrences toLowerCase earlier l.
Proof.
  induction l as [|u l IH]; intros seen earlier Hinv; simpl; [reflexivity|].
  assert (Hsame : Set_has seen (toLowerCase u)
                  = existsb (fun v => str_eqb (toLowerCase v) (toLowerCase u))
                      earlier).
  { apply eq_true_iff_eq. now rewrite Set_has_In, seen_earlier. }
  rewrite <- Hsame. destruct (Set_has seen (toLowerCase u)) eqn:Hhas.
  - apply IH. intros k. rewrite map_app, in_app_iff, Hinv. simpl.
    apply Set_has_In, Hinv in Hhas. intuition congruence.
  - f_equal. apply IH. intros k.
    rewrite Set_add_In, map_app, in_app_iff, Hinv. simpl. intuition.
Qed.

Lemma first_occurrences_subseq (key : str -> str) l : forall earlier,
  subseq (first_occurrences key earlier l) l.
Proof.
  induction l as [|u l IH]; intros earlier; simpl; [constructor|].
  destruct (existsb _ earlier); constructor; apply IH.
Qed.

Lemma first_occurrences_keys (key : str -> str) l : forall earlier v,
  In v (first_occurrences key earlier l) ->
  In v l /\ ~ In (key v) (map key earlier).
Proof.
  induction l as [|u l IH]; intros earlier v; simpl; [tauto|].
  destruct (existsb _ earlier) eqn:Hex.
  - intros Hin. apply IH in Hin as [Hl Hk]. split; [tauto|].
    rewrite map_app, in_app_iff in Hk. tauto.
  - intros [<-|Hin].
    + split; [tauto|]. rewrite <- seen_earlier, Hex. discriminate.
    + apply IH in Hin as [Hl Hk]. split; [tauto|].
      rewrite map_app, in_app_iff in Hk. tauto.
Qed.

Lemma first_occurrences_NoDup (key : str -> str) l : forall earlier,
  NoDup (map key (first_occurrences key earlier l)).
Proof.
  induction l as [|u l IH]; intros earlier; simpl; [constructor|].
  destruct (existsb _ earlier); [apply IH|].
  simpl. constructor; [|apply IH].
  rewrite in_map_iff. intros (v & Heq & Hin).
  apply first_occurrences_keys in Hin as [_ Hk]. apply Hk.
  rewrite map_app, in_app_iff. right. simpl. auto.
Qed.

Lemma first_occurrences_complete (key : str -> str) l : forall earlier u,
  In u l ->
  In (key u) (map key earlier) \/
  exists v, In v (first_occurrences key earlier l) /\ key v = key u.
Proof.
  induction l as [|w l IH]; intros earlier u; simpl; [tauto|].
  intros [->|Hin].
  - destruct (existsb _ earlier) eqn:Hex.
    + left. now apply seen_earlier.
    + right. exists u. simpl. auto.
  - destruct (IH (earlier ++ [w]) u Hin) as [Hk|(v & Hv & Hkv)].
    + rewrite map_app, in_app_iff in Hk. destruct Hk as [Hk|[Hk|[]]];
        [now left|].
      destruct (existsb _ earlier) eqn:Hex.
      * left. rewrite <- Hk. now apply seen_earlier.
      * right. exists w. simpl. auto.
    + right. exists v. destruct (existsb _ earlier); simpl; auto.
Qed.

Lemma first_occurrences_first (key : str -> str) l : forall earlier v,
  In v (first_occurrences key earlier l) ->
  exists pre post, l = pre ++ v :: post /\
    forall w, In w (earlier ++ pre) -> key w <> key v.
Proof.
  induction l as [|u l IH]; intros earlier v; simpl; [tauto|].
  assert (Hlater : In v (first_occurrences key (earlier ++ [u]) l) ->
    exists pre post, u :: l = pre ++ v :: post /\
      forall w, In w (earlier ++ pre) -> key w <> key v).
  { intros Hin. apply IH in Hin as (pre & post & -> & Hpre).
    exists (u :: pre), post. split; [reflexivity|].
    intros w Hw. apply Hpre. rewrite <- app_assoc. exact Hw. }
  destruct (existsb _ earlier) eqn:Hex; [exact Hlater|].
  intros [<-|Hin]; [|auto].
  exists [], l. split; [reflexivity|].
  intros w Hw Heq. rewrite app_nil_r in Hw.
  assert (Htrue : existsb (fun v => str_eqb (key v) (key u)) earlier = true).
  { apply seen_earlier. rewrite <- Heq. now apply in_map. }
  congruence.
Qed.

(** C1: the URL list of the result is the list of extracted URLs with,
    for each group of occurrences that are equal up to letter case
    (equal after [toLowerCase]), only the first occurrence kept, as it
    was written; the order of the kept occurrences is that of the text.
    In particular two occurrences that differ only in letter case yield
    the first one alone. *)
Theorem urls_deduplicated (text : str) :
  let all := find_urls text in
  let out := urls (extractConnectionsFromBio text) in
  out = first_occurrences toLowerCase [] all /\
  subseq out all /\
  NoDup (map toLowerCase out) /\
  (forall v, In v out ->
     exists pre post, all = pre ++ v :: post /\
       forall w, In w pre -> toLowerCase w <> toLowerCase v) /\
  (forall u, In u all ->
     exists v, In v out /\ toLowerCase v = toLowerCase u) /\
  (forall u v, all = [u; v] -> toLowerCase u = toLowerCase v -> out = [u]).
Proof.
  intros all out.
  assert (Hout : out = first_occurrences toLowerCase [] all).
  { subst out all. simpl. apply dedup_filter_first_occurrences.
    intros k. simpl. tauto. }
  split; [assumption|]. rewrite Hout. repeat split.
  - apply first_occurrences_subseq.
  - apply first_occurrences_NoDup.
  - intros v Hv. apply first_occurrences_first in Hv. exact Hv.
  - intros u Hu.
    destruct (first_occurrences_complete toLowerCase all [] u Hu)
      as [[]|H]; assumption.
  - intros u v -> Heq. simpl. rewrite Heq, str_eqb_refl. reflexivity.
Qed.

End Urls.


(** ** The matcher *)

Section MatcherFacts.

Variable R : Type.

Lemma rep_unfold (p : cu -> bool) min max b a (k : str -> str -> option R) :
  rep p min max b a k =
  let stop := if Nat.eqb min 0 then k b a else None in
  match max with
  | Some 0 => k b a
  | _ =>
      match a with
      | c :: a' =>
          if p c
          then orelse (rep p (Nat.pred min) (option_map Nat.pred max)
                         (c :: b) a' k)
                      stop
          else stop
      | [] => stop
      end
  end.
Proof. destruct a; reflexivity. Qed.

(** Greedy repetition takes the longest run the bounds allow, when the
    rest of the pattern succeeds from there. *)
Lemma rep_greedy (p : cu -> bool) taken : forall min max b rest
    (k : str -> str -> option R) r,
  forallb p taken = true ->
  min <= length taken ->
  match max with Some n => length taken <= n | None => True end ->
  match rest with
  | c :: _ => p c = false \/ max = Some (length taken)
  | [] => True
  end ->
  k (rev taken ++ b) rest = Some r ->
  rep p min max b (taken ++ rest) k = Some r.
Proof.
  induction taken as [|c t IH]; intros min max b rest k r Hall Hmin Hmax Hrest Hk.
  - simpl in *. assert (min = 0) as -> by lia.
    rewrite rep_unfold. simpl.
    destruct max as [[|n]|]; auto.
    + destruct rest as [|d rest']; auto.
      destruct Hrest as [->|[=]]. assumption.
    + destruct rest as [|d rest']; auto.
      destruct Hrest as [->|[=]]. assumption.
  - simpl in Hall. apply andb_true_iff in Hall as [Hc Ht].
    simpl in Hk. rewrite <- app_assoc in Hk. simpl in Hk.
    assert (Hstep : rep p (Nat.pred min) (option_map Nat.pred max) (c :: b)
                      (t ++ rest) k = Some r).
    { apply IH; auto.
      - simpl in Hmin. lia.
      - destruct max as [n|]; simpl in *; [lia|exact I].
      - destruct rest as [|d rest']; auto.
        destruct Hrest as [Hd|Hd]; [now left|right].
        destruct max as [n|]; [|discriminate]. simpl in *.
        injection Hd as ->. reflexivity. }
    simpl. destruct max as [[|n]|]; simpl in *.
    + lia.
    + rewrite Hc, Hstep. reflexivity.
    + rewrite Hc, Hstep. reflexivity.
Qed.

(** Whatever a well-formed repetition returns comes from the
    continuation, called after a run of matching characters within the
    bounds. *)
Lemma rep_sound (p : cu -> bool) a : forall min max b
    (k : str -> str -> option R) r,
  match max with Some n => min <= n | None => True end ->
  rep p min max b a k = Some r ->
  exists taken rest,
    a = taken ++ rest /\ forallb p taken = true /\
    min <= length taken /\
    match max with Some n => length taken <= n | None => True end /\
    k (rev taken ++ b) rest = Some r.
Proof.
  assert (Hstop : forall min max b a' (k : str -> str -> option R) r,
    (if Nat.eqb min 0 then k b a' else None) = Some r ->
    exists taken rest,
      a' = taken ++ rest /\ forallb p taken = true /\
      min <= length taken /\
      match max with Some n => length taken <= n | None => True end /\
      k (rev taken ++ b) rest = Some r).
  { intros min max b a' k r H. destruct (Nat.eqb_spec min 0); [|discriminate].
    exists [], a'. subst. simpl. repeat split; auto.
    destruct max; [lia|exact I]. }
  assert (Hzero : forall min b a' (k : str -> str -> option R) r,
    min <= 0 -> k b a' = Some r ->
    exists taken rest,
      a' = taken ++ rest /\ forallb p taken = true /\
      min <= length taken /\ length taken <= 0 /\
      k (rev taken ++ b) rest = Some r).
  { intros min b a' k r Hm H. exists [], a'. simpl. repeat split; auto. }
  assert (Hcons : forall c t rest min max b (k : str -> str -> option R) r,
    p c = true ->
    (forallb p t = true /\ Nat.pred min <= length t /\
     match option_map Nat.pred max with
     | Some n => length t <= n | None => True end /\
     k (rev t ++ c :: b) rest = Some r) ->
    match max with Some n => 0 < n | None => True end ->
    exists taken rest0,
      c :: t ++ rest = taken ++ rest0 /\ forallb p taken = true /\
      min <= length taken /\
      match max with Some n => length taken <= n | None => True end /\
      k (rev taken ++ b) rest0 = Some r).
  { intros c t rest min max b k r Hc (Ht & Hmin & Hmax & Hk) Hpos.
    exists (c :: t), rest. simpl. rewrite Hc, Ht, <- app_assoc. simpl.
    repeat split; auto; [lia|].
    destruct max as [n|]; simpl in *; [lia|exact I]. }
  induction a as [|c a IH]; intros min max b k r Hwf H; rewrite rep_unfold in H.
  - destruct max as [[|n]|]; simpl in H.
    + now apply Hzero.
    + exact (Hstop min (Some (S n)) b [] k r H).
    + exact (Hstop min None b [] k r H).
  - destruct max as [[|n]|]; [now apply Hzero| |]; simpl in H.
    + destruct (p c) eqn:Hc; [|exact (Hstop min (Some (S n)) b (c :: a) k r H)].
      unfold orelse in H.
      destruct (rep p (Nat.pred min) (Some n) (c :: b) a k) eqn:Hrec;
        [|exact (Hstop min (Some (S n)) b (c :: a) k r H)].
      injection H as ->. apply IH in Hrec; [|lia].
      destruct Hrec as (t & rest & -> & Hrec).
      apply (Hcons c t rest min (Some (S n)) b k r); auto. lia.
    + destruct (p c) eqn:Hc; [|exact (Hstop min None b (c :: a) k r H)].
      unfold orelse in H.
      destruct (rep p (Nat.pred min) None (c :: b) a k) eqn:Hrec;
        [|exact (Hstop min None b (c :: a) k r H)].
      injection H as ->. apply IH in Hrec; [|exact I].
      destruct Hrec as (t & rest & -> & Hrec).
      apply (Hcons c t rest min None b k r); auto.
Qed.

End MatcherFacts.

(** ** Literals *)

Lemma mstate_eta (s : mstate) : MState (before s) (after s) (cap1 s) = s.
Proof. destruct s; reflexivity. Qed.

Lemma run_lit R (w : str) : forall (s : mstate) (k : mstate -> option R),
  run (lit w) s k
  = if prefix_ci w (after s) then k (advance (length w) s) else None.
Proof.
  induction w as [|c w IH]; intros s k.
  - simpl. unfold advance. simpl. now rewrite mstate_eta.
  - assert (Hatom : forall k' : mstate -> option R,
      run (Atom (Chr c)) s k'
      = match after s with
        | d :: a' =>
            if N.eqb (canonicalize d) (canonicalize c)
            then k' (MState (d :: before s) a' (cap1 s)) else None
        | [] => None
        end) by reflexivity.
    destruct w as [|c2 w].
    + change (lit [c]) with (Atom (Chr c)). rewrite Hatom.
      destruct s as [b [|d a] cp]; simpl; [reflexivity|].
      rewrite andb_true_r. reflexivity.
    + change (lit (c :: c2 :: w)) with (Seq (Atom (Chr c)) (lit (c2 :: w))).
      change (run (Seq (Atom (Chr c)) (lit (c2 :: w))) s k)
        with (run (Atom (Chr c)) s (fun s' => run (lit (c2 :: w)) s' k)).
      rewrite Hatom.
      destruct s as [b [|d a] cp]; [reflexivity|].
      cbn [after before cap1].
      change (prefix_ci (c :: c2 :: w) (d :: a))
        with (N.eqb (canonicalize d) (canonicalize c) && prefix_ci (c2 :: w) a).
      destruct (N.eqb (canonicalize d) (canonicalize c)); [|reflexivity].
      rewrite IH. cbn [after andb]. unfold advance. cbn [after before cap1].
      destruct (prefix_ci (c2 :: w) a); [|reflexivity].
      f_equal. f_equal. simpl. rewrite <- app_assoc. reflexivity.
Qed.

Lemma run_seq R (r1 r2 : regex) (s : mstate) (k : mstate -> option R) :
  run (Seq r1 r2) s k = run r1 s (fun s' => run r2 s' k).
Proof. reflexivity. Qed.

Lemma run_group R (r : regex) (s : mstate) (k : mstate -> option R) :
  run (Group r) s k
  = run r s (fun s' =>
      k (MState (before s') (after s') (Some (consumed_since s s')))).
Proof. reflexivity. Qed.

Lemma run_rep R (a : atom) min max (s : mstate) (k : mstate -> option R) :
  run (Rep a min max) s k
  = rep (atom_match a) min max (before s) (after s)
      (fun b' a' => k (MState b' a' (cap1 s))).
Proof. reflexivity. Qed.

Lemma last_consumed_app (t b : str) :
  last_consumed (length (rev t ++ b) - length b) (rev t ++ b) = t.
Proof.
  unfold last_consumed. rewrite length_app, length_rev.
  replace (length t + length b - length b) with (length (rev t) + 0)
    by (rewrite length_rev; lia).
  rewrite firstn_app_2. simpl. rewrite app_nil_r. apply rev_involutive.
Qed.

Lemma until_slash_app (seg post : str) :
  forallb (fun c => negb (N.eqb c (ch "/"))) seg = true ->
  post = [] \/ (exists post', post = ch "/" :: post') ->
  until_slash (seg ++ post) = seg.
Proof.
  intros Hseg Hpost. induction seg as [|c seg IH]; cbn [forallb until_slash app] in *.
  - destruct Hpost as [->|[post' ->]]; reflexivity.
  - apply andb_true_iff in Hseg as [Hc Hseg].
    destruct (N.eqb c (ch "/")); [discriminate|]. now rewrite IH.
Qed.

Lemma until_slash_split (t : str) :
  exists post, t = until_slash t ++ post /\
    (post = [] \/ exists post', post = ch "/" :: post').
Proof.
  induction t as [|c t (post & Ht & Hpost)]; cbn [until_slash].
  - exists []. auto.
  - destruct (N.eqb_spec c (ch "/")) as [->|Hne].
    + exists (ch "/" :: t). split; [reflexivity|right; eauto].
    + exists post. split; [cbn [app]; congruence|assumption].
Qed.

(** ** The Rolimons patterns *)

Lemma PLAYER_ID_RE_shape : PLAYER_ID_RE = player_re [Digit].
Proof. reflexivity. Qed.

Lemma PLAYER_NAME_RE_shape :
  PLAYER_NAME_RE
  = player_re [Range (ch "A") (ch "Z"); Range (ch "a") (ch "z");
               Range (ch "0") (ch "9"); One (ch "_")].
Proof. reflexivity. Qed.

Section Player.

Variable cls : list item.
Hypothesis cls_no_slash : class_has_i cls (ch "/") = false.

Let tail : regex := Alt (Atom (Chr (ch "/"))) EndInput.

Lemma class_run_no_slash (seg : str) :
  forallb (class_has_i cls) seg = true ->
  forallb (fun c => negb (N.eqb c (ch "/"))) seg = true.
Proof.
  induction seg as [|c seg IH]; cbn [forallb]; [reflexivity|].
  intros H. apply andb_true_iff in H as [Hc Hseg]. rewrite IH by assumption.
  destruct (N.eqb_spec c (ch "/")) as [->|]; [congruence|reflexivity].
Qed.

Lemma run_tail R (s : mstate) (k : mstate -> option R) r :
  run tail s k = Some r ->
  after s = [] \/ exists post', after s = ch "/" :: post'.
Proof.
  unfold tail. simpl. destruct (after s) as [|d a']; [auto|].
  destruct (N.eqb (canonicalize d) (canonicalize (ch "/"))) eqn:Heq;
    [|discriminate].
  intros _. right. exists a'. f_equal.
  apply N.eqb_eq in Heq. unfold canonicalize, ascii_upper in Heq.
  change (is_lower (ch "/")) with false in Heq. cbv iota in Heq.
  destruct (is_lower d) eqn:Hl; [|assumption].
  unfold is_lower, in_range in Hl. apply andb_true_iff in Hl as [H1 H2].
  apply N.leb_le in H1, H2. unfold ch in *. simpl in *. lia.
Qed.

Lemma run_tail_ok b a :
  a = [] \/ (exists post', a = ch "/" :: post') ->
  forall cp, exists s', run tail (MState b a cp) (fun s => Some s) = Some s' /\ cap1 s' = cp.
Proof.
  intros [->|[post' ->]] cp; simpl; eauto.
Qed.

(** A complete description of one attempt of a player pattern: it
    succeeds exactly when the marker stands at the position and the
    segment after it is a non-empty run of class characters; the capture
    is that segment. *)
Lemma player_match_at (b a : str) :
  option_map group1 (match_at (player_re cls) b a)
  = let seg := until_slash (skipn (length MARKER) a) in
    if prefix_ci MARKER a && negb (str_eqb seg [])
       && forallb (class_has_i cls) seg
    then Some (Some seg) else None.
Proof.
  cbv zeta. unfold match_at, player_re. fold tail.
  rewrite run_seq, run_lit. cbn [after].
  destruct (prefix_ci MARKER a) eqn:Hmark; [|reflexivity].
  cbn [andb]. unfold advance. cbn [after before cap1].
  set (b1 := rev (firstn (length MARKER) a) ++ b).
  set (a1 := skipn (length MARKER) a).
  destruct (until_slash_split a1) as (post & Ha1 & Hpost).
  set (seg := until_slash a1) in *.
  rewrite run_seq, run_group. unfold plus. rewrite run_rep.
  cbn [before after cap1 consumed_since atom_match].
  destruct (negb (str_eqb seg []) && forallb (class_has_i cls) seg) eqn:Hok.
  - apply andb_true_iff in Hok as [Hne Hall].
    destruct (@run_tail_ok (rev seg ++ b1) post Hpost (Some seg))
      as (s' & Hs' & Hcap).
    rewrite Ha1.
    erewrite rep_greedy with (r := s'); eauto.
    + simpl. now rewrite Hcap.
    + destruct seg; [discriminate|simpl; lia].
    + destruct Hpost as [->|[post' ->]]; auto.
    + cbn beta. unfold consumed_since. cbn [before].
      now rewrite last_consumed_app.
  - destruct (rep _ _ _ _ _ _) as [s'|] eqn:Hrep; [exfalso|reflexivity].
    apply rep_sound in Hrep; [|exact I].
    destruct Hrep as (taken & rest & Hsplit & Hall & Hlen & _ & Hk).
    apply run_tail in Hk. cbn [after] in Hk.
    change (atom_match (Any cls)) with (class_has_i cls) in Hall.
    assert (Hseg : seg = taken).
    { subst seg. rewrite Hsplit.
      apply until_slash_app; auto using class_run_no_slash. }
    rewrite Hseg, Hall in Hok.
    destruct taken; [simpl in Hlen; lia|discriminate].
Qed.

End Player.

(** ** Character classes

    Facts about all code units are proved by running through the 128
    ASCII values and by a direct argument above them. *)

Lemma ascii_table (P : cu -> bool) :
  forallb P (map N.of_nat (seq 0 128)) = true ->
  forall c, (c < 128)%N -> P c = true.
Proof.
  intros Hall c Hc. rewrite forallb_forall in Hall. apply Hall.
  rewrite <- (N2Nat.id c). apply in_map. apply in_seq. lia.
Qed.

Lemma for_all_code_units (P : cu -> bool) :
  forallb P (map N.of_nat (seq 0 128)) = true ->
  (forall c, (128 <= c)%N -> P c = true) ->
  forall c, P c = true.
Proof.
  intros Hlow Hhigh c. destruct (N.lt_ge_cases c 128).
  - now apply ascii_table.
  - now apply Hhigh.
Qed.

Lemma in_range_above lo hi c :
  (hi < 128)%N -> (128 <= c)%N -> in_range lo hi c = false.
Proof.
  intros Hhi Hc. unfold in_range. apply andb_false_iff. right.
  apply N.leb_gt. lia.
Qed.

Lemma no_case_above c :
  (128 <= c)%N -> ascii_upper c = c /\ ascii_lower c = c.
Proof.
  intros Hc. unfold ascii_upper, ascii_lower, is_lower, is_upper.
  rewrite !in_range_above by (assumption || reflexivity). auto.
Qed.

Lemma is_word_above c : (128 <= c)%N -> is_word c = false.
Proof.
  intros Hc. unfold is_word, is_lower, is_upper, is_digit.
  rewrite !in_range_above by (assumption || reflexivity).
  simpl. apply N.eqb_neq. lia.
Qed.

Lemma is_digit_above c : (128 <= c)%N -> is_digit c = false.
Proof.
  intros Hc. unfold is_digit. apply in_range_above; [reflexivity|assumption].
Qed.

Lemma class_above items c :
  forallb ascii_item items = true -> (128 <= c)%N ->
  class_has_i items c = false.
Proof.
  intros Hitems Hc. unfold class_has_i.
  destruct (no_case_above Hc) as [-> ->]. rewrite !orb_diag.
  induction items as [|i items IH]; simpl in *; [reflexivity|].
  apply andb_true_iff in Hitems as [Hi Hitems]. rewrite IH by assumption.
  rewrite orb_false_r. destruct i; simpl in *; try discriminate.
  - apply N.ltb_lt in Hi. apply N.eqb_neq. lia.
  - apply N.ltb_lt in Hi. now apply in_range_above.
  - now apply is_digit_above.
Qed.

Lemma digit_class (c : cu) : class_has_i [Digit] c = is_digit c.
Proof.
  apply eqb_prop.
  apply (for_all_code_units
           (fun c => Bool.eqb (class_has_i [Digit] c) (is_digit c)));
    [vm_compute; reflexivity|].
  intros c' Hc'. rewrite class_above, is_digit_above by auto. reflexivity.
Qed.

Lemma word_class (c : cu) :
  class_has_i [Range (ch "A") (ch "Z"); Range (ch "a") (ch "z");
               Range (ch "0") (ch "9"); One (ch "_")] c
  = is_word c.
Proof.
  apply eqb_prop.
  apply (for_all_code_units
           (fun c => Bool.eqb (class_has_i _ c) (is_word c)));
    [vm_compute; reflexivity|].
  intros c' Hc'. rewrite class_above, is_word_above by auto. reflexivity.
Qed.

Lemma digit_no_slash : class_has_i [Digit] (ch "/") = false.
Proof. reflexivity. Qed.

Lemma word_no_slash :
  class_has_i [Range (ch "A") (ch "Z"); Range (ch "a") (ch "z");
               Range (ch "0") (ch "9"); One (ch "_")] (ch "/") = false.
Proof. reflexivity. Qed.

(** ** Searching from the left *)

Lemma exec_from_first r a : forall b i m,
  i <= length a ->
  (forall j, j < i ->
     match_at r (rev (firstn j a) ++ b) (skipn j a) = None) ->
  match_at r (rev (firstn i a) ++ b) (skipn i a) = Some m ->
  exec_from r b a = Some m.
Proof.
  induction a as [|c a IH]; intros b i m Hi Hbefore Hm.
  - simpl in Hi. assert (i = 0) as -> by lia. simpl in *. now rewrite Hm.
  - destruct i as [|i].
    + simpl in *. now rewrite Hm.
    + simpl. pose proof (Hbefore 0 ltac:(lia)) as H0. simpl in H0.
      rewrite H0. apply (IH (c :: b) i m).
      * simpl in Hi. lia.
      * intros j Hj. specialize (Hbefore (S j) ltac:(lia)).
        simpl in Hbefore. now rewrite <- app_assoc in Hbefore.
      * simpl in Hm. now rewrite <- app_assoc in Hm.
Qed.

Lemma exec_from_all_none r a : forall b,
  (forall j, match_at r (rev (firstn j a) ++ b) (skipn j a) = None) ->
  exec_from r b a = None.
Proof.
  induction a as [|c a IH]; intros b Hnone.
  - pose proof (Hnone 0) as H0. simpl in *. now rewrite H0.
  - simpl. pose proof (Hnone 0) as H0. simpl in H0. rewrite H0.
    apply IH. intros j. specialize (Hnone (S j)). simpl in Hnone.
    now rewrite <- app_assoc in Hnone.
Qed.

Lemma match_first r text i m :
  i <= length text ->
  (forall j, j < i -> match_pos r text j = None) ->
  match_pos r text i = Some m ->
  match_ text r = Some m.
Proof.
  unfold match_pos, match_. intros Hi Hbefore Hm.
  apply exec_from_first with (i := i); auto.
  - intros j Hj. rewrite app_nil_r. auto.
  - now rewrite app_nil_r.
Qed.

Lemma match_all_none r text :
  (forall j, match_pos r text j = None) -> match_ text r = None.
Proof.
  unfold match_pos, match_. intros Hnone. apply exec_from_all_none.
  intros j. rewrite app_nil_r. apply Hnone.
Qed.

(** ** Occurrences of a literal *)

Lemma prefix_ci_length w t : prefix_ci w t = true -> length w <= length t.
Proof.
  revert t; induction w as [|c w IH]; intros [|d t]; simpl;
    try discriminate; try lia.
  intros H. apply andb_true_iff in H as [_ H]. apply IH in H. lia.
Qed.

Lemma find_ci_some w t : forall i,
  find_ci w t = Some i ->
  prefix_ci w (skipn i t) = true /\ i <= length t /\
  forall j, j < i -> prefix_ci w (skipn j t) = false.
Proof.
  induction t as [|c t IH]; intros i.
  - simpl. destruct (prefix_ci w []) eqn:Hp; [|discriminate].
    intros [= <-]. simpl. repeat split; auto. intros j Hj; lia.
  - cbn [find_ci]. destruct (prefix_ci w (c :: t)) eqn:Hp.
    + intros [= <-]. simpl. repeat split; auto; [lia|]. intros j Hj; lia.
    + destruct (find_ci w t) as [i'|] eqn:Hf; [|discriminate].
      intros [= <-]. destruct (IH i' eq_refl) as (H1 & H2 & H3).
      simpl. repeat split; auto; [lia|].
      intros [|j] Hj; simpl; [assumption|]. apply H3. lia.
Qed.

Lemma find_ci_none w t :
  find_ci w t = None -> forall j, prefix_ci w (skipn j t) = false.
Proof.
  induction t as [|c t IH].
  - simpl. destruct (prefix_ci w []) eqn:Hp; [discriminate|].
    intros _ [|j]; assumption.
  - cbn [find_ci]. destruct (prefix_ci w (c :: t)) eqn:Hp; [discriminate|].
    destruct (find_ci w t) eqn:Hf; [discriminate|].
    intros _ [|j]; simpl; auto.
Qed.

Lemma count_ci_zero w t :
  count_ci w t = 0 -> forall j, prefix_ci w (skipn j t) = false.
Proof.
  induction t as [|c t IH]; cbn [count_ci].
  - destruct (prefix_ci w []) eqn:Hp; [discriminate|].
    intros _ [|j]; assumption.
  - destruct (prefix_ci w (c :: t)) eqn:Hp; [discriminate|].
    simpl. intros Hc [|j]; simpl; auto.
Qed.

Lemma count_ci_one w t : forall i,
  w <> [] ->
  count_ci w t = 1 -> prefix_ci w (skipn i t) = true ->
  forall j, j <> i -> prefix_ci w (skipn j t) = false.
Proof.
  induction t as [|c t IH]; intros i Hw; cbn [count_ci].
  - destruct w; [congruence|]. discriminate.
  - destruct (prefix_ci w (c :: t)) eqn:Hp.
    + intros Hc. assert (Hz : count_ci w t = 0) by lia.
      pose proof (count_ci_zero _ _ Hz) as Hnone.
      destruct i as [|i]; [|simpl; now rewrite Hnone].
      intros _ [|j] Hj; [lia|]. simpl. apply Hnone.
    + simpl. intros Hc. destruct i as [|i]; simpl; [congruence|].
      intros Hi [|j] Hj; simpl; [assumption|]. apply (IH i); auto.
Qed.

(** ** [parseRolimonsTarget] *)

Lemma player_match_pos cls (s : str) (j : nat) :
  class_has_i cls (ch "/") = false ->
  option_map group1 (match_pos (player_re cls) s j)
  = let seg := until_slash (skipn (j + length MARKER) s) in
    if prefix_ci MARKER (skipn j s) && negb (str_eqb seg [])
       && forallb (class_has_i cls) seg
    then Some (Some seg) else None.
Proof.
  intros Hcls. unfold match_pos. rewrite player_match_at by assumption.
  cbv zeta. rewrite skipn_skipn, (Nat.add_comm (length MARKER) j). reflexivity.
Qed.

Lemma option_map_none {A B} (f : A -> B) (o : option A) :
  option_map f o = None -> o = None.
Proof. destruct o; [discriminate|reflexivity]. Qed.

Lemma option_map_some {A B} (f : A -> B) (o : option A) y :
  option_map f o = Some y -> exists x, o = Some x /\ f x = y.
Proof. destruct o; [intros [= <-]; eauto|discriminate]. Qed.

Section PlayerSearch.

Variable cls : list item.
Hypothesis cls_no_slash : class_has_i cls (ch "/") = false.

Let ok (seg : str) : bool :=
  negb (str_eqb seg []) && forallb (class_has_i cls) seg.

(** No marker at a position, no match there. *)
Lemma player_needs_marker s j :
  prefix_ci MARKER (skipn j s) = false ->
  match_pos (player_re cls) s j = None.
Proof.
  intros Hno. apply (option_map_none group1).
  rewrite player_match_pos by assumption. cbv zeta. now rewrite Hno.
Qed.

(** The first marker followed by a good segment gives the match. *)
Lemma player_first_marker s i :
  find_ci MARKER s = Some i ->
  ok (until_slash (skipn (i + length MARKER) s)) = true ->
  exists m, match_ s (player_re cls) = Some m /\
    group1 m = Some (until_slash (skipn (i + length MARKER) s)).
Proof.
  intros Hfind Hok. apply find_ci_some in Hfind as (Hat & Hi & Hbefore).
  pose proof (player_match_pos cls s i cls_no_slash) as Hpos.
  cbv zeta in Hpos. unfold ok in Hok. rewrite Hat in Hpos.
  cbn [andb] in Hpos. rewrite Hok in Hpos.
  apply option_map_some in Hpos as (m & Hm & Hg).
  exists m. split; [|assumption].
  apply match_first with (i := i); auto.
  intros j Hj. apply player_needs_marker. auto.
Qed.

(** A marker that occurs once and is followed by a bad segment gives
    no match. *)
Lemma player_single_marker s i :
  find_ci MARKER s = Some i -> count_ci MARKER s = 1 ->
  ok (until_slash (skipn (i + length MARKER) s)) = false ->
  match_ s (player_re cls) = None.
Proof.
  intros Hfind Hcount Hbad. apply find_ci_some in Hfind as (Hat & Hi & _).
  apply match_all_none. intros j. destruct (Nat.eq_dec j i) as [->|Hne].
  - apply (option_map_none group1). rewrite player_match_pos by assumption.
    cbv zeta. unfold ok in Hbad. rewrite Hat. cbn [andb]. now rewrite Hbad.
  - apply player_needs_marker.
    apply (@count_ci_one MARKER s i); auto. discriminate.
Qed.

(** What a match tells: a marker stands somewhere and the capture is a
    good segment. *)
Lemma player_match_inv s m :
  match_ s (player_re cls) = Some m ->
  exists seg j, group1 m = Some seg /\ ok seg = true /\
    prefix_ci MARKER (skipn j s) = true.
Proof.
  intros Hm. apply match_leftmost in Hm as [Hm _].
  pose proof (player_match_pos cls s (index m) cls_no_slash) as Hpos.
  rewrite Hm in Hpos. cbv zeta in Hpos. cbn [option_map] in Hpos.
  destruct (prefix_ci MARKER (skipn (index m) s)) eqn:Hat; [|discriminate].
  cbn [andb] in Hpos.
  destruct (negb _ && forallb _ _) eqn:Hok; [|discriminate].
  injection Hpos as Hg. eauto 6.
Qed.

End PlayerSearch.

Lemma forallb_ext_eq {A} (f g : A -> bool) l :
  (forall x, f x = g x) -> forallb f l = forallb g l.
Proof. intros H. induction l; simpl; [reflexivity|]. now rewrite H, IHl. Qed.

Lemma id_segment_ok seg :
  negb (str_eqb seg []) && forallb (class_has_i [Digit]) seg = numeric seg.
Proof. unfold numeric. f_equal. apply forallb_ext_eq, digit_class. Qed.

Lemma name_segment_ok seg :
  negb (str_eqb seg [])
  && forallb (class_has_i [Range (ch "A") (ch "Z"); Range (ch "a") (ch "z");
                           Range (ch "0") (ch "9"); One (ch "_")]) seg
  = word_like seg.
Proof. unfold word_like. f_equal. apply forallb_ext_eq, word_class. Qed.

(** C10, as amended: for every string the result has at most one of the
    fields [userId] and [username]; a [userId] is a non-empty run of
    digits; and a string in which the marker [/player/] occurs in no
    letter case gives the empty result. *)
Theorem parse_target_fields (s : str) :
  (userId (parseRolimonsTarget s) = None \/
   username (parseRolimonsTarget s) = None) /\
  (forall id, userId (parseRolimonsTarget s) = Some id -> numeric id = true) /\
  (find_ci MARKER s = None -> parseRolimonsTarget s = Target None None).
Proof.
  unfold parseRolimonsTarget. rewrite PLAYER_ID_RE_shape, PLAYER_NAME_RE_shape.
  repeat split.
  - destruct (match_ s (player_re [Digit])); simpl; auto.
    destruct (match_ s (player_re (_ :: _ :: _))); simpl; auto.
  - destruct (match_ s (player_re [Digit])) as [m|] eqn:Hm; simpl.
    + intros id Hid.
      apply player_match_inv in Hm as (seg & j & Hg & Hok & _);
        [|exact digit_no_slash].
      rewrite id_segment_ok in Hok. congruence.
    + destruct (match_ s (player_re (_ :: _ :: _))); simpl; intros id [=].
  - intros Hnone. pose proof (find_ci_none _ _ Hnone) as Hno.
    rewrite !match_all_none; auto; intros j;
      apply player_needs_marker; auto using digit_no_slash, word_no_slash.
Qed.

(** C5, as amended: when the segment after the first [/player/] marker
    (up to the next [/] or the end of the string) is a non-empty run of
    digits, the result is that segment as [userId]; when it is a
    non-empty run of letters, digits and underscores that is not all
    digits, and the marker occurs only once, the result is that segment
    as [username]. *)
Theorem parse_target_segment (s seg : str) :
  segment_after_marker s = Some seg ->
  (numeric seg = true -> parseRolimonsTarget s = Target (Some seg) None) /\
  (word_like seg = true -> numeric seg = false -> count_ci MARKER s = 1 ->
   parseRolimonsTarget s = Target None (Some seg)).
Proof.
  unfold segment_after_marker, parseRolimonsTarget.
  rewrite PLAYER_ID_RE_shape, PLAYER_NAME_RE_shape.
  destruct (find_ci MARKER s) as [i|] eqn:Hfind; [|discriminate].
  intros [= <-]. split.
  - intros Hnum.
    destruct (@player_first_marker [Digit] digit_no_slash s i Hfind)
      as (m & -> & ->); [now rewrite id_segment_ok|reflexivity].
  - intros Hword Hnum Hcount.
    rewrite (@player_single_marker [Digit] digit_no_slash s i); auto.
    2:{ now rewrite id_segment_ok. }
    destruct (@player_first_marker _ word_no_slash s i Hfind)
      as (m & -> & ->); [now rewrite name_segment_ok|reflexivity].
Qed.

(** ** Keyword mentions *)

Lemma SOCIAL_PATTERNS_table :
  SOCIAL_PATTERNS = map platform_pattern PLATFORMS.
Proof. reflexivity. Qed.

Lemma canonicalize_word c : is_word (canonicalize c) = is_word c.
Proof.
  apply eqb_prop.
  apply (for_all_code_units
           (fun c => Bool.eqb (is_word (canonicalize c)) (is_word c)));
    [vm_compute; reflexivity|].
  intros c' Hc'. unfold canonicalize.
  destruct (no_case_above Hc') as [-> _]. apply eqb_reflx.
Qed.

Lemma ci_eq_cons c a d b :
  ci_eq (c :: a) (d :: b) = true ->
  canonicalize c = canonicalize d /\ ci_eq a b = true.
Proof.
  unfold ci_eq. simpl. intros H. apply andb_true_iff in H as [H1 H2].
  apply N.eqb_eq in H1. auto.
Qed.

Lemma ci_eq_length a b : ci_eq a b = true -> length a = length b.
Proof.
  unfold ci_eq. intros H. apply str_eqb_eq in H.
  apply (f_equal (@length _)) in H. now rewrite !length_map in H.
Qed.

Lemma ci_eq_prefix written : forall kw t,
  ci_eq written kw = true -> prefix_ci kw (written ++ t) = true.
Proof.
  induction written as [|c a IH]; intros [|d kw] t H; try discriminate.
  - reflexivity.
  - apply ci_eq_cons in H as [Hc Ha]. simpl.
    rewrite Hc, N.eqb_refl. simpl. auto.
Qed.

Lemma clash_prefix w : forall kw written t,
  clashes w kw = true -> ci_eq written kw = true ->
  prefix_ci w (written ++ t) = false.
Proof.
  induction w as [|c w IH]; intros [|d kw] [|e a] t Hclash Heq;
    try discriminate.
  apply ci_eq_cons in Heq as [He Ha]. simpl in *.
  rewrite He, N.eqb_sym.
  destruct (N.eqb (canonicalize c) (canonicalize d)); [|reflexivity].
  simpl. eauto.
Qed.

Section Steps.

Variable R : Type.
Implicit Types (s : mstate) (k : mstate -> option R).

Lemma run_alts_ne (w : str) (ws : list str) s k :
  ws <> [] ->
  run (alts (w :: ws)) s k = orelse (run (lit w) s k) (run (alts ws) s k).
Proof. destruct ws; [congruence|reflexivity]. Qed.

(** The alternation settles on the keyword that is written. *)
Lemma run_alts_select (ws : list str) : forall kw written t b cp k r,
  selects ws kw = true -> ci_eq written kw = true ->
  k (MState (rev written ++ b) t cp) = Some r ->
  run (alts ws) (MState b (written ++ t) cp) k = Some r.
Proof.
  assert (Hhit : forall kw written t b cp k r,
    ci_eq written kw = true ->
    k (MState (rev written ++ b) t cp) = Some r ->
    run (lit kw) (MState b (written ++ t) cp) k = Some r).
  { intros kw written t b cp k r Heq Hk. rewrite run_lit. cbn [after].
    rewrite ci_eq_prefix by assumption. unfold advance. cbn [after before cap1].
    rewrite <- (ci_eq_length _ _ Heq), firstn_app, Nat.sub_diag, firstn_all.
    rewrite skipn_app, Nat.sub_diag, skipn_all. simpl.
    now rewrite app_nil_r. }
  induction ws as [|w ws IH]; intros kw written t b cp k r Hsel Heq Hk;
    [discriminate|].
  cbn [selects] in Hsel.
  destruct ws as [|w2 ws].
  - cbn [selects] in Hsel. rewrite andb_false_r, orb_false_r in Hsel.
    apply str_eqb_eq in Hsel as ->. now apply Hhit.
  - rewrite run_alts_ne by discriminate.
    destruct (str_eqb w kw) eqn:Hw.
    + apply str_eqb_eq in Hw as ->.
      rewrite (Hhit kw written t b cp k r Heq Hk). reflexivity.
    + cbn [orb] in Hsel. apply andb_true_iff in Hsel as [Hclash Hsel].
      rewrite run_lit. cbn [after].
      rewrite (clash_prefix _ _ _ t Hclash Heq). cbn [orelse].
      now apply IH with (kw := kw).
Qed.

Lemma run_wordb_seq (r : regex) s k :
  at_word_boundary s = true -> run (WordB >> r)%re s k = run r s k.
Proof. intros H. rewrite run_seq. simpl. now rewrite H. Qed.

(** A greedy repetition followed by the rest of the pattern. *)
Lemma run_rep_seq (a : atom) min max (r : regex) taken rest b cp k x :
  forallb (atom_match a) taken = true ->
  min <= length taken ->
  match max with Some n => length taken <= n | None => True end ->
  match rest with
  | c :: _ => atom_match a c = false \/ max = Some (length taken)
  | [] => True
  end ->
  run r (MState (rev taken ++ b) rest cp) k = Some x ->
  run (Rep a min max >> r)%re (MState b (taken ++ rest) cp) k = Some x.
Proof.
  intros Hall Hmin Hmax Hrest Hk. rewrite run_seq, run_rep.
  cbn [before after cap1]. now apply rep_greedy.
Qed.

End Steps.

Lemma class_check_all cls :
  forallb ascii_item cls = true ->
  forallb (class_check cls) (map N.of_nat (seq 0 128)) = true ->
  forall c, class_check cls c = true.
Proof.
  intros Hitems Htable. apply for_all_code_units; [assumption|].
  intros c Hc. unfold class_check.
  rewrite class_above, is_word_above by assumption. reflexivity.
Qed.

Lemma platform_class_check p c :
  In p PLATFORMS -> class_check (handle_class p) c = true.
Proof.
  intros Hin. apply class_check_all.
  - repeat (destruct Hin as [<-|Hin]; [reflexivity|]). destruct Hin.
  - repeat (destruct Hin as [<-|Hin]; [vm_compute; reflexivity|]).
    destruct Hin.
Qed.

Lemma space_class c : atom_match ws c = is_space c.
Proof.
  apply eqb_prop.
  apply (for_all_code_units
           (fun c => Bool.eqb (atom_match ws c) (is_space c)));
    [vm_compute; reflexivity|].
  intros c' Hc'. unfold ws, atom_match, class_has_i.
  destruct (no_case_above Hc') as [-> ->]. rewrite !orb_diag.
  unfold class_has. simpl. rewrite orb_false_r. apply eqb_reflx.
Qed.

Lemma spaces_match sp :
  forallb is_space sp = true -> forallb (atom_match ws) sp = true.
Proof.
  intros H. rewrite <- H. apply forallb_ext_eq, space_class.
Qed.

Section Mention.

Variable p : platform.
Hypothesis p_listed : In p PLATFORMS.

Let cls := handle_class p.

Lemma class_member c :
  class_has_i cls c = true ->
  is_space c = false /\ atom_match at_sign c = false /\
  (N.eqb c (ch "-") = true \/ atom_match colon_dash c = false).
Proof.
  intros Hc. pose proof (platform_class_check c p_listed) as H.
  unfold class_check in H. fold cls in H. rewrite Hc in H.
  apply andb_true_iff in H as [H _]. cbn [implb] in H.
  apply andb_true_iff in H as [H H3]. apply andb_true_iff in H as [H1 H2].
  apply negb_true_iff in H1, H2. apply orb_true_iff in H3.
  rewrite negb_true_iff in H3. auto.
Qed.

Lemma class_not_space c : class_has_i cls c = true -> is_space c = false.
Proof. intros Hc. now apply class_member. Qed.

Lemma class_not_at c :
  class_has_i cls c = true -> atom_match at_sign c = false.
Proof. intros Hc. now apply class_member. Qed.

Lemma class_not_punct c :
  class_has_i cls c = true -> N.eqb c (ch "-") = false ->
  atom_match colon_dash c = false.
Proof.
  intros Hc Hd. destruct (class_member c Hc) as (_ & _ & [H|H]); congruence.
Qed.

Lemma word_in_class c : is_word c = true -> class_has_i cls c = true.
Proof.
  intros Hc. pose proof (platform_class_check c p_listed) as H.
  unfold class_check in H. fold cls in H. rewrite Hc in H.
  apply andb_true_iff in H as [_ H]. exact H.
Qed.

Lemma hd_rev_last (h : str) : hd 0%N (rev h) = last h 0%N.
Proof.
  induction h as [|c h IH] using rev_ind; [reflexivity|].
  rewrite rev_app_distr, last_last. reflexivity.
Qed.

(** The capture takes the handle whole. *)
Lemma run_capture h rest b cp :
  handle_ok p h = true -> ends_handle p rest = true ->
  run (capture_re p) (MState b (h ++ rest) cp) (fun s => Some s)
  = Some (MState (rev h ++ b) rest (Some h)).
Proof.
  unfold handle_ok, ends_handle. fold cls. intros Hh Hrest.
  repeat (apply andb_true_iff in Hh as [Hh ?]).
  apply Nat.leb_le in Hh. apply Nat.leb_le in H2.
  unfold capture_re. rewrite run_seq, run_group. unfold between.
  rewrite run_rep. cbn [before after cap1].
  apply rep_greedy; auto.
  - destruct rest as [|c rest']; [exact I|]. left.
    now apply negb_true_iff in Hrest.
  - cbn beta. unfold consumed_since. cbn [before after].
    rewrite last_consumed_app. cbn [run].
    replace (at_word_boundary _) with true; [reflexivity|].
    unfold at_word_boundary, word_before, word_after. cbn [before after].
    assert (Hb : match rev h ++ b with c :: _ => is_word c | [] => false end
                 = true).
    { destruct h as [|h0 h'] eqn:Hh0; [simpl in Hh; lia|].
      rewrite <- Hh0 in *. rewrite <- hd_rev_last in H.
      destruct (rev h) as [|c rh] eqn:Hrev; [|exact H].
      apply (f_equal (@length _)) in Hrev. rewrite length_rev in Hrev.
      simpl in Hrev. lia. }
    rewrite Hb. destruct rest as [|c rest']; [reflexivity|].
    apply negb_true_iff in Hrest.
    destruct (is_word c) eqn:Hw; [|reflexivity].
    apply word_in_class in Hw. fold cls in Hrest. congruence.
Qed.


Lemma ci_eq_word_start written kw :
  ci_eq written kw = true -> is_word (hd 0%N kw) = true ->
  exists c rest, written = c :: rest /\ is_word c = true.
Proof.
  destruct written as [|c a], kw as [|d kw']; try discriminate.
  intros Heq Hd. apply ci_eq_cons in Heq as [Hc _]. simpl in Hd.
  exists c, a. split; [reflexivity|].
  now rewrite <- canonicalize_word, Hc, canonicalize_word.
Qed.

Lemma opt_taken (R : Type) (a : atom) (r : regex) c rest b cp
    (k : mstate -> option R) x :
  atom_match a c = true ->
  run r (MState (c :: b) rest cp) k = Some x ->
  run (opt a >> r)%re (MState b (c :: rest) cp) k = Some x.
Proof.
  intros Hc Hk. unfold opt.
  apply (@run_rep_seq R a 0 (Some 1) r [c] rest b cp k x); simpl; auto.
  - now rewrite Hc.
  - destruct rest; auto.
Qed.

Lemma opt_skipped (R : Type) (a : atom) (r : regex) c rest b cp
    (k : mstate -> option R) x :
  atom_match a c = false ->
  run r (MState b (c :: rest) cp) k = Some x ->
  run (opt a >> r)%re (MState b (c :: rest) cp) k = Some x.
Proof.
  intros Hc Hk. unfold opt.
  apply (@run_rep_seq R a 0 (Some 1) r [] (c :: rest) b cp k x); simpl; auto.
Qed.

Lemma spaces_taken (R : Type) (r : regex) sp c rest b cp
    (k : mstate -> option R) x :
  forallb is_space sp = true ->
  atom_match ws c = false ->
  run r (MState (rev sp ++ b) (c :: rest) cp) k = Some x ->
  run (star ws >> r)%re (MState b (sp ++ c :: rest) cp) k = Some x.
Proof.
  intros Hsp Hc Hk. unfold star.
  apply (@run_rep_seq R ws 0 None r sp (c :: rest) b cp k x); auto.
  - now apply spaces_match.
  - lia.
Qed.

(** One attempt of the platform's pattern where a mention starts. *)
Lemma mention_match_at kw written sep h rest b :
  selects (keywords p) kw = true ->
  is_word (hd 0%N kw) = true ->
  ci_eq written kw = true ->
  separator_ok p sep = true ->
  handle_ok p h = true ->
  ends_handle p rest = true ->
  match b with c :: _ => is_word c | [] => false end = false ->
  exists m,
    match_at (platform_re p) b (written ++ separator_text sep ++ h ++ rest)
    = Some m /\ group1 m = Some h.
Proof.
  intros Hsel Hkw Heq Hsep Hh Hrest Hb.
  assert (Hrun : exists bF,
    run (platform_re p)
        (MState b (written ++ separator_text sep ++ h ++ rest) None)
        (fun s => Some s)
    = Some (MState bF rest (Some h))).
  2:{ destruct Hrun as [bF Hrun]. unfold match_at. rewrite Hrun.
      eexists. split; reflexivity. }
  unfold platform_re.
  rewrite run_wordb_seq.
  2:{ destruct (ci_eq_word_start _ _ Heq Hkw) as (c & a & -> & Hc).
      unfold at_word_boundary, word_before, word_after. cbn [before after app].
      now rewrite Hb, Hc. }
  rewrite run_seq.
  destruct sep as [sp pu at_]. unfold separator_ok in Hsep.
  cbn [spaces punct with_at] in Hsep.
  apply andb_true_iff in Hsep as [Hsep Hat].
  apply andb_true_iff in Hsep as [Hsp Hpu].
  unfold separator_text, punct_text, at_text. cbn [spaces punct with_at].
  rewrite <- !app_assoc.
  pose proof Hh as Hh'. unfold handle_ok in Hh'. fold cls in Hh'.
  repeat (apply andb_true_iff in Hh' as [Hh' ?]).
  destruct h as [|h0 h'] eqn:Hhd; [discriminate|].
  cbn [forallb hd] in *.
  apply andb_true_iff in H1 as [Hh0 _]. apply negb_true_iff in H0.
  destruct (class_member h0 Hh0) as (Hs0 & Ha0 & _).
  pose proof (class_not_punct h0 Hh0 H0) as Hp0.
  rewrite <- space_class in Hs0.
  assert (Hatsp : atom_match ws (ch "@") = false) by reflexivity.
  assert (Hatpu : atom_match colon_dash (ch "@") = false) by reflexivity.
  assert (Hatat : atom_match at_sign (ch "@") = true) by reflexivity.
  rewrite <- Hhd in *. clear H H2 Hh'.
  assert (Hcap : forall bH cp,
    run (capture_re p) (MState bH (h ++ rest) cp) (fun s => Some s)
    = Some (MState (rev h ++ bH) rest (Some h))).
  { intros bH cp. now apply run_capture. }
  assert (Hopt_cap : forall bH cp,
    run (if takes_at p then (opt at_sign >> capture_re p)%re
         else capture_re p)
        (MState bH (h ++ rest) cp) (fun s => Some s)
    = Some (MState (rev h ++ bH) rest (Some h))).
  { intros bH cp. destruct (takes_at p); [|apply Hcap].
    rewrite Hhd. cbn [app]. apply opt_skipped; [assumption|].
    change (h0 :: h' ++ rest) with ((h0 :: h') ++ rest).
    rewrite <- Hhd. apply Hcap. }
  assert (Hpunct : forall c, (N.eqb c (ch ":") || N.eqb c (ch "-")) = true ->
    atom_match ws c = false /\ atom_match colon_dash c = true).
  { intros c Hc. apply orb_true_iff in Hc as [Hc|Hc];
      apply N.eqb_eq in Hc; subst c; split; reflexivity. }
  destruct pu as [[c more]|], at_; cbn [app];
    try (apply andb_true_iff in Hpu as [Hc Hmore];
         destruct (Hpunct c Hc) as [Hcs Hcp]);
    cbn [implb] in Hat; rewrite ?Hat; eexists;
    (apply run_alts_select with (kw := kw); [assumption|assumption|]).
  - apply spaces_taken; [assumption|assumption|].
    apply opt_taken; [assumption|].
    apply spaces_taken; [assumption|assumption|].
    apply opt_taken; [assumption|]. apply Hcap.
  - rewrite Hhd. cbn [app].
    apply spaces_taken; [assumption|assumption|].
    apply opt_taken; [assumption|].
    apply spaces_taken; [assumption|assumption|].
    change (h0 :: h' ++ rest) with ((h0 :: h') ++ rest).
    rewrite <- Hhd. apply Hopt_cap.
  - apply spaces_taken; [assumption|assumption|].
    apply opt_skipped; [assumption|].
    apply (@spaces_taken _ _ [] (ch "@")); [reflexivity|assumption|].
    apply opt_taken; [assumption|]. apply Hcap.
  - rewrite Hhd. cbn [app].
    apply spaces_taken; [assumption|assumption|].
    apply opt_skipped; [assumption|].
    apply (@spaces_taken _ _ [] h0); [reflexivity|assumption|].
    change (h0 :: h' ++ rest) with ((h0 :: h') ++ rest).
    rewrite <- Hhd. apply Hopt_cap.
Qed.

End Mention.

Lemma keyword_selected p kw :
  In p PLATFORMS -> In kw (keywords p) -> kw <> js "instagram" ->
  selects (keywords p) kw = true /\ is_word (hd 0%N kw) = true.
Proof.
  intros Hp Hkw Hne.
  repeat (destruct Hp as [<-|Hp];
    [cbn [keywords] in Hkw;
     repeat (destruct Hkw as [<-|Hkw];
       [first [split; reflexivity | exfalso; apply Hne; reflexivity]|]);
     destruct Hkw|]).
  destruct Hp.
Qed.

Lemma platform_pattern_listed p :
  In p PLATFORMS -> In (platform_pattern p) SOCIAL_PATTERNS.
Proof. intros Hp. rewrite SOCIAL_PATTERNS_table. now apply in_map. Qed.

Section MentionFound.

Context {RT : JsRuntime}.

(** A mention of a platform: one of its keywords other than
    [instagram], written in any letter case, a separator and a handle
    the pattern captures whole.  If the text has it after a prefix that
    ends outside a word and in which the platform's pattern does not
    match, the match list has exactly one entry for the platform, and it
    carries that handle. *)
Lemma mention_found (p : platform) (kw written : str) (sep : separator)
    (h pre rest : str) :
  In p PLATFORMS ->
  In kw (keywords p) -> kw <> js "instagram" ->
  ci_eq written kw = true ->
  separator_ok p sep = true ->
  handle_ok p h = true ->
  ends_handle p rest = true ->
  is_word (last pre 0%N) = false ->
  let text := pre ++ written ++ separator_text sep ++ h ++ rest in
  (forall j, j < length pre -> match_pos (platform_re p) text j = None) ->
  entries_of (label p) (found (extractConnectionsFromBio text))
  = [FoundEntry (label p) (Some h)].
Proof.
  intros Hp Hkw Hne Heq Hsep Hh Hrest Hpre text Hfirst.
  destruct (keyword_selected Hp Hkw Hne) as [Hsel Hstart].
  destruct (@mention_match_at p Hp kw written sep h rest (rev pre))
    as (m & Hm & Hg); auto.
  { rewrite <- hd_rev_last in Hpre. destruct (rev pre); auto. }
  assert (Hmatch : match_ text (platform_re p) = Some m).
  { apply match_first with (i := length pre); auto.
    - subst text. rewrite length_app. lia.
    - unfold match_pos. subst text.
      rewrite firstn_app, Nat.sub_diag, firstn_all, firstn_O, app_nil_r.
      rewrite skipn_app, Nat.sub_diag, skipn_all, skipn_O. exact Hm. }
  rewrite found_flat_map.
  change (label p) with (name (platform_pattern p)).
  rewrite entries_of_contribution.
  - unfold contribution. cbn [re platform_pattern]. rewrite Hmatch.
    cbn [name]. now rewrite Hg.
  - rewrite platform_order_names. apply platform_order_NoDup.
  - now apply platform_pattern_listed.
Qed.

End MentionFound.

(** ** Outcomes of computations *)

Section Outcomes.

Context {RT : JsRuntime}.

Lemma fst_bind {A B} (m : M A) (f : A -> M B) :
  fst (bind m f)
  = match fst m with Ok a => fst (f a) | Throw e => Throw e end.
Proof.
  unfold bind. destruct m as [[a|e] tr]; simpl; [|reflexivity].
  destruct (f a); reflexivity.
Qed.

Lemma fst_try_catch {A} (m : M A) (h : exn -> M A) :
  fst (try_catch m h)
  = match fst m with Ok a => Ok a | Throw e => fst (h e) end.
Proof.
  unfold try_catch. destruct m as [[a|e] tr]; simpl; [reflexivity|].
  destruct (h e); reflexivity.
Qed.

(** The outcome of a sequence depends on the outcomes of its parts
    only, not on the calls they make. *)
Lemma bind_outcome {A B} (m1 m2 : M A) (f1 f2 : A -> M B) :
  fst m1 = fst m2 -> (forall a, fst (f1 a) = fst (f2 a)) ->
  fst (bind m1 f1) = fst (bind m2 f2).
Proof.
  intros Hm Hf. rewrite !fst_bind, Hm. destruct (fst m2); auto.
Qed.

Lemma try_catch_outcome {A} (m1 m2 : M A) (h1 h2 : exn -> M A) :
  fst m1 = fst m2 -> (forall e, fst (h1 e) = fst (h2 e)) ->
  fst (try_catch m1 h1) = fst (try_catch m2 h2).
Proof.
  intros Hm Hh. rewrite !fst_try_catch, Hm. destruct (fst m2); auto.
Qed.

(** [getConnections] never throws and always returns an array. *)
Lemma getConnections_array (E : env) (userId : str) :
  exists items tr, getConnections E userId = (Ok (JArr items), tr).
Proof.
  unfold getConnections. destruct (str_eqb (ROBLOX_COOKIE E) []).
  - eexists _, _. reflexivity.
  - unfold try_catch, bind, await, ret.
    destruct (social_links_api E userId) as [data|e]; simpl.
    + destruct data; simpl; eexists _, _; reflexivity.
    + eexists _, _. reflexivity.
Qed.

Lemma getConnections_fails (E : env) (userId : str) :
  fetch_fails E userId -> fst (getConnections E userId) = Ok (JArr []).
Proof.
  unfold getConnections.
  intros [Hcookie|[[e He]|(data & Hdata & Harr)]].
  - rewrite Hcookie. reflexivity.
  - destruct (str_eqb (ROBLOX_COOKIE E) []); [reflexivity|].
    unfold try_catch, bind, await. rewrite He. reflexivity.
  - destruct (str_eqb (ROBLOX_COOKIE E) []); [reflexivity|].
    unfold try_catch, bind, await. rewrite Hdata. simpl. rewrite Harr.
    reflexivity.
Qed.

Lemma getConnections_empty (E : env) (userId : str) :
  fst (getConnections (with_no_connections E) userId) = Ok (JArr []).
Proof. reflexivity. Qed.

(** The notification step ends the same way whatever the webhook
    does. *)
Lemma sendDiscordEmbed_webhook (E : env) (w1 w2 : json -> outcome)
    username userId bio parsedBio connections :
  fst (sendDiscordEmbed (with_webhook E w1) username userId bio parsedBio
         connections)
  = fst (sendDiscordEmbed (with_webhook E w2) username userId bio parsedBio
           connections).
Proof.
  unfold sendDiscordEmbed. cbn [WEBHOOK_URL with_webhook now webhook].
  destruct (str_eqb (WEBHOOK_URL E) []); [reflexivity|].
  apply bind_outcome; [reflexivity|]. intros u.
  apply bind_outcome; [reflexivity|]. intros i.
  apply bind_outcome; [reflexivity|]. intros fields.
  rewrite !fst_try_catch, !fst_bind. unfold await. cbn [fst].
  destruct (w1 _), (w2 _); reflexivity.
Qed.


(** The response of the handler depends on the world through the
    outcomes of its four helpers only. *)
Lemma check_outcome (E1 E2 : env) hint params :
  (forall u, fst (usernameToId E1 u) = fst (usernameToId E2 u)) ->
  (forall uid, fst (getUserInfo E1 uid) = fst (getUserInfo E2 uid)) ->
  (forall uid, fst (getConnections E1 uid) = fst (getConnections E2 uid)) ->
  (forall a b c d e,
     fst (sendDiscordEmbed E1 a b c d e) = fst (sendDiscordEmbed E2 a b c d e)) ->
  fst (check E1 hint params) = fst (check E2 hint params).
Proof.
  intros Hid Hinfo Hconn Hsend. unfold check.
  apply try_catch_outcome; [|reflexivity].
  apply bind_outcome; [reflexivity|]. intros ids.
  destruct (negb (truthy (snd ids)) && negb (truthy (fst ids)));
    [reflexivity|].
  apply bind_outcome.
  { destruct (negb (truthy (snd ids))); [|reflexivity].
    apply bind_outcome; [reflexivity|]. intros u. apply Hid. }
  intros userId. apply bind_outcome; [reflexivity|]. intros uid.
  apply bind_outcome; [apply Hinfo|]. intros info.
  destruct (or_ (get info "description") (JStr [])); try reflexivity.
  apply bind_outcome; [reflexivity|]. intros uid2.
  apply bind_outcome; [apply Hconn|]. intros connections.
  apply bind_outcome; [apply Hsend|]. intros _. reflexivity.
Qed.


(** *** Postconditions *)

Lemma or_truthy (a b : json) : truthy b = true -> truthy (or_ a b) = true.
Proof. unfold or_. destruct (truthy a) eqn:Ha; auto. Qed.

Lemma wp_ret {A} (a : A) Q Qe : Q a [] -> wp (ret a) Q Qe.
Proof. auto. Qed.

Lemma wp_throw {A} e (Q : A -> list event -> Prop) Qe :
  Qe e [] -> wp (throw e) Q Qe.
Proof. auto. Qed.

Lemma wp_lift {A} (r : result A) Q Qe :
  match r with Ok a => Q a [] | Throw e => Qe e [] end ->
  wp (lift r) Q Qe.
Proof. destruct r; auto. Qed.

Lemma wp_bind {A B} (m : M A) (f : A -> M B) Q Qe :
  wp m (fun a tr1 =>
          wp (f a) (fun b tr2 => Q b (tr1 ++ tr2))
                   (fun e tr2 => Qe e (tr1 ++ tr2)))
       Qe ->
  wp (bind m f) Q Qe.
Proof.
  unfold wp, bind. destruct m as [[a|e] tr1]; [|auto].
  destruct (f a) as [[b|e] tr2]; auto.
Qed.

Lemma wp_try_catch {A} (m : M A) (h : exn -> M A) Q Qe :
  wp m Q (fun e tr1 =>
            wp (h e) (fun a tr2 => Q a (tr1 ++ tr2))
                     (fun e' tr2 => Qe e' (tr1 ++ tr2))) ->
  wp (try_catch m h) Q Qe.
Proof.
  unfold wp, try_catch. destruct m as [[a|e] tr1]; [auto|].
  destruct (h e) as [[b|e'] tr2]; auto.
Qed.

Lemma wp_any {A} (m : M A) : wp m (fun _ _ => True) (fun _ _ => True).
Proof. unfold wp. destruct m as [[a|e] tr]; exact I. Qed.

Lemma wp_outcome {A} (m : M A) :
  wp m (fun a _ => fst m = Ok a) (fun e _ => fst m = Throw e).
Proof. unfold wp. destruct m as [[a|e] tr]; reflexivity. Qed.

Lemma wp_conseq {A} (m : M A) (Q Q' : A -> list event -> Prop)
    (Qe Qe' : exn -> list event -> Prop) :
  wp m Q Qe ->
  (forall a tr, Q a tr -> Q' a tr) -> (forall e tr, Qe e tr -> Qe' e tr) ->
  wp m Q' Qe'.
Proof. unfold wp. destruct m as [[a|e] tr]; auto. Qed.

Lemma usernameToId_truthy (E : env) (u : str) :
  wp (usernameToId E u) (fun id _ => truthy id = true) (fun _ _ => True).
Proof.
  unfold usernameToId. apply wp_bind.
  eapply wp_conseq; [apply wp_any| |auto]. intros data tr _.
  destruct (negb (truthy (get (get0 (get data "data")) "id"))) eqn:Hid.
  - apply wp_throw. exact I.
  - apply wp_bind, wp_lift. destruct (ToString _); [|exact I].
    apply wp_ret. now apply negb_false_iff in Hid.
Qed.

Lemma check_answered (E : env) hint params :
  wp (check E hint params) (answered E hint) (fun _ _ => False).
Proof.
  unfold check. apply wp_try_catch.
  apply wp_conseq with
    (Q := answered E hint)
    (Qe := fun _ _ => True); [|auto|].
  2:{ intros e tr _. apply wp_ret. right. left. split; [reflexivity|].
      eexists. reflexivity. }
  apply wp_bind.
  apply wp_conseq with (Q := fun _ tr => tr = []) (Qe := fun _ _ => True);
    [| |auto].
  { destruct (truthy (get params "rolimonsUrl")); [|reflexivity].
    apply wp_bind, wp_lift. destruct (ToString _); [reflexivity|exact I]. }
  intros ids tr1 ->. cbn [app].
  destruct (negb (truthy (snd ids)) && negb (truthy (fst ids))) eqn:Hnone.
  { apply wp_ret. left. auto. }
  apply wp_bind.
  apply wp_conseq with (Q := fun userId _ => truthy userId = true)
                       (Qe := fun _ _ => True); [| |auto].
  { destruct (negb (truthy (snd ids))) eqn:Hid.
    - apply wp_bind, wp_lift. destruct (ToString _); [|exact I].
      eapply wp_conseq; [apply usernameToId_truthy| |]; auto.
    - apply wp_ret. now apply negb_false_iff in Hid. }
  intros userId tr1 Huid.
  apply wp_bind, wp_lift. destruct (ToString userId) as [uid|]; [|exact I].
  apply wp_bind. eapply wp_conseq; [apply wp_any| |auto].
  intros info tr2 _.
  destruct (or_ (get info "description") (JStr [])) eqn:Hbio;
    try (apply wp_throw; exact I).
  apply wp_bind, wp_lift.
  apply wp_bind. eapply wp_conseq; [apply wp_outcome| |auto].
  intros connections tr3 Hconn. cbv beta in Hconn.
  apply wp_bind. eapply wp_conseq; [apply wp_any| |auto].
  intros _ tr4 _.
  apply wp_bind, wp_lift.
  apply wp_ret. right. right. split; [reflexivity|].
  exists userId, (or_ (or_ (get info "name") (fst ids)) (JStr (js "Unknown"))),
    s, connections, uid.
  repeat split; auto. apply or_truthy. reflexivity.
Qed.


Lemma check_never_throws (E : env) hint params :
  exists r calls, check E hint params = (Ok r, calls) /\ answered E hint r calls.
Proof.
  pose proof (check_answered E hint params) as H. unfold wp in H.
  destruct (check E hint params) as [[r|e] calls]; [eauto|contradiction].
Qed.

Lemma answered_shape (E : env) hint r calls :
  answered E hint r calls ->
  (success_response r \/ error_response r) /\
  (profile_resolved E calls ->
   success_response r \/ (status r = 500 /\ error_object (body r))).
Proof.
  intros [(Hst & Hbody & Hcalls)|[(Hst & Herr)|(Hst & Hok)]].
  - split.
    + right. split; [auto|]. rewrite Hbody. eexists. reflexivity.
    + intros (uid & info & Hin & _). subst calls. destruct Hin.
  - split; [right; split; auto|auto].
  - assert (Hs : success_response r).
    { split; [assumption|].
      destruct Hok as (userId & username & text & connections & uid & Hb
                       & Hu & Hn & Hconn).
      destruct (getConnections_array E uid) as (items & tr & Harr).
      rewrite Harr in Hconn. injection Hconn as <-.
      rewrite Hb. unfold success_object. eauto 10. }
    auto.
Qed.

Lemma fst_bind_ok {A B} (m : M A) (f : A -> M B) a :
  fst m = Ok a -> fst (bind m f) = fst (f a).
Proof. intros H. now rewrite fst_bind, H. Qed.

(** With no connections to show, the notification step cannot throw
    once user name and user id are texts. *)
Lemma sendDiscordEmbed_no_connections (E : env) name uid text parsedBio :
  fst (sendDiscordEmbed E (JStr name) (JStr uid) text parsedBio (JArr []))
  = Ok tt.
Proof.
  unfold sendDiscordEmbed.
  destruct (str_eqb (WEBHOOK_URL E) []); [reflexivity|].
  do 3 (erewrite fst_bind_ok by reflexivity).
  rewrite fst_try_catch, fst_bind. unfold await. cbn [fst].
  destruct (webhook E _); reflexivity.
Qed.

Lemma or_text (text : str) : or_ (JStr text) (JStr []) = JStr text.
Proof. unfold or_. simpl. destruct text; reflexivity. Qed.

Lemma or_object (v : json) key :
  get v key <> JUndefined -> or_ v (JObj []) = v.
Proof.
  intros H. destruct v; try (exfalso; apply H; reflexivity). reflexivity.
Qed.

(** A request that names the user by id, when the connections fetch
    for that user fails and the profile has a name and a bio. *)
Lemma check_given_user_id (E : env) hint params uid info text name :
  fetch_fails E uid ->
  get params "rolimonsUrl" = JUndefined ->
  get params "userId" = JStr uid -> uid <> [] ->
  users_api E uid = Resolved info ->
  get info "description" = JStr text ->
  get info "name" = JStr name -> name <> [] ->
  fst (check E hint params)
  = Ok (HttpResponse 200
          (JObj [(js "userId", JStr uid);
                 (js "username", JStr name);
                 (js "bio", JStr text);
                 (js "parsed", parsed_json (extractConnectionsFromBio text));
                 (js "connections", JArr [])])).
Proof.
  intros Hfail Hurl Hid Huid Hinfo Hbio Hname Hne.
  assert (Htu : truthy (JStr uid) = true).
  { simpl. apply negb_true_iff, str_eqb_neq. exact Huid. }
  assert (Htn : truthy (JStr name) = true).
  { simpl. apply negb_true_iff, str_eqb_neq. exact Hne. }
  assert (Hname' : forall v,
    or_ (or_ (JStr name) v) (JStr (js "Unknown")) = JStr name).
  { intros v. unfold or_. now rewrite !Htn. }
  unfold check. rewrite fst_try_catch, Hurl, Hid. cbn [truthy].
  erewrite fst_bind_ok by reflexivity. cbn [fst snd]. rewrite Htu.
  cbn [negb andb].
  erewrite fst_bind_ok by reflexivity.
  erewrite fst_bind_ok by reflexivity.
  erewrite fst_bind_ok by (unfold getUserInfo, await; rewrite Hinfo; reflexivity).
  rewrite Hbio, Hname, or_text, Hname'.
  erewrite fst_bind_ok by reflexivity.
  erewrite fst_bind_ok by (apply getConnections_fails; auto).
  erewrite fst_bind_ok by apply sendDiscordEmbed_no_connections.
  erewrite fst_bind_ok by reflexivity.
  reflexivity.
Qed.

(** C7: a failure of the webhook post never fails [/check]: for every
    request, the response is the same whatever the webhook does
    (whether the post succeeds or throws), and it is a response, not an
    exception. *)
Theorem webhook_failure_ignored (E : env) (w1 w2 : json -> outcome)
    (params : json) :
  fst (get_check (with_webhook E w1) params)
  = fst (get_check (with_webhook E w2) params) /\
  fst (post_check (with_webhook E w1) params)
  = fst (post_check (with_webhook E w2) params) /\
  (exists r, fst (get_check (with_webhook E w1) params) = Ok r) /\
  (exists r, fst (post_check (with_webhook E w1) params) = Ok r).
Proof.
  assert (Hsame : forall hint p,
    fst (check (with_webhook E w1) hint p)
    = fst (check (with_webhook E w2) hint p)).
  { intros hint p. apply check_outcome; try reflexivity.
    intros a b c d e. apply sendDiscordEmbed_webhook. }
  assert (Hresp : forall hint p,
    exists r, fst (check (with_webhook E w1) hint p) = Ok r).
  { intros hint p.
    destruct (check_never_throws (with_webhook E w1) hint p)
      as (r & calls & Hrun & _).
    exists r. now rewrite Hrun. }
  repeat split; try apply Hsame; apply Hresp.
Qed.

(** A request that supplies none of [username], [userId] and
    [rolimonsUrl] is refused before any call; every request is answered
    with the success object or an error object. *)
Lemma check_answer_shapes (E : env) (params : json) :
  (none_supplied params ->
   get_check E params
   = (Ok (HttpResponse 400
            (error_body
               (js "Provide ?username=NAME or ?userId=ID or ?rolimonsUrl="))),
      []) /\
   post_check E params
   = (Ok (HttpResponse 400
            (error_body (js "Provide username, userId, or rolimonsUrl"))),
      [])) /\
  (forall answer,
     answer = get_check E params \/ answer = post_check E params ->
     exists r calls,
       answer = (Ok r, calls) /\
       (success_response r \/ error_response r) /\
       (profile_resolved E calls ->
        success_response r \/ (status r = 500 /\ error_object (body r)))).
Proof.
  split.
  - intros (Hn & Hi & Hr).
    assert (Hgo : forall hint p,
      get p "username" = JUndefined -> get p "userId" = JUndefined ->
      get p "rolimonsUrl" = JUndefined ->
      check E hint p = (Ok (HttpResponse 400 (error_body (js hint))), [])).
    { intros hint p H1 H2 H3. unfold check. rewrite H1, H2, H3. reflexivity. }
    split; [now apply Hgo|].
    unfold post_check, or_.
    destruct (truthy params); [now apply Hgo|]. now apply Hgo.
  - intros answer [-> | ->]; unfold get_check, post_check;
      match goal with
      | |- context [check E ?hint ?p] =>
          destruct (check_never_throws E hint p) as (r & calls & Hrun & Hans);
          exists r, calls; split; [exact Hrun|];
          exact (answered_shape Hans)
      end.
Qed.

End Outcomes.

(** ** Runs on concrete inputs *)

Section Runs.

#[local] Existing Instance ascii_runtime.
#[local] Open Scope string_scope.

(** *** Bio parsing *)

(** C2 as stated fails: the text has the Instagram keyword [ig]
    followed by a handle, and the match list also has an entry for
    Twitter, whose keyword [x] starts the handle. *)
Lemma mention_matches_other_platform :
  found (extractConnectionsFromBio (js "ig: xavier"))
  = [FoundEntry (js "Instagram") (Some (js "xavier"));
     FoundEntry (js "Twitter") (Some (js "avier"))].
Proof. vm_compute. reflexivity. Qed.

(** The keyword [instagram] is cut short by the alternative [insta]
    that stands before it. *)
Example instagram_keyword_cut :
  found (extractConnectionsFromBio (js "instagram: foo"))
  = [FoundEntry (js "Instagram") (Some (js "gram"))].
Proof. vm_compute. reflexivity. Qed.

Example second_mention_dropped :
  found (extractConnectionsFromBio (js "ig: first ig: second"))
  = [FoundEntry (js "Instagram") (Some (js "first"))].
Proof. vm_compute. reflexivity. Qed.

Example order_is_platform_order :
  map type (found (extractConnectionsFromBio (js "tg: gamma fb: beta ig: alpha")))
  = [js "Instagram"; js "Facebook"; js "Telegram"].
Proof. vm_compute. reflexivity. Qed.

Example urls_extracted :
  find_urls (js "see (http://Example.com/A) and http://example.com/a now")
  = [js "http://Example.com/A"; js "http://example.com/a"].
Proof. vm_compute. reflexivity. Qed.

Example urls_case_insensitive :
  urls (extractConnectionsFromBio
          (js "see (http://Example.com/A) and http://example.com/a now"))
  = [js "http://Example.com/A"].
Proof. vm_compute. reflexivity. Qed.

Lemma urls_deduplicated_witness :
  urls (extractConnectionsFromBio
          (js "http://Example.com/A http://example.com/a"))
  = [js "http://Example.com/A"].
Proof.
  apply (urls_deduplicated (js "http://Example.com/A http://example.com/a"))
    with (v := js "http://example.com/a"); reflexivity.
Defined.

Lemma first_match_per_platform_witness :
  let p := SocialPattern (js "Instagram")
             (platform_re (Platform (js "Instagram")
                [js "ig"; js "insta"; js "instagram"] true handle_chars 30)) in
  let text := js "ig: first ig: second" in
  In p SOCIAL_PATTERNS /\
  length (entries_of (name p) (found (extractConnectionsFromBio text))) <= 1.
Proof.
  intros p text. split; [left; reflexivity|].
  apply (first_match_per_platform text (p := p) (or_introl eq_refl)).
Defined.

(** *** Rolimons URLs *)

(** C5 as stated fails: the segment after the marker is not numeric,
    and the result has no [username] (nor a [userId]). *)
Lemma parse_hyphen_segment :
  let s := js "https://www.rolimons.com/player/john-doe" in
  segment_after_marker s = Some (js "john-doe") /\
  numeric (js "john-doe") = false /\
  parseRolimonsTarget s = Target None None.
Proof. vm_compute. auto. Qed.

Lemma parse_target_segment_witness :
  (segment_after_marker (js "https://www.rolimons.com/player/12345/trades")
   = Some (js "12345") /\
   parseRolimonsTarget (js "https://www.rolimons.com/player/12345/trades")
   = Target (Some (js "12345")) None) /\
  (segment_after_marker (js "https://www.rolimons.com/player/Builder_Man")
   = Some (js "Builder_Man") /\
   parseRolimonsTarget (js "https://www.rolimons.com/player/Builder_Man")
   = Target None (Some (js "Builder_Man"))).
Proof.
  split; (split; [reflexivity|]).
  - apply (@parse_target_segment
             (js "https://www.rolimons.com/player/12345/trades") (js "12345"));
      reflexivity.
  - apply (@parse_target_segment
             (js "https://www.rolimons.com/player/Builder_Man")
             (js "Builder_Man")); reflexivity.
Defined.

(** C10 as stated fails: the string does not contain [/player/] as
    written, and the result has a [userId]. *)
Lemma parse_upper_case_marker :
  let s := js "https://www.rolimons.com/PLAYER/42" in
  contains MARKER s = false /\
  parseRolimonsTarget s = Target (Some (js "42")) None.
Proof. vm_compute. auto. Qed.

Lemma parse_target_fields_witness :
  find_ci MARKER (js "https://www.rolimons.com/item/42") = None /\
  parseRolimonsTarget (js "https://www.rolimons.com/item/42")
  = Target None None.
Proof.
  split; [reflexivity|].
  apply (parse_target_fields (js "https://www.rolimons.com/item/42")).
  reflexivity.
Defined.

Example query_string_not_numeric :
  parseRolimonsTarget (js "https://www.rolimons.com/player/12345?tab=1")
  = Target None None.
Proof. vm_compute. reflexivity. Qed.

Example second_marker_wins :
  parseRolimonsTarget (js "/player/abc/player/123")
  = Target (Some (js "123")) None.
Proof. vm_compute. reflexivity. Qed.

(** *** The [/check] routes *)

(** C8 as stated fails: identity and profile are resolved, the
    connections array holds [null], building the notification throws,
    and the answer is the 500 error object. *)
Lemma check_null_connection :
  let answer := get_check world_null_entry (obj [("userId", JStr (js "1"))]) in
  profile_resolved world_null_entry (snd answer) /\
  fst answer
  = Ok (HttpResponse 500
          (error_body (js "Cannot read properties of null (reading 'type')")))
  /\ forall r, fst answer = Ok r -> ~ success_response r.
Proof.
  cbv zeta. split; [|split].
  - exists (js "1"), sample_profile. split; [|reflexivity].
    vm_compute. left. reflexivity.
  - vm_compute. reflexivity.
  - intros r Hr [Hst _].
    assert (H500 : option_map status
                     (match fst (get_check world_null_entry
                                   (obj [("userId", JStr (js "1"))])) with
                      | Ok r' => Some r' | Throw _ => None end) = Some 500)
      by (vm_compute; reflexivity).
    rewrite Hr in H500. simpl in H500. congruence.
Qed.

(** A whole request in the world where the cookie is rejected and the
    webhook is down: four outbound calls, a 200 answer, no
    connections. *)
Example check_unauthorized_run :
  get_check world_unauthorized (obj [("username", JStr (js "builderman"))])
  = (Ok (HttpResponse 200
           (obj [("userId", JNum 1%N);
                 ("username", JStr (js "builderman"));
                 ("bio",
                  JStr (js "ig: builder_man http://Example.com/A http://example.com/a"));
                 ("parsed",
                  obj [("found",
                        JArr [obj [("type", JStr (js "Instagram"));
                                   ("handle", JStr (js "builder_man"))]]);
                       ("urls", JArr [JStr (js "http://Example.com/A")])]);
                 ("connections", JArr [])])),
     [CallUsernames (js "builderman"); CallUsers (js "1");
      CallSocialLinks (js "1");
      CallWebhook
        (obj [("embeds",
               JArr [obj [("title", JStr (js "Roblox Profile Scan"));
                          ("color", JNum 44678%N);
                          ("fields",
                           JArr [obj [("name", JStr (js "User"));
                                      ("value", JStr (js "builderman (1)"));
                                      ("inline", JBool true)];
                                 obj [("name", JStr (js "Bio length"));
                                      ("value", JStr (js "57"));
                                      ("inline", JBool true)];
                                 obj [("name", JStr (js "Parsed Handles (Bio)"));
                                      ("value",
                                       JStr ([bullet] ++ js " **Instagram**: builder_man"))];
                                 obj [("name", JStr (js "URLs in Bio"));
                                      ("value", JStr (js "http://Example.com/A"))];
                                 obj [("name", JStr (js "Roblox Connections (API)"));
                                      ("value",
                                       JStr (js "None or not visible to this account."))]]);
                          ("timestamp", JStr (js "2024-01-01T00:00:00.000Z"))]])])]).
Proof. vm_compute. reflexivity. Qed.

End Runs.

(* ================================================================== *)
(** * Part III: further properties of the code *)
(* ================================================================== *)

(** ** What a match consumes *)

Section MatcherSound.

Variable R : Type.

Lemma rep_bounded (p : cu -> bool) a : forall min max b
    (k : str -> str -> option R) r,
  rep p min max b a k = Some r ->
  (match max with Some n => Nat.leb min n | None => true end) = true ->
  exists taken rest,
    a = taken ++ rest /\ forallb p taken = true /\
    min <= length taken /\
    match max with Some n => length taken <= n | None => True end /\
    k (rev taken ++ b) rest = Some r.
Proof.
  intros min max b k r Hrep Hwf. eapply rep_sound; eauto.
  destruct max; [now apply Nat.leb_le|exact I].
Qed.

(** The matcher is sound: when it returns, the continuation was called
    after a word of the pattern had been consumed. *)
Lemma run_sound (r : regex) : forall (s : mstate) (k : mstate -> option R) x,
  bounds_ok r = true ->
  run r s k = Some x ->
  exists s' w,
    k s' = Some x /\ lang r w /\
    after s = w ++ after s' /\ before s' = rev w ++ before s.
Proof.
  induction r as [|a|r1 IH1 r2 IH2|r1 IH1 r2 IH2|a min max|r1 IH1| |];
    intros s k x Hwf Hrun.
  - exists s, []. repeat split; auto. constructor.
  - simpl in Hrun. destruct (after s) as [|c a'] eqn:Ha; [discriminate|].
    destruct (atom_match a c) eqn:Hc; [|discriminate].
    eexists _, [c]. split; [exact Hrun|]. repeat split; auto.
    now constructor.
  - simpl in Hwf. apply andb_true_iff in Hwf as [Hw1 Hw2].
    rewrite run_seq in Hrun.
    apply IH1 in Hrun as (s1 & w1 & Hk1 & Hl1 & Ha1 & Hb1); auto.
    apply IH2 in Hk1 as (s2 & w2 & Hk2 & Hl2 & Ha2 & Hb2); auto.
    exists s2, (w1 ++ w2). split; [assumption|]. split; [now constructor|].
    split.
    + rewrite Ha1, Ha2. now rewrite app_assoc.
    + rewrite Hb2, Hb1, rev_app_distr. now rewrite app_assoc.
  - simpl in Hwf. apply andb_true_iff in Hwf as [Hw1 Hw2].
    simpl in Hrun. unfold orelse in Hrun.
    destruct (run r1 s k) as [y|] eqn:H1.
    + injection Hrun as ->.
      apply IH1 in H1 as (s1 & w1 & Hk1 & Hl1 & Ha1 & Hb1); auto.
      exists s1, w1. repeat split; auto. now apply lang_alt_l.
    + apply IH2 in Hrun as (s2 & w2 & Hk2 & Hl2 & Ha2 & Hb2); auto.
      exists s2, w2. repeat split; auto. now apply lang_alt_r.
  - rewrite run_rep in Hrun.
    apply rep_bounded in Hrun as (taken & rest & Ha & Hall & Hmin & Hmax & Hk);
      [|exact Hwf].
    eexists _, taken. split; [exact Hk|]. split; [now constructor|].
    split; auto.
  - rewrite run_group in Hrun. simpl in Hwf.
    apply IH1 in Hrun as (s1 & w1 & Hk1 & Hl1 & Ha1 & Hb1); auto.
    eexists _, w1. split; [exact Hk1|]. split; [now constructor|].
    split; auto.
  - simpl in Hrun. destruct (at_word_boundary s); [|discriminate].
    exists s, []. repeat split; auto. constructor.
  - simpl in Hrun. destruct (after s) eqn:Ha; [|discriminate].
    exists s, []. repeat split; auto. constructor.
Qed.

End MatcherSound.

Lemma match_at_sound r b a m :
  bounds_ok r = true -> match_at r b a = Some m ->
  lang r (whole m) /\ index m = length b /\ exists rest, a = whole m ++ rest.
Proof.
  unfold match_at. intros Hwf Hm.
  destruct (run r (MState b a None) (fun s => Some s)) as [s'|] eqn:Hrun;
    [|discriminate].
  injection Hm as <-. cbn [whole index].
  apply run_sound in Hrun as (s1 & w & Hk & Hl & Ha & Hb); auto.
  injection Hk as ->. cbn [before after] in *.
  rewrite Hb, last_consumed_app. eauto.
Qed.

Lemma matchAll_from_sound r a : forall skip b m,
  bounds_ok r = true ->
  In m (matchAll_from r skip b a) ->
  lang r (whole m) /\ occurs_in (whole m) (rev b ++ a).
Proof.
  induction a as [|c a IH]; intros skip b m Hwf Hin.
  - destruct skip; simpl in Hin; [|contradiction].
    destruct (match_at r b []) as [m0|] eqn:Hm; [|contradiction].
    destruct Hin as [<-|[]].
    apply match_at_sound in Hm as (Hl & _ & rest & Hrest); auto.
    split; [assumption|]. exists (rev b), rest. now rewrite <- Hrest.
  - assert (Hnext : forall sk,
      In m (matchAll_from r sk (c :: b) a) ->
      lang r (whole m) /\ occurs_in (whole m) (rev b ++ c :: a)).
    { intros sk H. apply IH in H as [Hl Ho]; auto. split; [assumption|].
      simpl in Ho. now rewrite <- app_assoc in Ho. }
    destruct skip; simpl in Hin; [|eauto].
    destruct (match_at r b (c :: a)) as [m0|] eqn:Hm; [|eauto].
    destruct Hin as [<-|Hin]; [|eauto].
    apply match_at_sound in Hm as (Hl & _ & rest & Hrest); auto.
    split; [assumption|]. exists (rev b), rest. now rewrite <- Hrest.
Qed.

Lemma matchAll_sound r text m :
  bounds_ok r = true -> In m (matchAll text r) ->
  lang r (whole m) /\ occurs_in (whole m) text.
Proof. intros Hwf Hin. now apply matchAll_from_sound in Hin. Qed.

Lemma lang_lit (w v : str) : lang (lit w) v -> ci_eq v w = true.
Proof.
  revert v. induction w as [|c w IH]; intros v H.
  - inversion H. reflexivity.
  - destruct w as [|c2 w].
    + inversion H; subst. unfold ci_eq. simpl.
      simpl in H1. now rewrite H1.
    + change (lit (c :: c2 :: w)) with (Seq (Atom (Chr c)) (lit (c2 :: w))) in H.
      inversion H; subst. inversion H2; subst. apply IH in H4.
      unfold ci_eq in *. simpl in *. simpl in H1. now rewrite H1.
Qed.

(** ** The URLs of a bio *)

Lemma ci_eq_app a b c d :
  ci_eq a b = true -> ci_eq c d = true -> ci_eq (a ++ c) (b ++ d) = true.
Proof.
  unfold ci_eq. intros H1 H2. apply str_eqb_eq in H1, H2.
  apply str_eqb_eq. rewrite !map_app. congruence.
Qed.

Lemma url_char_class c :
  atom_match (Nope [Space; One (ch ")")]) c = url_char c.
Proof.
  apply eqb_prop.
  apply (for_all_code_units
           (fun c => Bool.eqb (atom_match (Nope [Space; One (ch ")")]) c)
                       (url_char c)));
    [vm_compute; reflexivity|].
  intros c' Hc'. unfold atom_match, class_has_i, url_char.
  destruct (no_case_above Hc') as [-> ->]. rewrite !orb_diag.
  unfold class_has. simpl.
  destruct (is_space c'), (N.eqb c' (ch ")")); reflexivity.
Qed.

Lemma URL_RE_words w :
  lang URL_RE w ->
  exists scheme body,
    w = scheme ++ body /\
    (ci_eq scheme (js "http://") = true \/
     ci_eq scheme (js "https://") = true) /\
    body <> [] /\ forallb url_char body = true.
Proof.
  unfold URL_RE, opt, plus. intros H.
  inversion H as [| |? ? w0 wA H0 HA| | | | | |]; subst. clear H.
  inversion H0; subst. clear H0.
  inversion HA as [| |? ? w1 wB H1 HB| | | | | |]; subst. clear HA.
  inversion HB as [| |? ? w2 wC H2 HC| | | | | |]; subst. clear HB.
  inversion HC as [| |? ? w3 w4 H3 H4| | | | | |]; subst. clear HC.
  apply (@lang_lit (js "http")) in H1. apply (@lang_lit (js "://")) in H3.
  inversion H2 as [| | | | |? ? ? ? Hs _ Hmax| | |]; subst. clear H2.
  inversion H4 as [| | | | |? ? ? ? Hbody Hmin _| | |]; subst. clear H4.
  exists (w1 ++ w2 ++ w3), w4. repeat split.
  - simpl. now rewrite <- !app_assoc.
  - destruct w2 as [|c [|c2 w2]]; [left|right|simpl in Hmax; lia].
    + simpl. change (js "http://") with (js "http" ++ js "://").
      now apply ci_eq_app.
    + change (js "https://") with (js "http" ++ (js "s" ++ js "://")).
      apply ci_eq_app; [assumption|]. apply ci_eq_app; [|assumption].
      cbn [forallb atom_match] in Hs. rewrite andb_true_r in Hs.
      unfold ci_eq. cbn [map str_eqb].
      change (map canonicalize (js "s")) with [canonicalize (ch "s")].
      cbn [str_eqb]. now rewrite Hs.
  - destruct w4; [simpl in Hmin; lia|discriminate].
  - rewrite <- Hbody. apply forallb_ext_eq. intros c.
    symmetry. apply url_char_class.
Qed.

Section UrlShape.

Context {RT : JsRuntime}.

Lemma urls_found text u :
  In u (urls (extractConnectionsFromBio text)) -> In u (find_urls text).
Proof.
  simpl. rewrite (dedup_filter_first_occurrences (find_urls text) [] []).
  - intros H. now apply first_occurrences_keys in H.
  - intros k. simpl. tauto.
Qed.

(** Every URL of the result stands in the text as it is returned,
    begins with [http://] or [https://] in some letter case, and goes on
    with at least one character, none of them white space or [)]. *)
Theorem urls_well_formed (text u : str) :
  In u (urls (extractConnectionsFromBio text)) ->
  occurs_in u text /\
  exists scheme body,
    u = scheme ++ body /\
    (ci_eq scheme (js "http://") = true \/
     ci_eq scheme (js "https://") = true) /\
    body <> [] /\ forallb url_char body = true.
Proof.
  intros Hin. apply urls_found in Hin. unfold find_urls in Hin.
  apply in_map_iff in Hin as (m & <- & Hm).
  apply matchAll_sound in Hm as [Hl Ho]; [|reflexivity].
  split; [assumption|]. now apply URL_RE_words.
Qed.

End UrlShape.

(** ** The handles of a bio *)

Lemma run_seq_sound R (r1 r2 : regex) (s : mstate) (k : mstate -> option R) x :
  bounds_ok r1 = true -> run (r1 >> r2)%re s k = Some x ->
  exists s1 w, run r2 s1 k = Some x /\ after s = w ++ after s1.
Proof.
  intros Hwf Hrun. rewrite run_seq in Hrun.
  apply run_sound in Hrun as (s1 & w & Hk & _ & Ha & _); eauto.
Qed.

Lemma lit_bounds_ok w : bounds_ok (lit w) = true.
Proof.
  induction w as [|c w IH]; [reflexivity|].
  destruct w as [|c2 w]; [reflexivity|].
  change (lit (c :: c2 :: w)) with (Seq (Atom (Chr c)) (lit (c2 :: w))).
  cbn [bounds_ok andb]. exact IH.
Qed.

Lemma alts_bounds_ok ws : bounds_ok (alts ws) = true.
Proof.
  induction ws as [|w ws IH]; [reflexivity|].
  destruct ws as [|w2 ws]; [apply lit_bounds_ok|].
  change (alts (w :: w2 :: ws)) with (Alt (lit w) (alts (w2 :: ws))).
  cbn [bounds_ok]. now rewrite lit_bounds_ok, IH.
Qed.

Lemma platform_max p : In p PLATFORMS -> 2 <= handle_max p.
Proof.
  intros Hp. repeat (destruct Hp as [<-|Hp]; [simpl; lia|]). destruct Hp.
Qed.

(** What the capture of a platform pattern holds. *)
Lemma capture_sound p (s : mstate) x :
  2 <= handle_max p ->
  run (capture_re p) s (fun s' => Some s') = Some x ->
  exists h rest,
    cap1 x = Some h /\ after s = h ++ rest /\
    2 <= length h <= handle_max p /\
    forallb (class_has_i (handle_class p)) h = true.
Proof.
  intros Hmax Hrun. unfold capture_re, between in Hrun.
  rewrite run_seq, run_group, run_rep in Hrun.
  apply rep_bounded in Hrun
    as (taken & rest & Ha & Hall & Hmin & Hlen & Hk);
    [|now apply Nat.leb_le].
  cbn [run before after cap1] in Hk.
  destruct (at_word_boundary _); [|discriminate].
  injection Hk as <-. cbn [cap1]. unfold consumed_since. cbn [before].
  rewrite last_consumed_app. exists taken, rest. auto.
Qed.

Lemma platform_match_at p b a m :
  In p PLATFORMS -> match_at (platform_re p) b a = Some m ->
  exists h,
    group1 m = Some h /\ occurs_in h a /\
    2 <= length h <= handle_max p /\
    forallb (class_has_i (handle_class p)) h = true.
Proof.
  intros Hp Hm. unfold match_at in Hm.
  destruct (run (platform_re p) _ _) as [x|] eqn:Hrun; [|discriminate].
  injection Hm as <-. cbn [group1].
  unfold platform_re in Hrun.
  apply run_seq_sound in Hrun as (s1 & w1 & Hrun & Ha1); [|reflexivity].
  apply run_seq_sound in Hrun as (s2 & w2 & Hrun & Ha2);
    [|apply alts_bounds_ok].
  apply run_seq_sound in Hrun as (s3 & w3 & Hrun & Ha3); [|reflexivity].
  apply run_seq_sound in Hrun as (s4 & w4 & Hrun & Ha4); [|reflexivity].
  apply run_seq_sound in Hrun as (s5 & w5 & Hrun & Ha5); [|reflexivity].
  cbn [after] in Ha1.
  assert (Hcap : exists s6 w6,
    run (capture_re p) s6 (fun s' => Some s') = Some x /\
    after s5 = w6 ++ after s6).
  { destruct (takes_at p).
    - apply run_seq_sound in Hrun; [exact Hrun|reflexivity].
    - exists s5, []. auto. }
  destruct Hcap as (s6 & w6 & Hcap & Ha6).
  apply capture_sound in Hcap as (h & rest & Hc & Hh & Hlen & Hall);
    [|now apply platform_max].
  exists h. repeat split; try tauto.
  exists (w1 ++ w2 ++ w3 ++ w4 ++ w5 ++ w6), rest.
  rewrite Ha1, Ha2, Ha3, Ha4, Ha5, Ha6, Hh. now rewrite <- !app_assoc.
Qed.

Lemma occurs_in_suffix h pre a : occurs_in h a -> occurs_in h (pre ++ a).
Proof.
  intros (p1 & p2 & ->). exists (pre ++ p1), p2. now rewrite <- app_assoc.
Qed.

Section HandleShape.

Context {RT : JsRuntime}.

(** Every entry of the match list belongs to one platform of the table
    and has a handle (never [undefined]) that stands in the text as it
    is returned, is made of characters of the platform's class, and has
    between 2 and the platform's maximum of characters. *)
Theorem handles_well_formed (text : str) (e : found_entry) :
  In e (found (extractConnectionsFromBio text)) ->
  exists p h,
    In p PLATFORMS /\ type e = label p /\ handle e = Some h /\
    occurs_in h text /\
    2 <= length h <= handle_max p /\
    forallb (class_has_i (handle_class p)) h = true.
Proof.
  rewrite found_flat_map, SOCIAL_PATTERNS_table. intros Hin.
  apply in_flat_map in Hin as (sp & Hsp & He).
  apply in_map_iff in Hsp as (p & <- & Hp).
  unfold contribution in He. cbn [re name platform_pattern] in He.
  destruct (match_ text (platform_re p)) as [m|] eqn:Hm; [|destruct He].
  destruct He as [<-|[]].
  apply match_leftmost in Hm as [Hm _]. unfold match_pos in Hm.
  apply platform_match_at in Hm as (h & Hg & Ho & Hlen & Hall); auto.
  exists p, h. repeat split; auto; try tauto.
  rewrite <- (firstn_skipn (index m) text). now apply occurs_in_suffix.
Qed.

End HandleShape.

(** ** Which field [parseRolimonsTarget] returns *)

Lemma id_match_pos s j :
  option_map group1 (match_pos PLAYER_ID_RE s j)
  = if marked numeric s j then Some (Some (segment_at s j)) else None.
Proof.
  rewrite PLAYER_ID_RE_shape, player_match_pos by exact digit_no_slash.
  cbv zeta. unfold marked. fold (segment_at s j).
  now rewrite <- andb_assoc, id_segment_ok.
Qed.

Lemma name_match_pos s j :
  option_map group1 (match_pos PLAYER_NAME_RE s j)
  = if marked word_like s j then Some (Some (segment_at s j)) else None.
Proof.
  rewrite PLAYER_NAME_RE_shape, player_match_pos by exact word_no_slash.
  cbv zeta. unfold marked. fold (segment_at s j).
  now rewrite <- andb_assoc, name_segment_ok.
Qed.

Section Search.

Variables (r : regex) (ok : str -> bool) (s : str).
Hypothesis at_pos : forall j,
  option_map group1 (match_pos r s j)
  = if marked ok s j then Some (Some (segment_at s j)) else None.

Lemma search_hit m :
  match_ s r = Some m ->
  exists j, marked ok s j = true /\ group1 m = Some (segment_at s j) /\
    forall i, i < j -> marked ok s i = false.
Proof.
  intros Hm. apply match_leftmost in Hm as [Hat Hbefore].
  exists (index m). pose proof (at_pos (index m)) as H.
  rewrite Hat in H. cbn [option_map] in H.
  destruct (marked ok s (index m)); [|discriminate].
  injection H as H. repeat split; auto.
  intros i Hi. pose proof (at_pos i) as H'. rewrite (Hbefore i Hi) in H'.
  cbn [option_map] in H'. destruct (marked ok s i); [discriminate|reflexivity].
Qed.

Lemma search_miss :
  match_ s r = None -> forall i, marked ok s i = false.
Proof.
  intros Hm i. pose proof (at_pos i) as H.
  rewrite (match_none _ _ i Hm) in H. cbn [option_map] in H.
  destruct (marked ok s i); [discriminate|reflexivity].
Qed.

End Search.

(** The result of [parseRolimonsTarget] is decided by the marker
    occurrences from the left: [userId] is the segment after the first
    marker followed by a numeric segment, wherever it stands; without
    such a marker, [username] is the segment after the first marker
    followed by a segment of letters, digits and underscores; without
    that either, the result is empty.  The returned value is always a
    whole segment. *)
Theorem parse_target_table (s : str) :
  match parseRolimonsTarget s with
  | Target (Some id) None =>
      exists j, marked numeric s j = true /\ id = segment_at s j /\
        forall i, i < j -> marked numeric s i = false
  | Target None (Some n) =>
      (forall i, marked numeric s i = false) /\
      exists j, marked word_like s j = true /\ n = segment_at s j /\
        forall i, i < j -> marked word_like s i = false
  | Target None None => forall i, marked word_like s i = false
  | _ => False
  end.
Proof.
  unfold parseRolimonsTarget.
  destruct (match_ s PLAYER_ID_RE) as [m|] eqn:Hid.
  - apply (@search_hit PLAYER_ID_RE numeric s (id_match_pos s)) in Hid as (j & Hj & -> & Hfirst).
    eauto.
  - pose proof (@search_miss PLAYER_ID_RE numeric s (id_match_pos s) Hid) as Hnum.
    destruct (match_ s PLAYER_NAME_RE) as [m|] eqn:Hname.
    + apply (@search_hit PLAYER_NAME_RE word_like s (name_match_pos s)) in Hname as (j & Hj & -> & Hfirst).
      split; eauto.
    + exact (@search_miss PLAYER_NAME_RE word_like s (name_match_pos s) Hname).
Qed.

(** ** De-duplication keeps what is already distinct *)

Lemma first_occurrences_distinct (key : str -> str) l : forall earlier,
  NoDup (map key l) ->
  (forall u, In u l -> ~ In (key u) (map key earlier)) ->
  first_occurrences key earlier l = l.
Proof.
  induction l as [|u l IH]; intros earlier Hnd Hnew; [reflexivity|].
  simpl in Hnd. inversion Hnd as [|? ? Hu Hnd']; subst. simpl.
  destruct (existsb _ earlier) eqn:Hex.
  - apply seen_earlier in Hex. exfalso. apply (Hnew u); simpl; auto.
  - f_equal. apply IH; [assumption|].
    intros v Hv Hin. rewrite map_app, in_app_iff in Hin.
    destruct Hin as [Hin|[Hin|[]]].
    + apply (Hnew v); simpl; auto.
    + apply Hu. rewrite Hin. now apply in_map.
Qed.

Section DedupStable.

Context {RT : JsRuntime}.

Lemma dedup_filter_distinct l :
  NoDup (map toLowerCase l) -> dedup_filter [] l = l.
Proof.
  intros Hnd. rewrite (dedup_filter_first_occurrences l [] []).
  - apply first_occurrences_distinct; auto.
  - intros k. simpl. tauto.
Qed.

(** When the URLs found in the text differ pairwise even with letter
    case ignored, the result has all of them, in the order of the text;
    and filtering the URL list of any result once more changes
    nothing. *)
Theorem urls_kept_when_distinct (text : str) :
  (NoDup (map toLowerCase (find_urls text)) ->
   urls (extractConnectionsFromBio text) = find_urls text) /\
  dedup_filter [] (urls (extractConnectionsFromBio text))
  = urls (extractConnectionsFromBio text).
Proof.
  split.
  - intros Hnd. simpl. now apply dedup_filter_distinct.
  - apply dedup_filter_distinct. simpl.
    rewrite (dedup_filter_first_occurrences (find_urls text) [] [])
      by (intros k; simpl; tauto).
    apply first_occurrences_NoDup.
Qed.

End DedupStable.

(** ** The calls of a request *)

Section Calls.

Context {RT : JsRuntime}.
Variable E : env.

Lemma usernameToId_calls (u : str) :
  wp (usernameToId E u) (fun _ tr => tr = [CallUsernames u])
                        (fun _ tr => tr = [CallUsernames u]).
Proof.
  unfold usernameToId, wp, bind, await.
  destruct (usernames_api E u) as [data|e]; [|reflexivity].
  destruct (negb (truthy _)); [reflexivity|].
  unfold lift, ret. destruct (ToString _); reflexivity.
Qed.

Lemma getUserInfo_calls (uid : str) :
  wp (getUserInfo E uid)
     (fun info tr => tr = [CallUsers uid] /\ users_api E uid = Resolved info)
     (fun _ tr => tr = [CallUsers uid]).
Proof.
  unfold getUserInfo, wp, await.
  destruct (users_api E uid); auto.
Qed.

Lemma getConnections_calls (uid : str) :
  wp (getConnections E uid)
     (fun v tr => tr = connection_calls E uid /\
                  fst (getConnections E uid) = Ok v)
     (fun _ _ => False).
Proof.
  unfold wp, connection_calls, getConnections.
  destruct (str_eqb (ROBLOX_COOKIE E) []); [split; reflexivity|].
  unfold try_catch, bind, await, ret.
  destruct (social_links_api E uid) as [data|e]; [|split; reflexivity].
  destruct (negb (isArray data)); split; reflexivity.
Qed.

Lemma sendDiscordEmbed_calls name userId text parsedBio connections :
  wp (sendDiscordEmbed E name userId text parsedBio connections)
     (fun _ tr => exists payload, tr = webhook_calls E payload)
     (fun _ tr => tr = [] /\ WEBHOOK_URL E <> []).
Proof.
  unfold sendDiscordEmbed, webhook_calls.
  destruct (str_eqb (WEBHOOK_URL E) []) eqn:Hurl.
  { exists JNull. reflexivity. }
  assert (Hset : WEBHOOK_URL E <> []) by now apply str_eqb_neq.
  apply wp_bind, wp_lift. destruct (ToString name); [|auto].
  apply wp_bind, wp_lift. destruct (ToString userId); [|auto].
  apply wp_bind.
  apply wp_conseq with (Q := fun _ tr => tr = [])
                       (Qe := fun _ tr => tr = []).
  { destruct connections as [| | | | |[|c cs]|]; cbv beta iota;
      try (now apply wp_ret).
    apply wp_bind, wp_lift.
    destruct (map_result _ _); [now apply wp_ret|reflexivity]. }
  { intros fields tr ->. cbn [app].
    unfold wp, try_catch, bind, await, ret. destruct (webhook E _); cbn [app]; eauto. }
  intros e tr ->. auto.
Qed.

(** Every request ends in one of the five ways of [check_run]. *)
Lemma check_runs hint params :
  wp (check E hint params) (check_run E) (fun _ _ => False).
Proof.
  unfold check. apply wp_try_catch.
  apply wp_conseq with
    (Q := check_run E)
    (Qe := fun _ tr =>
       (identity_calls tr) \/
       (exists pre uid, identity_calls pre /\ tr = pre ++ [CallUsers uid]) \/
       (exists pre uid, identity_calls pre /\ WEBHOOK_URL E <> [] /\
          tr = pre ++ [CallUsers uid] ++ connection_calls E uid));
    [|auto|].
  2:{ intros e tr H. apply wp_ret. rewrite app_nil_r.
      destruct H as [H|[(pre & uid & Hpre & ->)|(pre & uid & Hpre & Hw & ->)]].
      - now apply run_no_identity.
      - now apply run_no_profile.
      - now apply run_no_notification. }
  apply wp_bind.
  apply wp_conseq with (Q := fun _ tr => tr = []) (Qe := fun _ tr => tr = []).
  { destruct (truthy (get params "rolimonsUrl")); [|reflexivity].
    apply wp_bind, wp_lift. destruct (ToString _); reflexivity. }
  2:{ intros e tr ->. left. now left. }
  intros ids tr1 ->. cbn [app].
  destruct (negb (truthy (snd ids)) && negb (truthy (fst ids))).
  { apply wp_ret. now apply run_refused. }
  apply wp_bind.
  apply wp_conseq with (Q := fun _ tr => identity_calls tr)
                       (Qe := fun _ tr => identity_calls tr).
  { destruct (negb (truthy (snd ids))).
    - apply wp_bind, wp_lift. destruct (ToString _); [|now left].
      eapply wp_conseq; [apply usernameToId_calls| |];
        intros ? tr ->; right; cbn [app]; eauto.
    - apply wp_ret. now left. }
  2:{ intros e tr H. now left. }
  intros userId pre Hpre.
  apply wp_bind, wp_lift.
  destruct (ToString userId) as [uid|] eqn:Huid;
    [|left; now rewrite app_nil_r].
  apply wp_bind. eapply wp_conseq; [apply getUserInfo_calls| |].
  2:{ intros e tr ->. right. left. exists pre, uid. auto. }
  intros info tr2 [-> Hinfo].
  destruct (or_ (get info "description") (JStr [])) eqn:Hbio;
    try (apply wp_throw; right; left; exists pre, uid;
         rewrite ?app_nil_r; auto).
  apply wp_bind, wp_lift.
  apply wp_bind. eapply wp_conseq; [apply getConnections_calls| |];
    [|intros ? ? []].
  intros connections tr3 [-> Hconn].
  apply wp_bind. eapply wp_conseq; [apply sendDiscordEmbed_calls| |].
  2:{ intros e tr [-> Hw]. right. right. exists pre, uid.
      rewrite ?app_nil_r. cbn [app]. auto. }
  intros _ tr4 [payload ->].
  apply wp_bind, wp_lift. apply wp_ret.
  rewrite ?app_nil_r. cbn [app].
  eapply run_done with (fallback := fst ids) (info := info); eauto.
  reflexivity.
Qed.

Lemma check_run_of hint params :
  exists r calls, check E hint params = (Ok r, calls) /\ check_run E r calls.
Proof.
  pose proof (check_runs hint params) as H. unfold wp in H.
  destruct (check E hint params) as [[r|e] calls]; [eauto|contradiction].
Qed.

End Calls.

Section Handlers.

Context {RT : JsRuntime}.
Variable E : env.

Lemma on_both_handlers (P : M http_response -> Prop) params :
  (forall hint p, P (check E hint p)) ->
  Forall P [get_check E params; post_check E params].
Proof. intros H. repeat constructor; apply H. Qed.

Lemma check_run_rank r calls :
  check_run E r calls -> subseq (map call_rank calls) [0; 1; 2; 3].
Proof.
  intros H. destruct H as [r|r pre ? Hpre|r pre uid ? Hpre|r pre uid ? Hpre ?
                           |r pre ? ? uid ? ? ? payload ? Hpre];
    try destruct Hpre as [-> | [u ->]];
    unfold connection_calls, webhook_calls;
    try destruct (str_eqb (ROBLOX_COOKIE E) []);
    try destruct (str_eqb (WEBHOOK_URL E) []);
    cbn [map app call_rank];
    repeat first [apply subseq_nil | apply subseq_keep | apply subseq_skip].
Qed.

Lemma check_run_same_id r calls u1 u2 :
  check_run E r calls ->
  In (CallUsers u1) calls -> In (CallSocialLinks u2) calls -> u1 = u2.
Proof.
  intros H. destruct H as [r|r pre ? Hpre|r pre uid ? Hpre|r pre uid ? Hpre ?
                           |r pre ? ? uid ? ? ? payload ? Hpre];
    try destruct Hpre as [-> | [u ->]];
    unfold connection_calls, webhook_calls;
    try destruct (str_eqb (ROBLOX_COOKIE E) []);
    try destruct (str_eqb (WEBHOOK_URL E) []);
    cbn [app In]; intuition (try discriminate; congruence).
Qed.

(** The outbound calls of a request are made in the order user-name
    lookup, profile, social links, webhook, each at most once; and the
    social links are asked for the user whose profile was asked for. *)
Theorem calls_in_order (params : json) :
  Forall (fun answer =>
            subseq (map call_rank (snd answer)) [0; 1; 2; 3] /\
            forall u1 u2,
              In (CallUsers u1) (snd answer) ->
              In (CallSocialLinks u2) (snd answer) -> u1 = u2)
         [get_check E params; post_check E params].
Proof.
  apply on_both_handlers. intros hint p.
  destruct (check_run_of E hint p) as (r & calls & -> & Hrun). cbn [snd].
  split; [now apply check_run_rank with r|].
  intros u1 u2. now apply check_run_same_id with r.
Qed.

Lemma check_run_webhook r calls :
  check_run E r calls ->
  (exists payload, In (CallWebhook payload) calls) <->
  status r = 200 /\ WEBHOOK_URL E <> [].
Proof.
  intros H. destruct H as [r Hs|r pre Hs Hpre|r pre uid Hs Hpre
                           |r pre uid Hs Hpre Hw
                           |r pre ? ? uid ? ? ? payload Hs Hpre];
    try destruct Hpre as [-> | [u ->]];
    unfold connection_calls, webhook_calls;
    try destruct (str_eqb (ROBLOX_COOKIE E) []);
    try (destruct (str_eqb (WEBHOOK_URL E) []) eqn:Hurl;
         [apply str_eqb_eq in Hurl|apply str_eqb_neq in Hurl]);
    cbn [app In]; rewrite Hs;
    (split;
     [intros [q Hq]; intuition (try discriminate; try congruence)
     |intros [? ?]; try discriminate; try contradiction;
      exists payload; auto 6]).
Qed.

(** The webhook is posted to exactly when the request is answered with
    status 200 and a webhook address is configured. *)
Theorem notified_iff_success (params : json) :
  Forall (fun answer =>
            exists r, fst answer = Ok r /\
              ((exists payload, In (CallWebhook payload) (snd answer)) <->
               status r = 200 /\ WEBHOOK_URL E <> []))
         [get_check E params; post_check E params].
Proof.
  apply on_both_handlers. intros hint p.
  destruct (check_run_of E hint p) as (r & calls & -> & Hrun).
  exists r. split; [reflexivity|]. now apply check_run_webhook.
Qed.

Lemma check_run_connections r calls uid :
  check_run E r calls -> In (CallSocialLinks uid) calls ->
  ROBLOX_COOKIE E <> [] /\ In (CallUsers uid) calls.
Proof.
  intros H. destruct H as [r|r pre ? Hpre|r pre uid' ? Hpre|r pre uid' ? Hpre ?
                           |r pre ? ? uid' ? ? ? payload ? Hpre];
    try destruct Hpre as [-> | [u ->]];
    unfold connection_calls, webhook_calls;
    try (destruct (str_eqb (ROBLOX_COOKIE E) []) eqn:Hcookie;
         [apply str_eqb_eq in Hcookie|apply str_eqb_neq in Hcookie]);
    try destruct (str_eqb (WEBHOOK_URL E) []);
    cbn [app In];
    intuition (try discriminate; try congruence).
Qed.

(** The social-links endpoint is asked only when a session cookie is
    configured, and only for a user whose profile the request asked
    for. *)
Theorem connections_asked_with_cookie (params : json) :
  Forall (fun answer =>
            forall uid, In (CallSocialLinks uid) (snd answer) ->
              ROBLOX_COOKIE E <> [] /\ In (CallUsers uid) (snd answer))
         [get_check E params; post_check E params].
Proof.
  apply on_both_handlers. intros hint p.
  destruct (check_run_of E hint p) as (r & calls & -> & Hrun). cbn [snd].
  intros uid. now apply check_run_connections with r.
Qed.

Lemma check_run_success r calls :
  check_run E r calls -> status r = 200 ->
  exists uid info text,
    ToString (get (body r) "userId") = Ok uid /\
    In (CallUsers uid) calls /\
    users_api E uid = Resolved info /\
    or_ (get info "description") (JStr []) = JStr text /\
    get (body r) "bio" = JStr text /\
    get (body r) "parsed" = parsed_json (extractConnectionsFromBio text) /\
    fst (getConnections E uid) = Ok (get (body r) "connections") /\
    (ROBLOX_COOKIE E <> [] -> In (CallSocialLinks uid) calls).
Proof.
  intros H Hs.
  destruct H as [r Hs'|r pre Hs' Hpre|r pre uid Hs' Hpre|r pre uid Hs' Hpre ?
                 |r pre userId fallback uid info text connections payload
                    _ Hpre Hbody Huid Hinfo Hbio Hconn];
    try congruence.
  exists uid, info, text. rewrite Hbody.
  change (get (JObj ?l) "userId") with userId.
  repeat split; auto.
  - apply in_or_app. right. now left.
  - intros Hcookie. apply in_or_app. right. cbn [app]. right.
    apply in_or_app. left. unfold connection_calls.
    destruct (str_eqb (ROBLOX_COOKIE E) []) eqn:Hc; [|now left].
    now apply str_eqb_eq in Hc.
Qed.

(** A 200 answer is about one user: the [userId] of the body is the one
    whose profile was fetched, [bio] is the description of that profile
    (or the empty string), [parsed] is what [extractConnectionsFromBio]
    finds in that bio, and [connections] is what [getConnections]
    returns for that user, whose social links were asked for when a
    session cookie is configured. *)
Theorem success_is_consistent (params : json) :
  Forall (fun answer =>
            forall r, fst answer = Ok r -> status r = 200 ->
            exists uid info text,
              ToString (get (body r) "userId") = Ok uid /\
              In (CallUsers uid) (snd answer) /\
              users_api E uid = Resolved info /\
              or_ (get info "description") (JStr []) = JStr text /\
              get (body r) "bio" = JStr text /\
              get (body r) "parsed"
              = parsed_json (extractConnectionsFromBio text) /\
              fst (getConnections E uid) = Ok (get (body r) "connections") /\
              (ROBLOX_COOKIE E <> [] ->
               In (CallSocialLinks uid) (snd answer)))
         [get_check E params; post_check E params].
Proof.
  apply on_both_handlers. intros hint p.
  destruct (check_run_of E hint p) as (r & calls & -> & Hrun).
  cbn [fst snd]. intros r' [= <-]. now apply check_run_success.
Qed.

Lemma post_params (body : json) key :
  truthy (get body key) = true -> or_ body (JObj []) = body.
Proof.
  intros H. apply or_object with key. intros Hu. now rewrite Hu in H.
Qed.

Lemma check_user_name_unknown hint params name data :
  truthy (get params "rolimonsUrl") = false ->
  truthy (get params "userId") = false ->
  truthy (get params "username") = true ->
  ToString (get params "username") = Ok name ->
  usernames_api E name = Resolved data ->
  truthy (get (get0 (get data "data")) "id") = false ->
  check E hint params
  = (Ok (HttpResponse 500 (error_body (js "Username not found: " ++ name))),
     [CallUsernames name]).
Proof.
  intros Hurl Hid Hname Hstr Hdata Hnone.
  unfold check, usernameToId, bind, try_catch, lift, await, throw, ret.
  rewrite Hurl. cbn [fst snd]. rewrite Hid, Hname. cbn [negb andb].
  rewrite Hstr, Hdata. cbn [fst snd app]. rewrite Hnone. reflexivity.
Qed.

(** A request by user name whose lookup answers with no entry (or an
    entry without an id) is answered with status 500 and the message
    [Username not found: NAME], after that one call. *)
Theorem unknown_user_name_reported (params : json) (name : str) (data : json) :
  truthy (get params "rolimonsUrl") = false ->
  truthy (get params "userId") = false ->
  truthy (get params "username") = true ->
  ToString (get params "username") = Ok name ->
  usernames_api E name = Resolved data ->
  truthy (get (get0 (get data "data")) "id") = false ->
  Forall (fun answer =>
            answer
            = (Ok (HttpResponse 500
                     (error_body (js "Username not found: " ++ name))),
               [CallUsernames name]))
         [get_check E params; post_check E params].
Proof.
  intros Hurl Hid Hname Hstr Hdata Hnone.
  repeat constructor; unfold get_check, post_check;
    rewrite ?(post_params params "username") by assumption;
    now apply check_user_name_unknown with data.
Qed.

Lemma check_profile_rejected hint params uid e :
  truthy (get params "rolimonsUrl") = false ->
  truthy (get params "userId") = true ->
  ToString (get params "userId") = Ok uid ->
  users_api E uid = Rejected e ->
  check E hint params
  = (Ok (HttpResponse 500 (error_body (message e))), [CallUsers uid]).
Proof.
  intros Hurl Hid Hstr Hdown.
  unfold check, getUserInfo, bind, try_catch, lift, await, throw, ret.
  rewrite Hurl. cbn [fst snd]. rewrite Hid. cbn [negb andb].
  rewrite Hstr. cbn [fst snd app]. rewrite Hdown. reflexivity.
Qed.

(** A request by user id whose profile fetch is rejected is answered
    with status 500 and the message of the rejection; the profile
    endpoint is the only one called. *)
Theorem profile_failure_reported (params : json) (uid : str) (e : exn) :
  truthy (get params "rolimonsUrl") = false ->
  truthy (get params "userId") = true ->
  ToString (get params "userId") = Ok uid ->
  users_api E uid = Rejected e ->
  Forall (fun answer =>
            answer
            = (Ok (HttpResponse 500 (error_body (message e))),
               [CallUsers uid]))
         [get_check E params; post_check E params].
Proof.
  intros Hurl Hid Hstr Hdown.
  repeat constructor; unfold get_check, post_check;
    rewrite ?(post_params params "userId") by assumption;
    now apply check_profile_rejected.
Qed.

Lemma check_rolimons hint params s :
  get params "rolimonsUrl" = JStr s ->
  let parsed := parseRolimonsTarget s in
  check E hint params
  = check E hint
      (plain_request
         (if truthy (parsed_username parsed)
             && negb (truthy (get params "username"))
          then parsed_username parsed else get params "username")
         (if truthy (parsed_userId parsed) then parsed_userId parsed
          else get params "userId")).
Proof.
  intros Hurl parsed. unfold check. rewrite Hurl.
  change (get (plain_request ?u ?i) "username") with u.
  change (get (plain_request ?u ?i) "userId") with i.
  change (get (plain_request ?u ?i) "rolimonsUrl") with JUndefined.
  destruct s as [|c s]; reflexivity.
Qed.

Lemma handlers_rolimons params s :
  get params "rolimonsUrl" = JStr s ->
  let parsed := parseRolimonsTarget s in
  let direct :=
    plain_request
      (if truthy (parsed_username parsed)
          && negb (truthy (get params "username"))
       then parsed_username parsed else get params "username")
      (if truthy (parsed_userId parsed) then parsed_userId parsed
       else get params "userId") in
  get_check E params = get_check E direct /\
  post_check E params = post_check E direct.
Proof.
  intros Hurl parsed direct. unfold get_check, post_check.
  rewrite (or_object params "rolimonsUrl") by congruence.
  change (or_ direct (JObj [])) with direct.
  split; now apply check_rolimons.
Qed.

Lemma parse_target_id s id :
  userId (parseRolimonsTarget s) = Some id ->
  id <> [] /\ username (parseRolimonsTarget s) = None.
Proof.
  unfold parseRolimonsTarget. rewrite PLAYER_ID_RE_shape.
  destruct (match_ s (player_re [Digit])) as [m|] eqn:Hm; cbn [userId username].
  - intros Hid.
    apply player_match_inv in Hm as (seg & j & Hg & Hok & _);
      [|exact digit_no_slash].
    apply andb_prop in Hok as [Hne _]. apply negb_true_iff, str_eqb_neq in Hne.
    split; congruence.
  - destruct (match_ s PLAYER_NAME_RE); cbn [userId]; discriminate.
Qed.

Lemma parse_target_name s name :
  username (parseRolimonsTarget s) = Some name ->
  name <> [] /\ userId (parseRolimonsTarget s) = None.
Proof.
  unfold parseRolimonsTarget. rewrite PLAYER_NAME_RE_shape.
  destruct (match_ s PLAYER_ID_RE); cbn [userId username]; [discriminate|].
  destruct (match_ s (player_re (_ :: _ :: _))) as [m|] eqn:Hm;
    cbn [userId username]; [|discriminate].
  intros Hname.
  apply player_match_inv in Hm as (seg & j & Hg & Hok & _);
    [|exact word_no_slash].
  apply andb_prop in Hok as [Hne _]. apply negb_true_iff, str_eqb_neq in Hne.
  split; congruence.
Qed.

(** A [rolimonsUrl] that holds a numeric player id is handled as a
    request for that [userId]: a [userId] parameter sent along is
    overridden, the [username] parameter is kept. *)
Theorem rolimons_id_overrides (params : json) (s id : str) :
  get params "rolimonsUrl" = JStr s ->
  userId (parseRolimonsTarget s) = Some id ->
  let direct := plain_request (get params "username") (JStr id) in
  get_check E params = get_check E direct /\
  post_check E params = post_check E direct.
Proof.
  intros Hurl Hid. pose proof (handlers_rolimons params Hurl) as H.
  cbv zeta in H. destruct (parse_target_id _ Hid) as [Hne Hname].
  unfold parsed_userId, parsed_username in H. rewrite Hid, Hname in H.
  cbn [truthy andb] in H. apply str_eqb_neq in Hne. rewrite Hne in H.
  exact H.
Qed.

(** A [rolimonsUrl] that holds a player name is handled as a request for
    that user name only when no [username] parameter is sent along; the
    [userId] parameter is kept, and a user id takes precedence over the
    name as in every request. *)
Theorem rolimons_name_fills (params : json) (s name : str) :
  get params "rolimonsUrl" = JStr s ->
  username (parseRolimonsTarget s) = Some name ->
  let direct :=
    plain_request (or_ (get params "username") (JStr name))
                  (get params "userId") in
  get_check E params = get_check E direct /\
  post_check E params = post_check E direct.
Proof.
  intros Hurl Hname. pose proof (handlers_rolimons params Hurl) as H.
  cbv zeta in H. destruct (parse_target_name _ Hname) as [Hne Hid].
  unfold parsed_userId, parsed_username in H. rewrite Hid, Hname in H.
  cbn [truthy andb] in H. apply str_eqb_neq in Hne. rewrite Hne in H.
  cbn [negb andb] in H. unfold or_.
  destruct (truthy (get params "username")); exact H.
Qed.

(** A [rolimonsUrl] in which no player id or name is found is ignored:
    the request is handled by its [username] and [userId] parameters
    alone. *)
Theorem rolimons_unparsed_ignored (params : json) (s : str) :
  get params "rolimonsUrl" = JStr s ->
  parseRolimonsTarget s = Target None None ->
  let direct :=
    plain_request (get params "username") (get params "userId") in
  get_check E params = get_check E direct /\
  post_check E params = post_check E direct.
Proof.
  intros Hurl Hnone. pose proof (handlers_rolimons params Hurl) as H.
  cbv zeta in H. rewrite Hnone in H. exact H.
Qed.

End Handlers.

(** ** The notification *)

Section Notification.

Context {RT : JsRuntime}.
Variable E : env.

Lemma sendDiscordEmbed_payload name userId text parsedBio connections :
  wp (sendDiscordEmbed E name userId text parsedBio connections)
     (fun _ tr => forall payload, In (CallWebhook payload) tr ->
                  within_limits E payload)
     (fun _ tr => tr = []).
Proof.
  unfold sendDiscordEmbed.
  destruct (str_eqb (WEBHOOK_URL E) []); [intros payload []|].
  apply wp_bind, wp_lift. destruct (ToString name) as [u|]; [|reflexivity].
  apply wp_bind, wp_lift. destruct (ToString userId) as [i|]; [|reflexivity].
  cbv zeta.
  assert (Hsend : forall fields,
    within_limits E
      (JObj [(js "embeds",
              JArr [JObj [(js "title", JStr (js "Roblox Profile Scan"));
                          (js "color", JNum (number_of_N 44678%N));
                          (js "fields", JArr fields);
                          (js "timestamp", JStr (now E))]])]) ->
    wp (try_catch
          (_ <- await
                  (CallWebhook
                     (JObj [(js "embeds",
                        JArr [JObj [(js "title", JStr (js "Roblox Profile Scan"));
                                    (js "color", JNum (number_of_N 44678%N));
                                    (js "fields", JArr fields);
                                    (js "timestamp", JStr (now E))]])]))
                  (webhook E
                     (JObj [(js "embeds",
                        JArr [JObj [(js "title", JStr (js "Roblox Profile Scan"));
                                    (js "color", JNum (number_of_N 44678%N));
                                    (js "fields", JArr fields);
                                    (js "timestamp", JStr (now E))]])])) ;;
           ret tt)
          (fun _ => ret tt))
       (fun _ tr => forall payload, In (CallWebhook payload) tr ->
                    within_limits E payload)
       (fun _ tr => tr = [])).
  { intros fields Hok. unfold wp, try_catch, bind, await, ret.
    destruct (webhook E _); cbn [app In];
      intros payload [[= <-]|[]]; exact Hok. }
  assert (Hlimit : forall fields c,
    length fields <= 4 -> 2 <= length fields ->
    (forall field, In field (skipn 2 fields) ->
       exists value, field_value field = Some value /\ length value <= 1024) ->
    length c <= 1024 ->
    within_limits E
      (JObj [(js "embeds",
              JArr [JObj [(js "title", JStr (js "Roblox Profile Scan"));
                          (js "color", JNum (number_of_N 44678%N));
                          (js "fields",
                           JArr (fields ++
                                 [embed_field "Roblox Connections (API)" c
                                    false]));
                          (js "timestamp", JStr (now E))]])])).
  { intros fields c Hmax Hmin Hfields Hc.
    eexists. split; [reflexivity|].
    rewrite length_app, last_last. cbn [length]. repeat split; try lia.
    intros field Hin. rewrite skipn_app in Hin. apply in_app_or in Hin.
    destruct Hin as [Hin|Hin]; [now apply Hfields|].
    replace (2 - length fields) with 0 in Hin by lia.
    destruct Hin as [<-|[]]. exists c. split; [reflexivity|assumption]. }
  assert (Hshort : length (js "None or not visible to this account.") <= 1024).
  { vm_compute. lia. }
  apply wp_bind.
  destruct (found parsedBio) as [|f fs] eqn:Hfound;
    destruct (urls parsedBio) as [|x xs] eqn:Hurls;
    (destruct connections as [| | | | |[|c cs]|];
     [..|apply wp_bind, wp_lift;
         destruct (map_result show_connection (c :: cs)) as [pretty|];
         [|reflexivity]|]);
    apply wp_ret;
    (eapply wp_conseq;
     [apply Hsend, Hlimit;
      [cbn [length app]; lia|cbn [length app]; lia
      |cbn [skipn app In]; intros field Hf;
       repeat (destruct Hf as [<-|Hf];
               [eexists; split; [reflexivity|apply firstn_le_length]|]);
       destruct Hf
      |first [exact Hshort|apply firstn_le_length]]
     |intros ? tr H; exact H|intros ? tr H; exact H]).
Qed.

(** Whenever the webhook is posted to, the payload is one embed with
    three to five fields, the last of which is the connections field,
    and every field after the first two has a value of at most 1024 code
    units. *)
Theorem embed_within_limits name userId text parsedBio connections payload :
  In (CallWebhook payload)
     (snd (sendDiscordEmbed E name userId text parsedBio connections)) ->
  within_limits E payload.
Proof.
  pose proof (sendDiscordEmbed_payload name userId text parsedBio connections)
    as H.
  unfold wp in H.
  destruct (sendDiscordEmbed E name userId text parsedBio connections)
    as [[[]|e] tr]; cbn [snd].
  - apply H.
  - rewrite H. intros [].
Qed.

End Notification.

(** ** The connections step *)

Section Connections.

Context {RT : JsRuntime}.
Variable E : env.

Lemma getConnections_shape (uid : str) :
  exists items,
    fst (getConnections E uid) = Ok (JArr items) /\
    (snd (getConnections E uid) = [] \/
     snd (getConnections E uid) = [CallSocialLinks uid]).
Proof.
  unfold getConnections.
  destruct (str_eqb (ROBLOX_COOKIE E) []); [exists []; auto|].
  unfold try_catch, bind, await, ret.
  destruct (social_links_api E uid) as [data|e]; [|exists []; auto].
  destruct data; cbn [isArray negb fst snd app]; eauto.
Qed.

(** [getConnections] never throws and always returns an array, after at
    most one call; so the [connections] of every 200 answer are an
    array. *)
Theorem connections_always_array (params : json) :
  (forall uid, exists items,
     fst (getConnections E uid) = Ok (JArr items) /\
     (snd (getConnections E uid) = [] \/
      snd (getConnections E uid) = [CallSocialLinks uid])) /\
  Forall (fun answer =>
            forall r, fst answer = Ok r -> status r = 200 ->
              isArray (get (body r) "connections") = true)
         [get_check E params; post_check E params].
Proof.
  split; [exact getConnections_shape|].
  apply on_both_handlers. intros hint p.
  destruct (check_run_of E hint p) as (r & calls & -> & Hrun).
  cbn [fst]. intros r' [= <-] Hs.
  destruct (check_run_success Hrun Hs)
    as (uid & info & text & _ & _ & _ & _ & _ & _ & Hconn & _).
  destruct (getConnections_shape uid) as (items & Hitems & _).
  rewrite Hitems in Hconn. injection Hconn as <-. reflexivity.
Qed.

End Connections.

(** ** Keyword mentions and the other labels *)

Lemma lang_alts (ws : list str) (w : str) :
  ws <> [] -> lang (alts ws) w -> exists kw, In kw ws /\ ci_eq w kw = true.
Proof.
  induction ws as [|k ws IH]; intros Hne H; [contradiction|].
  destruct ws as [|k2 ws].
  - apply lang_lit in H. exists k. split; [now left|assumption].
  - change (alts (k :: k2 :: ws)) with (Alt (lit k) (alts (k2 :: ws))) in H.
    inversion H as [| | |? ? ? Hl|? ? ? Hr| | | |]; subst.
    + apply (@lang_lit k) in Hl. exists k. split; [now left|assumption].
    + destruct (IH ltac:(discriminate) Hr) as (kw & Hin & Heq).
      exists kw. split; [now right|assumption].
Qed.

Lemma platform_keywords p : In p PLATFORMS -> keywords p <> [].
Proof.
  intros Hp. repeat (destruct Hp as [<-|Hp]; [discriminate|]). destruct Hp.
Qed.

(** A match of a platform's pattern begins with one of its keywords. *)
Lemma platform_match_keyword p b a m :
  In p PLATFORMS -> match_at (platform_re p) b a = Some m ->
  exists kw, In kw (keywords p) /\ prefix_ci kw a = true.
Proof.
  intros Hp Hm. unfold match_at in Hm.
  destruct (run (platform_re p) _ _) as [x|] eqn:Hrun; [|discriminate].
  clear Hm. unfold platform_re in Hrun.
  rewrite run_seq in Hrun.
  apply run_sound in Hrun as (s1 & w1 & Hrun & Hb & Ha1 & _); [|reflexivity].
  inversion Hb; subst w1. rewrite run_seq in Hrun.
  apply run_sound in Hrun as (s2 & w2 & _ & Hl & Ha2 & _);
    [|apply alts_bounds_ok].
  apply lang_alts in Hl as (kw & Hin & Heq); [|now apply platform_keywords].
  exists kw. split; [assumption|].
  cbn [after app] in Ha1. rewrite Ha1, Ha2. now apply ci_eq_prefix.
Qed.

Section OtherLabels.

Context {RT : JsRuntime}.

(** A platform none of whose keywords stands in the text has no
    entry. *)
Lemma no_keyword_no_entry (q : platform) (text : str) :
  In q PLATFORMS ->
  (forall kw, In kw (keywords q) -> find_ci kw text = None) ->
  entries_of (label q) (found (extractConnectionsFromBio text)) = [].
Proof.
  intros Hq Hnone. rewrite found_flat_map.
  change (label q) with (name (platform_pattern q)).
  rewrite entries_of_contribution.
  - unfold contribution. cbn [re platform_pattern].
    rewrite match_all_none; [reflexivity|].
    intros j. unfold match_pos.
    destruct (match_at (platform_re q) _ _) as [m|] eqn:Hm; [|reflexivity].
    apply platform_match_keyword in Hm as (kw & Hin & Hpre); [|assumption].
    now rewrite (find_ci_none _ _ (Hnone kw Hin)) in Hpre.
  - rewrite platform_order_names. apply platform_order_NoDup.
  - now apply platform_pattern_listed.
Qed.

(** C2, as amended: take a platform, one of its keywords other than
    [instagram], written in any letter case, a separator (white space,
    optionally [:] or [-] and more white space, optionally [@] where the
    pattern has it) and a handle the pattern captures whole (class
    characters, length within the bounds, not starting with [-], ending
    in a word character, followed by nothing or by a character outside
    the class).  If the text has this mention after a prefix that ends
    outside a word and in which the platform's pattern does not match,
    the match list has exactly one entry for the platform, and it
    carries that handle; and it has no entry for any platform none of
    whose keywords stands anywhere in the text, in any letter case.  A
    platform whose keyword does stand in the text, be it inside the
    handle, can have an entry of its own. *)
Theorem keyword_mention (p : platform) (kw written : str) (sep : separator)
    (h pre rest : str) :
  In p PLATFORMS ->
  In kw (keywords p) -> kw <> js "instagram" ->
  ci_eq written kw = true ->
  separator_ok p sep = true ->
  handle_ok p h = true ->
  ends_handle p rest = true ->
  is_word (last pre 0%N) = false ->
  let text := pre ++ written ++ separator_text sep ++ h ++ rest in
  (forall j, j < length pre -> match_pos (platform_re p) text j = None) ->
  entries_of (label p) (found (extractConnectionsFromBio text))
  = [FoundEntry (label p) (Some h)] /\
  forall q, In q PLATFORMS ->
    (forall kw', In kw' (keywords q) -> find_ci kw' text = None) ->
    entries_of (label q) (found (extractConnectionsFromBio text)) = [].
Proof.
  intros Hp Hkw Hne Heq Hsep Hh Hrest Hpre text Hfirst. split.
  - subst text. eapply mention_found; eassumption.
  - intros q. apply no_keyword_no_entry.
Qed.

End OtherLabels.

(** ** A failing connections fetch *)

Section OwnFetch.

Context {RT : JsRuntime}.
Variable E : env.

Lemma own_fetch_fails_app calls1 calls2 :
  own_fetch_fails E (calls1 ++ calls2) ->
  own_fetch_fails E calls1 /\ own_fetch_fails E calls2.
Proof.
  intros H. split; intros uid Hin; apply H, in_or_app; auto.
Qed.

Lemma snd_bind {A B} (m : M A) (f : A -> M B) :
  snd (bind m f)
  = match fst m with Ok a => snd m ++ snd (f a) | Throw _ => snd m end.
Proof.
  unfold bind. destruct m as [[a|e] tr]; cbn [fst snd]; [|reflexivity].
  destruct (f a); reflexivity.
Qed.

Lemma snd_try_catch {A} (m : M A) (h : exn -> M A) :
  snd (try_catch m h)
  = match fst m with Ok a => snd m | Throw e => snd m ++ snd (h e) end.
Proof.
  unfold try_catch. destruct m as [[a|e] tr]; cbn [fst snd]; [reflexivity|].
  destruct (h e); reflexivity.
Qed.

(** Two computations end the same way when the calls made so far and
    by the first one leave the fetch failing. *)
Lemma agree_bind {A B} pre (m m' : M A) (f f' : A -> M B) :
  (own_fetch_fails E (pre ++ snd m) -> fst m = fst m') ->
  (forall a, fst m = Ok a ->
     own_fetch_fails E ((pre ++ snd m) ++ snd (f a)) ->
     fst (f a) = fst (f' a)) ->
  own_fetch_fails E (pre ++ snd (bind m f)) ->
  fst (bind m f) = fst (bind m' f').
Proof.
  intros Hm Hf H. rewrite snd_bind in H. rewrite !fst_bind.
  destruct m as [[a|e] tr]; cbn [fst snd] in *.
  - rewrite app_assoc in H. rewrite <- Hm by now apply own_fetch_fails_app in H.
    now apply Hf.
  - now rewrite <- Hm.
Qed.

Lemma agree_try_catch {A} pre (m m' : M A) (h : exn -> M A) :
  (own_fetch_fails E (pre ++ snd m) -> fst m = fst m') ->
  own_fetch_fails E (pre ++ snd (try_catch m h)) ->
  fst (try_catch m h) = fst (try_catch m' h).
Proof.
  intros Hm H. rewrite snd_try_catch in H. rewrite !fst_try_catch.
  destruct m as [[a|e] tr]; cbn [fst snd] in *.
  - now rewrite <- Hm.
  - rewrite app_assoc in H. now rewrite <- Hm by now apply own_fetch_fails_app in H.
Qed.

(** When the fetch of the request fails, the answer is the one given
    in the world whose social-links endpoint answers with an empty
    array. *)
Lemma check_own_fetch hint params :
  own_fetch_fails E (snd (check E hint params)) ->
  fst (check E hint params) = fst (check (with_no_connections E) hint params).
Proof.
  unfold check. apply (agree_try_catch []).
  apply agree_bind; [reflexivity|]. intros ids _.
  destruct (negb (truthy (snd ids)) && negb (truthy (fst ids)));
    [reflexivity|].
  apply agree_bind; [reflexivity|]. intros userId _.
  apply agree_bind; [reflexivity|]. intros uid Huid.
  apply agree_bind; [reflexivity|]. intros info _.
  destruct (or_ (get info "description") (JStr [])); try reflexivity.
  apply agree_bind; [reflexivity|]. intros uid' Huid'.
  apply agree_bind.
  { intros H. rewrite getConnections_fails, getConnections_empty;
      [reflexivity|].
    apply H. cbn [lift fst snd] in Huid, Huid'.
    assert (uid' = uid) as -> by congruence.
    rewrite !in_app_iff. left. left. right. now left. }
  intros connections _.
  apply agree_bind; [reflexivity|]. intros _ _.
  reflexivity.
Qed.

Lemma wp_both {A} (m : M A) Q1 Q2 Qe1 Qe2 :
  wp m Q1 Qe1 -> wp m Q2 Qe2 ->
  wp m (fun a tr => Q1 a tr /\ Q2 a tr) (fun e tr => Qe1 e tr /\ Qe2 e tr).
Proof. unfold wp. destruct m as [[a|e] tr]; auto. Qed.

(** With no connections to show, the notification step cannot throw
    once the user name is a text and the user id has one. *)
Lemma sendDiscordEmbed_nothing_to_format name userId uid text parsedBio :
  ToString userId = Ok uid ->
  fst (sendDiscordEmbed E (JStr name) userId text parsedBio (JArr []))
  = Ok tt.
Proof.
  intros Huid. unfold sendDiscordEmbed.
  destruct (str_eqb (WEBHOOK_URL E) []); [reflexivity|].
  erewrite fst_bind_ok by reflexivity.
  erewrite fst_bind_ok by (cbn [lift fst]; exact Huid).
  erewrite fst_bind_ok by reflexivity.
  rewrite fst_try_catch, fst_bind. unfold await. cbn [fst].
  destruct (webhook E _); reflexivity.
Qed.

Lemma identity_calls_no_profile pre uid :
  identity_calls pre -> ~ In (CallUsers uid) pre.
Proof. intros [-> | [u ->]] Hin; [destruct Hin|]. now destruct Hin. Qed.

Lemma profile_call_unique pre uid uid' payload :
  identity_calls pre ->
  In (CallUsers uid')
     (pre ++ [CallUsers uid] ++ connection_calls E uid
          ++ webhook_calls E payload) ->
  uid' = uid.
Proof.
  intros Hpre Hin. apply in_app_or in Hin as [Hin|Hin].
  { now apply identity_calls_no_profile in Hin. }
  destruct Hin as [[= ->]|Hin]; [reflexivity|].
  unfold connection_calls, webhook_calls in Hin.
  destruct (str_eqb (ROBLOX_COOKIE E) []), (str_eqb (WEBHOOK_URL E) []);
    cbn [app In] in Hin; intuition discriminate.
Qed.

End OwnFetch.

(** ** After the profile *)

Section LaterSteps.

Context {RT : JsRuntime}.
Variable E : env.

Lemma no_profile_call_later uid payload userId :
  ~ In (CallUsers userId) (connection_calls E uid ++ webhook_calls E payload).
Proof.
  unfold connection_calls, webhook_calls.
  destruct (str_eqb (ROBLOX_COOKIE E) []), (str_eqb (WEBHOOK_URL E) []);
    cbn [app In]; intuition discriminate.
Qed.

Lemma no_profile_call_connections uid userId :
  ~ In (CallUsers userId) (connection_calls E uid).
Proof.
  unfold connection_calls.
  destruct (str_eqb (ROBLOX_COOKIE E) []); cbn [In]; intuition discriminate.
Qed.

(** Every request whose profile is fetched ends as [after_profile]
    says. *)
Lemma check_later_steps hint params :
  wp (check E hint params)
     (fun r calls =>
        forall uid info,
          In (CallUsers uid) calls -> users_api E uid = Resolved info ->
          exists userId fallback,
            ToString userId = Ok uid /\
            requested E params calls userId fallback /\
            after_profile E userId fallback info uid r)
     (fun _ _ => False).
Proof.
  set (P := fun (r : http_response) (calls : list event) =>
        forall uid info,
          In (CallUsers uid) calls -> users_api E uid = Resolved info ->
          exists userId fallback,
            ToString userId = Ok uid /\
            requested E params calls userId fallback /\
            after_profile E userId fallback info uid r).
  assert (Hnone : forall r calls, identity_calls calls -> P r calls).
  { intros r calls Hc uid info Hin. now apply identity_calls_no_profile in Hin. }
  unfold check. apply wp_try_catch.
  apply wp_conseq with
    (Q := P)
    (Qe := fun e calls => P (HttpResponse 500 (error_body (message e))) calls);
    [|auto|].
  2:{ intros e tr H. apply wp_ret. now rewrite app_nil_r. }
  apply wp_bind.
  apply wp_conseq with
    (Q := fun ids tr =>
       tr = [] /\
       (fst ids = get params "username" \/
        exists s, ToString (get params "rolimonsUrl") = Ok s /\
                  fst ids = parsed_username (parseRolimonsTarget s)) /\
       (snd ids = get params "userId" \/
        exists s, ToString (get params "rolimonsUrl") = Ok s /\
                  snd ids = parsed_userId (parseRolimonsTarget s)))
    (Qe := fun _ tr => tr = []).
  { destruct (truthy (get params "rolimonsUrl")); [|apply wp_ret; auto].
    apply wp_bind, wp_lift.
    destruct (ToString (get params "rolimonsUrl")) as [s|] eqn:Hs;
      [|reflexivity].
    apply wp_ret. cbn [fst snd app]. split; [reflexivity|]. split.
    - destruct (truthy (parsed_username (parseRolimonsTarget s))
                && negb (truthy (get params "username"))); eauto.
    - destruct (truthy (parsed_userId (parseRolimonsTarget s))); eauto. }
  2:{ intros e tr ->. apply Hnone. now left. }
  intros ids tr1 (-> & Hname & Hid0). cbn [app].
  destruct (negb (truthy (snd ids)) && negb (truthy (fst ids))).
  { apply wp_ret. apply Hnone. now left. }
  apply wp_bind.
  apply wp_conseq with
    (Q := fun userId tr =>
       identity_calls tr /\
       (userId = snd ids \/
        exists name, In (CallUsernames name) tr /\
                     fst (usernameToId E name) = Ok userId))
    (Qe := fun _ tr => identity_calls tr).
  { destruct (negb (truthy (snd ids))).
    - apply wp_bind, wp_lift. destruct (ToString (fst ids)) as [name|];
        [|now left].
      eapply wp_conseq;
        [apply wp_both; [apply usernameToId_calls|apply wp_outcome]| |].
      + intros userId tr [-> Hout]. cbn [app]. split.
        * right. eauto.
        * right. exists name. split; [now left|assumption].
      + intros e tr [-> _]. cbn [app]. right. eauto.
    - apply wp_ret. split; [now left|now left]. }
  2:{ intros e tr H. now apply Hnone. }
  intros userId pre [Hpre Hid].
  apply wp_bind, wp_lift.
  destruct (ToString userId) as [uid|] eqn:Huid;
    [|apply Hnone; now rewrite app_nil_r].
  apply wp_bind. unfold getUserInfo at 1. unfold wp at 1, await.
  destruct (users_api E uid) as [info|e] eqn:Hinfo.
  2:{ intros uid' info' Hin Hinfo'. cbn [app] in Hin.
      apply in_app_or in Hin as [Hin|Hin];
        [now apply identity_calls_no_profile in Hin|].
      destruct Hin as [[= <-]|[]]. congruence. }
  assert (Hfin : forall r rest,
    (forall u, ~ In (CallUsers u) rest) ->
    after_profile E userId (fst ids) info uid r ->
    P r (pre ++ CallUsers uid :: rest)).
  { intros r rest Hrest Hafter uid' info' Hin Hinfo'.
    assert (uid' = uid) as ->.
    { apply in_app_or in Hin as [Hin|Hin];
        [now apply identity_calls_no_profile in Hin|].
      destruct Hin as [[= <-]|Hin]; [reflexivity|]. now apply Hrest in Hin. }
    assert (info' = info) as -> by congruence.
    exists userId, (fst ids). split; [assumption|]. split; [|assumption].
    split; [exact Hname|].
    destruct Hid as [->|(name & Hin' & Hout)].
    - destruct Hid0 as [H0|H0]; [now left|right; now left].
    - right. right. exists name. split; [|assumption].
      apply in_or_app. now left. }
  destruct (or_ (get info "description") (JStr [])) as [| | | |text| |]
    eqn:Hbio;
    try (apply wp_throw; rewrite ?app_nil_r; cbn [app]; apply Hfin;
         [intros u []|unfold after_profile; now rewrite Hbio]).
  apply wp_bind, wp_lift.
  apply wp_bind. eapply wp_conseq; [apply getConnections_calls| |];
    [|intros ? ? []].
  intros connections tr3 [-> Hconn].
  apply wp_bind.
  eapply wp_conseq;
    [apply wp_both; [apply sendDiscordEmbed_calls|apply wp_outcome]| |].
  - intros [] tr4 [[payload ->] Hsend].
    apply wp_bind, wp_lift. apply wp_ret.
    rewrite ?app_nil_r. cbn [app]. apply Hfin.
    + intros u. apply no_profile_call_later.
    + unfold after_profile. rewrite Hbio. exists connections.
      split; [assumption|]. now rewrite Hsend.
  - intros e tr4 [[-> _] Hsend].
    rewrite ?app_nil_r. cbn [app]. apply Hfin.
    + intros u. apply no_profile_call_connections.
    + unfold after_profile. rewrite Hbio. exists connections.
      split; [assumption|]. now rewrite Hsend.
Qed.

End LaterSteps.

(** ** The answers of [/check] *)

Section Answers.

Context {RT : JsRuntime}.
Variable E : env.

Lemma get_or_object (v : json) key : get (or_ v (JObj [])) key = get v key.
Proof.
  destruct v; unfold or_, truthy;
    repeat match goal with
           | |- context [if ?b then _ else _] => destruct b
           end; reflexivity.
Qed.

Lemma requested_or_object params calls userId fallback :
  requested E (or_ params (JObj [])) calls userId fallback ->
  requested E params calls userId fallback.
Proof. unfold requested. now rewrite !get_or_object. Qed.

Lemma check_later hint params r calls :
  check E hint params = (Ok r, calls) ->
  forall uid info,
    In (CallUsers uid) calls -> users_api E uid = Resolved info ->
    exists userId fallback,
      ToString userId = Ok uid /\
      requested E params calls userId fallback /\
      after_profile E userId fallback info uid r.
Proof.
  intros Hrun. pose proof (check_later_steps E hint params) as H.
  unfold wp in H. now rewrite Hrun in H.
Qed.

(** A request whose own connections fetch fails, with a profile that
    has a name and a bio, is answered 200 with no connections. *)
Lemma check_fetch_failed hint params r calls uid info text name :
  check E hint params = (Ok r, calls) ->
  In (CallUsers uid) calls -> users_api E uid = Resolved info ->
  or_ (get info "description") (JStr []) = JStr text ->
  get info "name" = JStr name -> name <> [] ->
  fetch_fails E uid ->
  exists userId,
    ToString userId = Ok uid /\
    r = HttpResponse 200
          (JObj [(js "userId", userId);
                 (js "username", JStr name);
                 (js "bio", JStr text);
                 (js "parsed", parsed_json (extractConnectionsFromBio text));
                 (js "connections", JArr [])]).
Proof.
  intros Hrun Hin Hinfo Hbio Hname Hne Hfail.
  destruct (check_later _ _ Hrun _ Hin Hinfo)
    as (userId & fallback & Huid & _ & Hafter).
  exists userId. split; [assumption|].
  unfold after_profile in Hafter. rewrite Hbio, Hname in Hafter.
  assert (Hname' :
    or_ (or_ (JStr name) fallback) (JStr (js "Unknown")) = JStr name).
  { assert (Htn : truthy (JStr name) = true).
    { simpl. now apply negb_true_iff, str_eqb_neq. }
    unfold or_. now rewrite !Htn. }
  rewrite Hname' in Hafter.
  destruct Hafter as (connections & Hconn & Hsend).
  rewrite getConnections_fails in Hconn by assumption.
  injection Hconn as <-.
  now erewrite sendDiscordEmbed_nothing_to_format in Hsend by exact Huid.
Qed.

Lemma check_own_fetch_empty hint params r :
  own_fetch_fails E (snd (check E hint params)) ->
  fst (check E hint params) = Ok r -> status r = 200 ->
  get (body r) "connections" = JArr [].
Proof.
  intros Hown Hr Hs.
  destruct (check_run_of E hint params) as (r' & calls & Hrun & Hcr).
  rewrite Hrun in Hown, Hr. cbn [fst snd] in Hown, Hr. injection Hr as ->.
  destruct (check_run_success Hcr Hs)
    as (uid & info & text & _ & Hin & _ & _ & _ & _ & Hconn & _).
  rewrite getConnections_fails in Hconn by now apply Hown.
  now injection Hconn.
Qed.

(** C6: whenever the private-connections fetch fails (no session
    cookie, a rejected exchange such as a 401, 403 or 429 answer or a
    time-out, or a body that is not an array), [getConnections] returns
    the empty list.  When the fetch fails for the user a [/check]
    request asks for, whatever the endpoint does for other users, the
    response is the one given when the endpoint answers with an empty
    array, and a 200 response carries the empty connections list; a
    request whose profile is fetched, with a name and a bio, is then
    answered 200 with the empty connections list, however the user was
    named; and so is, with the [userId] as sent, a request that names
    the user by id. *)
Theorem connections_failure_swallowed :
  (forall userId, fetch_fails E userId ->
     fst (getConnections E userId) = Ok (JArr [])) /\
  (forall params answer answer',
     (answer = get_check E params /\
      answer' = get_check (with_no_connections E) params) \/
     (answer = post_check E params /\
      answer' = post_check (with_no_connections E) params) ->
     own_fetch_fails E (snd answer) ->
     fst answer = fst answer' /\
     (forall r, fst answer = Ok r -> status r = 200 ->
        get (body r) "connections" = JArr [])) /\
  (forall params answer,
     answer = get_check E params \/ answer = post_check E params ->
     forall uid info text name,
       In (CallUsers uid) (snd answer) ->
       fetch_fails E uid ->
       users_api E uid = Resolved info ->
       or_ (get info "description") (JStr []) = JStr text ->
       get info "name" = JStr name -> name <> [] ->
       exists userId,
         ToString userId = Ok uid /\
         fst answer
         = Ok (HttpResponse 200
                 (JObj [(js "userId", userId);
                        (js "username", JStr name);
                        (js "bio", JStr text);
                        (js "parsed",
                         parsed_json (extractConnectionsFromBio text));
                        (js "connections", JArr [])]))) /\
  (forall params uid info text name,
     get params "rolimonsUrl" = JUndefined ->
     get params "userId" = JStr uid -> uid <> [] ->
     fetch_fails E uid ->
     users_api E uid = Resolved info ->
     get info "description" = JStr text ->
     get info "name" = JStr name -> name <> [] ->
     let answer :=
       Ok (HttpResponse 200
             (JObj [(js "userId", JStr uid);
                    (js "username", JStr name);
                    (js "bio", JStr text);
                    (js "parsed",
                     parsed_json (extractConnectionsFromBio text));
                    (js "connections", JArr [])])) in
     fst (get_check E params) = answer /\
     fst (post_check E params) = answer).
Proof.
  split; [apply getConnections_fails|]. split; [|split].
  - intros params answer answer' [[-> ->] | [-> ->]] Hown;
      unfold get_check, post_check in *;
      (split; [now apply check_own_fetch|]);
      intros r; now apply check_own_fetch_empty.
  - intros params answer Hans uid info text name Hin Hfail Hinfo Hbio Hname Hne.
    assert (Hgo : forall hint p,
      In (CallUsers uid) (snd (check E hint p)) ->
      exists userId,
        ToString userId = Ok uid /\
        fst (check E hint p)
        = Ok (HttpResponse 200
                (JObj [(js "userId", userId);
                       (js "username", JStr name);
                       (js "bio", JStr text);
                       (js "parsed",
                        parsed_json (extractConnectionsFromBio text));
                       (js "connections", JArr [])]))).
    { intros hint p Hin'.
      destruct (check_run_of E hint p) as (r & calls & Hrun & _).
      rewrite Hrun in Hin' |- *. cbn [fst snd] in *.
      destruct (check_fetch_failed _ _ Hrun Hin' Hinfo Hbio Hname Hne Hfail)
        as (userId & Huid & ->).
      eauto. }
    destruct Hans as [-> | ->]; now apply Hgo.
  - intros params uid info text name Hurl Hid Huid Hfail Hinfo Hbio Hname Hne
      answer.
    split.
    + unfold get_check. eapply check_given_user_id; eauto.
    + unfold post_check. rewrite (or_object params "userId") by congruence.
      eapply check_given_user_id; eauto.
Qed.

(** C8, as amended: a GET or POST request to [/check] (for POST, one
    whose body [express.json()] has parsed or found empty) that supplies
    none of [username], [userId] and [rolimonsUrl] is answered with
    status 400 and an error message, without any outbound call.  Every
    such request is answered, either with status 200 and an object of
    exactly the shape [{ userId, username, bio, parsed: { found, urls },
    connections }], or with status 400 or 500 and an error object.  A
    request whose profile was fetched gets the 200 object made of the
    requested id, the profile and the connections, unless a later step
    throws (parsing a bio that is not a text, building the
    notification); it then gets the 500 error object with the message
    of what was thrown. *)
Theorem check_answers (params : json) :
  (none_supplied params ->
   get_check E params
   = (Ok (HttpResponse 400
            (error_body
               (js "Provide ?username=NAME or ?userId=ID or ?rolimonsUrl="))),
      []) /\
   post_check E params
   = (Ok (HttpResponse 400
            (error_body (js "Provide username, userId, or rolimonsUrl"))),
      [])) /\
  (forall answer,
     answer = get_check E params \/ answer = post_check E params ->
     exists r calls,
       answer = (Ok r, calls) /\
       (success_response r \/ error_response r) /\
       (profile_resolved E calls ->
        success_response r \/ (status r = 500 /\ error_object (body r))) /\
       (forall uid info,
          In (CallUsers uid) calls -> users_api E uid = Resolved info ->
          exists userId fallback,
            ToString userId = Ok uid /\
            requested E params calls userId fallback /\
            after_profile E userId fallback info uid r)).
Proof.
  destruct (check_answer_shapes E params) as [Hnone Hshape].
  split; [exact Hnone|].
  intros answer Hans.
  destruct (Hshape answer Hans) as (r & calls & Hrun & Hone & Htwo).
  exists r, calls. repeat split; try assumption.
  intros uid info Hin Hinfo. subst answer.
  destruct Hans as [Hans | Hans]; unfold get_check, post_check in Hans;
    symmetry in Hans;
    destruct (check_later _ _ Hans _ Hin Hinfo)
      as (userId & fallback & Huid & Hreq & Hafter);
    exists userId, fallback; (split; [assumption|split; [|assumption]]);
    first [exact Hreq | now apply requested_or_object].
Qed.

End Answers.

(** ** Further runs *)

Section FurtherRuns.

#[local] Existing Instance ascii_runtime.
#[local] Open Scope string_scope.

Lemma urls_well_formed_witness :
  In (js "HTTPS://x.io/a") (urls (extractConnectionsFromBio (js "at (HTTPS://x.io/a) now"))) /\
  occurs_in (js "HTTPS://x.io/a") (js "at (HTTPS://x.io/a) now").
Proof.
  assert (Hin : In (js "HTTPS://x.io/a")
                   (urls (extractConnectionsFromBio (js "at (HTTPS://x.io/a) now")))).
  { vm_compute. left. reflexivity. }
  split; [exact Hin|].
  apply (urls_well_formed (js "at (HTTPS://x.io/a) now") (js "HTTPS://x.io/a") Hin).
Defined.

Lemma handles_well_formed_witness :
  In (FoundEntry (js "Discord") (Some (js "neo#1234")))
     (found (extractConnectionsFromBio (js "dc: neo#1234 !"))) /\
  exists p h,
    In p PLATFORMS /\ type (FoundEntry (js "Discord") (Some (js "neo#1234"))) = label p /\
    handle (FoundEntry (js "Discord") (Some (js "neo#1234"))) = Some h /\
    occurs_in h (js "dc: neo#1234 !") /\
    2 <= length h <= handle_max p /\
    forallb (class_has_i (handle_class p)) h = true.
Proof.
  assert (Hin : In (FoundEntry (js "Discord") (Some (js "neo#1234")))
                   (found (extractConnectionsFromBio (js "dc: neo#1234 !")))).
  { vm_compute. left. reflexivity. }
  split; [exact Hin|].
  apply (@handles_well_formed ascii_runtime (js "dc: neo#1234 !") _ Hin).
Defined.

Lemma urls_kept_when_distinct_witness :
  NoDup (map toLowerCase (find_urls (js "http://a.io/x https://a.io/x"))) /\
  urls (extractConnectionsFromBio (js "http://a.io/x https://a.io/x"))
  = find_urls (js "http://a.io/x https://a.io/x").
Proof.
  assert (Hnd : NoDup (map toLowerCase
                         (find_urls (js "http://a.io/x https://a.io/x")))).
  { vm_compute. repeat constructor; cbn [In]; intuition discriminate. }
  split; [exact Hnd|].
  exact (proj1 (@urls_kept_when_distinct ascii_runtime
                  (js "http://a.io/x https://a.io/x")) Hnd).
Defined.

(** *** Requests *)

Lemma calls_in_order_witness :
  In (CallUsers (js "1"))
     (snd (get_check world_null_entry (obj [("username", JStr (js "builderman"))]))) /\
  In (CallSocialLinks (js "1"))
     (snd (get_check world_null_entry (obj [("username", JStr (js "builderman"))]))) /\
  subseq (map call_rank
            (snd (get_check world_null_entry
                    (obj [("username", JStr (js "builderman"))]))))
         [0; 1; 2; 3].
Proof.
  split; [vm_compute; auto|]. split; [vm_compute; auto|].
  exact (proj1 (Forall_inv
    (calls_in_order world_null_entry
       (obj [("username", JStr (js "builderman"))])))).
Defined.

Lemma notified_iff_success_witness :
  exists payload,
    In (CallWebhook payload)
       (snd (get_check world_unauthorized (obj [("userId", JStr (js "1"))]))).
Proof.
  destruct (Forall_inv
    (notified_iff_success world_unauthorized
       (obj [("userId", JStr (js "1"))]))) as (r & Hr & Hiff).
  apply Hiff. split; [|discriminate].
  vm_compute in Hr. injection Hr as <-. reflexivity.
Defined.

Lemma connections_always_array_witness :
  exists r,
    fst (get_check world_unauthorized (obj [("userId", JStr (js "1"))])) = Ok r /\
    status r = 200 /\
    isArray (get (body r) "connections") = true.
Proof.
  eexists. split; [lazy; reflexivity|]. split; [reflexivity|].
  apply (Forall_inv (proj2
    (connections_always_array world_unauthorized
       (obj [("userId", JStr (js "1"))])))); [lazy|]; reflexivity.
Defined.

Lemma connections_asked_with_cookie_witness :
  In (CallSocialLinks (js "1"))
     (snd (get_check world_unauthorized (obj [("userId", JStr (js "1"))]))) /\
  ROBLOX_COOKIE world_unauthorized <> [] /\
  In (CallUsers (js "1"))
     (snd (get_check world_unauthorized (obj [("userId", JStr (js "1"))]))).
Proof.
  assert (Hin : In (CallSocialLinks (js "1"))
     (snd (get_check world_unauthorized (obj [("userId", JStr (js "1"))])))).
  { vm_compute. auto. }
  split; [exact Hin|].
  exact (Forall_inv
    (connections_asked_with_cookie world_unauthorized
       (obj [("userId", JStr (js "1"))])) (js "1") Hin).
Defined.

Lemma success_is_consistent_witness :
  exists r,
    fst (get_check world_unauthorized (obj [("userId", JStr (js "1"))])) = Ok r /\
    status r = 200 /\
    exists uid info text,
      ToString (get (body r) "userId") = Ok uid /\
      In (CallUsers uid)
         (snd (get_check world_unauthorized (obj [("userId", JStr (js "1"))]))) /\
      users_api world_unauthorized uid = Resolved info /\
      or_ (get info "description") (JStr []) = JStr text /\
      get (body r) "bio" = JStr text /\
      get (body r) "parsed" = parsed_json (extractConnectionsFromBio text) /\
      fst (getConnections world_unauthorized uid)
      = Ok (get (body r) "connections") /\
      (ROBLOX_COOKIE world_unauthorized <> [] ->
       In (CallSocialLinks uid)
          (snd (get_check world_unauthorized (obj [("userId", JStr (js "1"))])))).
Proof.
  eexists. split; [lazy; reflexivity|]. split; [reflexivity|].
  apply (Forall_inv
    (success_is_consistent world_unauthorized
       (obj [("userId", JStr (js "1"))]))); [lazy|]; reflexivity.
Defined.

Lemma unknown_user_name_reported_witness :
  get_check world_no_such_user (obj [("username", JStr (js "nobody"))])
  = (Ok (HttpResponse 500 (error_body (js "Username not found: nobody"))),
     [CallUsernames (js "nobody")]).
Proof.
  apply (Forall_inv
    (@unknown_user_name_reported ascii_runtime world_no_such_user
       (obj [("username", JStr (js "nobody"))]) (js "nobody")
       (obj [("data", JArr [])])
       eq_refl eq_refl eq_refl eq_refl eq_refl eq_refl)).
Defined.

Lemma profile_failure_reported_witness :
  @post_check ascii_runtime world_profile_down (obj [("userId", JNum 7%N)])
  = (Ok (HttpResponse 500
           (error_body (js "Request failed with status code 404"))),
     [CallUsers (js "7")]).
Proof.
  apply (Forall_inv (Forall_inv_tail
    (@profile_failure_reported ascii_runtime world_profile_down
       (obj [("userId", @JNum ascii_runtime 7%N)]) (js "7")
       (@Exn ascii_runtime (js "Request failed with status code 404")
             (Some (404%N, JNull)))
       eq_refl eq_refl eq_refl eq_refl))).
Defined.

Lemma rolimons_id_overrides_witness :
  userId (parseRolimonsTarget (js "https://www.rolimons.com/player/42")) = Some (js "42") /\
  get_check world_null_entry
    (obj [("userId", JStr (js "7"));
          ("rolimonsUrl", JStr (js "https://www.rolimons.com/player/42"))])
  = get_check world_null_entry (plain_request JUndefined (JStr (js "42"))).
Proof.
  split; [vm_compute; reflexivity|].
  apply (@rolimons_id_overrides ascii_runtime world_null_entry
           (obj [("userId", JStr (js "7"));
                 ("rolimonsUrl", JStr (js "https://www.rolimons.com/player/42"))])
           (js "https://www.rolimons.com/player/42") (js "42")).
  - reflexivity.
  - vm_compute. reflexivity.
Defined.

Lemma rolimons_name_fills_witness :
  username (parseRolimonsTarget (js "rolimons.com/player/neo_1")) = Some (js "neo_1") /\
  post_check world_null_entry
    (obj [("username", JStr (js "trinity"));
          ("rolimonsUrl", JStr (js "rolimons.com/player/neo_1"))])
  = post_check world_null_entry
      (plain_request (JStr (js "trinity")) JUndefined).
Proof.
  split; [vm_compute; reflexivity|].
  apply (@rolimons_name_fills ascii_runtime world_null_entry
           (obj [("username", JStr (js "trinity"));
                 ("rolimonsUrl", JStr (js "rolimons.com/player/neo_1"))])
           (js "rolimons.com/player/neo_1") (js "neo_1")).
  - reflexivity.
  - vm_compute. reflexivity.
Defined.

Lemma rolimons_unparsed_ignored_witness :
  parseRolimonsTarget (js "https://www.rolimons.com/games") = Target None None /\
  get_check world_null_entry
    (obj [("rolimonsUrl", JStr (js "https://www.rolimons.com/games"))])
  = get_check world_null_entry (plain_request JUndefined JUndefined).
Proof.
  split; [vm_compute; reflexivity|].
  apply (@rolimons_unparsed_ignored ascii_runtime world_null_entry
           (obj [("rolimonsUrl", JStr (js "https://www.rolimons.com/games"))])
           (js "https://www.rolimons.com/games")).
  - reflexivity.
  - vm_compute. reflexivity.
Defined.

Lemma embed_within_limits_witness :
  exists payload,
    snd (@sendDiscordEmbed ascii_runtime world_null_entry (JStr (js "neo"))
           (JNum 7%N)
           (js "ig: neo_1") (extractConnectionsFromBio (js "ig: neo_1"))
           (JArr []))
    = [CallWebhook payload] /\
    within_limits world_null_entry payload.
Proof.
  eexists. split; [lazy; reflexivity|].
  apply (@embed_within_limits ascii_runtime world_null_entry
           (JStr (js "neo")) (@JNum ascii_runtime 7%N) (js "ig: neo_1")
           (extractConnectionsFromBio (js "ig: neo_1")) (JArr [])).
  vm_compute. left. reflexivity.
Defined.

(** A request whose [rolimonsUrl] has no player and that names nobody
    otherwise is refused before any call. *)
Example unparsed_url_refused :
  get_check world_null_entry
    (obj [("rolimonsUrl", JStr (js "https://www.rolimons.com/games"))])
  = (Ok (HttpResponse 400
           (error_body
              (js "Provide ?username=NAME or ?userId=ID or ?rolimonsUrl="))),
     []).
Proof. vm_compute. reflexivity. Qed.

(** *** Mentions *)

Lemma keyword_mention_witness :
  let p := Platform (js "Discord") [js "discord"; js "dc"] false
             (handle_chars ++ [One (ch "#")]) 37 in
  let q := Platform (js "Twitter") [js "x"; js "twitter"; js "tweet"] true
             handle_chars 30 in
  let text := js "my DC: user#1234 - add me" in
  In p PLATFORMS /\ In q PLATFORMS /\
  (forall kw, In kw (keywords q) -> find_ci kw text = None) /\
  entries_of (label p) (found (extractConnectionsFromBio text))
  = [FoundEntry (label p) (Some (js "user#1234"))] /\
  entries_of (label q) (found (extractConnectionsFromBio text)) = [].
Proof.
  intros p q text.
  assert (Hp : In p PLATFORMS) by (right; right; left; reflexivity).
  assert (Hq : In q PLATFORMS) by (right; left; reflexivity).
  assert (Hnone : forall kw, In kw (keywords q) -> find_ci kw text = None).
  { intros kw [<-|[<-|[<-|[]]]]; reflexivity. }
  split; [exact Hp|]. split; [exact Hq|]. split; [exact Hnone|].
  assert (Hfirst : forall j, j < length (js "my ") ->
            match_pos (platform_re p) text j = None).
  { intros j Hj. destruct j as [|[|[|j]]]; [reflexivity..|].
    simpl in Hj. lia. }
  pose proof (@keyword_mention _ p (js "dc") (js "DC")
                (Separator [] (Some (ch ":", js " ")) false)
                (js "user#1234") (js "my ") (js " - add me")
                Hp (or_intror (or_introl eq_refl))
                ltac:(discriminate) eq_refl eq_refl eq_refl eq_refl eq_refl
                Hfirst) as [Hown Hother].
  split; [exact Hown|]. exact (Hother q Hq Hnone).
Defined.

(** *** Answers of a request *)

Lemma check_answers_witness :
  (none_supplied (obj []) /\
   get_check world_unauthorized (obj [])
   = (Ok (HttpResponse 400
            (error_body
               (js "Provide ?username=NAME or ?userId=ID or ?rolimonsUrl="))),
      [])) /\
  exists r calls,
    get_check world_unauthorized (obj [("userId", JStr (js "1"))])
    = (Ok r, calls) /\
    status r = 200 /\
    In (CallUsers (js "1")) calls /\
    users_api world_unauthorized (js "1") = Resolved sample_profile /\
    exists userId fallback,
      ToString userId = Ok (js "1") /\
      requested world_unauthorized (obj [("userId", JStr (js "1"))]) calls
        userId fallback /\
      after_profile world_unauthorized userId fallback sample_profile
        (js "1") r.
Proof.
  split.
  - assert (Hnone : none_supplied (obj [])) by (repeat split).
    split; [exact Hnone|].
    apply (proj1 (check_answers world_unauthorized (obj [])) Hnone).
  - destruct (proj2 (check_answers world_unauthorized
                       (obj [("userId", JStr (js "1"))]))
                _ (or_introl eq_refl))
      as (r & calls & Hrun & _ & _ & Hlater).
    exists r, calls. split; [exact Hrun|].
    assert (Hst : status r = 200).
    { pose proof (f_equal fst Hrun) as Hr. vm_compute in Hr.
      injection Hr as <-. reflexivity. }
    assert (Hin : In (CallUsers (js "1")) calls).
    { pose proof (f_equal snd Hrun) as Hc. cbn [snd] in Hc. rewrite <- Hc.
      vm_compute. auto. }
    split; [exact Hst|]. split; [exact Hin|]. split; [reflexivity|].
    apply Hlater; [exact Hin|reflexivity].
Defined.

Lemma connections_failure_swallowed_witness :
  fetch_fails world_private_user (js "1") /\
  ~ fetch_fails world_private_user (js "2") /\
  fst (get_check world_private_user (obj [("userId", JStr (js "1"))]))
  = Ok (HttpResponse 200
          (JObj [(js "userId", JStr (js "1"));
                 (js "username", JStr (js "builderman"));
                 (js "bio",
                  JStr (js "ig: builder_man http://Example.com/A http://example.com/a"));
                 (js "parsed",
                  parsed_json
                    (extractConnectionsFromBio
                       (js "ig: builder_man http://Example.com/A http://example.com/a")));
                 (js "connections", JArr [])])).
Proof.
  assert (Hfail : fetch_fails world_private_user (js "1")).
  { right. left. eexists. reflexivity. }
  split; [exact Hfail|]. split.
  - intros [H|[[e H]|(data & H & Harr)]].
    + discriminate H.
    + discriminate H.
    + vm_compute in H. injection H as <-. discriminate Harr.
  - apply (proj2 (proj2 (proj2
             (connections_failure_swallowed world_private_user))))
      with (info := sample_profile);
      try reflexivity; try discriminate. exact Hfail.
Defined.

(** The same request for a user whose social links are served gets
    them. *)
Example check_other_user_connections :
  option_map (fun r => get (body r) "connections")
    (match fst (get_check world_private_user
                  (obj [("userId", JStr (js "2"))])) with
     | Ok r => Some r
     | Throw _ => None
     end)
  = Some (JArr [obj [("type", JStr (js "Twitter"));
                     ("url", JStr (js "https://x.com/a"))]]).
Proof. vm_compute. reflexivity. Qed.

End FurtherRuns.
